(** * Polya-Gamma sampling kernel: a shallow embedding and its properties

    The C sources [pgm_common.h] and [pgm_devroye.c] are embedded function by
    function.  A C [double] is a binary64 primitive float, so every arithmetic
    operation rounds as the compiled code does (round to nearest even, one
    NaN, no contraction of a product and a sum into one rounding).  A [size_t] or [uint64_t] is a [Z] with the wrap-around modulo 2^64
    written out.  The mathematical library ([exp], [log]) and the random
    engine of NumPy are external to the repository; they enter as variables of
    the section that holds the code. *)

From Stdlib Require Import ZArith List Bool Lia Floats Reals Lra.
From Bignums Require Import BigZ.
Import ListNotations.

Set Warnings "-inexact-float".

(** ** C arithmetic on [double] and [size_t] *)

Module C99.

Local Open Scope float_scope.

(** [DBL_EPSILON] and [DBL_MIN] of <float.h>: 2^-52 and 2^-1022. *)
Definition DBL_EPSILON : float := 2.220446049250313e-16.
Definition DBL_MIN : float := 2.2250738585072014e-308.

(** The relational operators [>] and [>=] of C, on doubles. *)
Definition gtb (a b : float) : bool := b <? a.
Definition geb (a b : float) : bool := b <=? a.

Definition SIZE_MAX_plus_1 : Z := (2 ^ 64)%Z.

(** Arithmetic on [size_t] and [uint64_t] wraps modulo 2^64. *)
Definition wrap64 (n : Z) : Z := (n mod SIZE_MAX_plus_1)%Z.

(** The cast [(size_t)z].  The fractional part is discarded; when the integral
    part is not a value of [size_t] (or [z] is infinite or NaN) the C standard
    leaves the behaviour undefined, which is [None] here. *)
Definition size_t_of_double (z : float) : option Z :=
  match Prim2SF z with
  | S754_zero _ => Some 0%Z
  | S754_finite s m e =>
      let mag := Z.shiftl (Z.pos m) e in
      if s then (if (mag =? 0)%Z then Some 0%Z else None)
      else if (mag <? SIZE_MAX_plus_1)%Z then Some mag else None
  | _ => None
  end.

(** A read [a[i]] of a constant array; past the end it is undefined. *)
Definition array_read (a : list float) (i : Z) : option float :=
  if (i <? Z.of_nat (length a))%Z then nth_error a (Z.to_nat i) else None.

(** The conversion of a [size_t] to [double] (round to nearest even). *)
Definition double_of_size_t (n : Z) : float :=
  SF2Prim (binary_normalize prec emax n 0 false).

End C99.

Export C99.

(** ** Constants of the sources *)

Module Constants.

Local Open Scope float_scope.

Definition PGM_PI2 : float := 9.869604401089358.
Definition PGM_PI2_8 : float := 1.233700550136169.
Definition PGM_LOGPI_2 : float := 0.4515827052894548.
Definition PGM_LS2PI : float := 0.9189385332046727.
Definition PGM_1_SQRTPI : float := 0.5641895835477563.

Definition PGM_GAMMA_LIMIT : Z := 200.

(** Modelled from the spec: [NPY_PI], [NPY_2_PI] and [NPY_PI_2] are macros of
    NumPy's npy_math.h, which is not part of the sources; the spec names the
    truncation point [2/pi], and the values are pi, 2/pi and pi/2 rounded to
    binary64. *)
Definition NPY_PI : float := 3.141592653589793238462643383279502884.
Definition NPY_2_PI : float := 0.636619772367581343075535053490057448.
Definition NPY_PI_2 : float := 1.570796326794896619231321691639751442.

(** [#define T NPY_2_PI], the truncation point of the Devroye sampler. *)
Definition T : float := NPY_2_PI.

(** The table [logfactorial] of [pgm_lgamma]. *)
Definition logfactorial : list float :=
  [ 0.000000000000000; 0.0000000000000000; 0.69314718055994529;
    1.791759469228055; 3.1780538303479458; 4.7874917427820458;
    6.5792512120101012; 8.5251613610654147; 10.604602902745251;
    12.801827480081469; 15.104412573075516; 17.502307845873887;
    19.987214495661885; 22.552163853123425; 25.19122118273868;
    27.89927138384089; 30.671860106080672; 33.505073450136891;
    36.395445208033053; 39.339884187199495; 42.335616460753485;
    45.380138898476908; 48.471181351835227; 51.606675567764377;
    54.784729398112319; 58.003605222980518; 61.261701761002001;
    64.557538627006338; 67.88974313718154; 71.257038967168015;
    74.658236348830158; 78.092223553315307; 81.557959456115043;
    85.054467017581516; 88.580827542197682; 92.136175603687093;
    95.719694542143202; 99.330612454787428; 102.96819861451381;
    106.63176026064346; 110.32063971475739; 114.03421178146171;
    117.77188139974507; 121.53308151543864; 125.3172711493569;
    129.12393363912722; 132.95257503561632; 136.80272263732635;
    140.67392364823425; 144.5657439463449; 148.47776695177302;
    152.40959258449735; 156.3608363030788; 160.3311282166309;
    164.32011226319517; 168.32744544842765; 172.35279713916279;
    176.39584840699735; 180.45629141754378; 184.53382886144948;
    188.6281734236716; 192.7390472878449; 196.86618167289001;
    201.00931639928152; 205.1681994826412; 209.34258675253685;
    213.53224149456327; 217.73693411395422; 221.95644181913033;
    226.1905483237276; 230.43904356577696; 234.70172344281826;
    238.97838956183432; 243.26884900298271; 247.57291409618688;
    251.89040220972319; 256.22113555000954; 260.56494097186322;
    264.92164979855278; 269.29109765101981; 273.67312428569369;
    278.06757344036612; 282.4742926876304; 286.89313329542699;
    291.32395009427029; 295.76660135076065; 300.22094864701415;
    304.68685676566872; 309.1641935801469; 313.65282994987905;
    318.1526396202093; 322.66349912672615; 327.1852877037752;
    331.71788719692847; 336.26118197919845; 340.81505887079902;
    345.37940706226686; 349.95411804077025; 354.53908551944079;
    359.1342053695754; 363.73937555556347; 368.35449607240474;
    372.97946888568902; 377.61419787391867; 382.25858877306001;
    386.91254912321756; 391.57598821732961; 396.24881705179155;
    400.93094827891576; 405.6222961611449; 410.32277652693733;
    415.03230672824964; 419.75080559954472; 424.47819341825709;
    429.21439186665157; 433.95932399501481; 438.71291418612117;
    443.47508812091894; 448.24577274538461; 453.02489623849613;
    457.81238798127816; 462.60817852687489; 467.4121995716082;
    472.22438392698058; 477.04466549258564; 481.87297922988796 ].

End Constants.

Export Constants.

(** ** The special functions of [pgm_common.h] *)

Section SpecialFunctions.

Local Open Scope float_scope.

(** [exp] and [log] of <math.h>; [sqrt] is the correctly rounded square root,
    a primitive of binary64. *)
Variables exp log : float -> float.

(** [kf_gammaq] of [pgm_igammaq.h], the general incomplete-gamma evaluator. *)
Variable kf_gammaq : float -> float -> float.

(** [pgm_erfc] calls itself on [-x] in its second band; [fuel] bounds the
    depth of that recursion, and [nan] stands for a call that ran out of it. *)
Fixpoint pgm_erfc_rec (fuel : nat) (x : float) : float :=
  match fuel with
  | O => nan
  | S fuel' =>
      let big_val := 26.615717509251258 in
      let small_val := -6.003636680306125 in
      if x <? small_val then 2
      else if x <? - DBL_EPSILON then 2 - pgm_erfc_rec fuel' (- x)
      else if x <? DBL_EPSILON then 1
      else if x <? 0.5 then
        let p0 := 3.20937758913846947e+03 in
        let p1 := 3.77485237685302021e+02 in
        let p2 := 1.13864154151050156e+02 in
        let p3 := 3.16112374387056560e+00 in
        let p4 := 1.85777706184603153e-01 in
        let q0 := 2.84423683343917062e+03 in
        let q1 := 1.28261652607737228e+03 in
        let q2 := 2.44024637934444173e+02 in
        let q3 := 2.36012909523441209e+01 in
        let z := x * x in
        1 - (x * ((((p4 * z + p3) * z + p2) * z + p1) * z + p0)) /
            ((((z + q3) * z + q2) * z + q1) * z + q0)
      else if x <? 4 then
        let p0 := 7.3738883116 in
        let p1 := 6.8650184849 in
        let p2 := 3.0317993362 in
        let p3 := 5.6316961891e-01 in
        let p4 := 4.3187787405e-05 in
        let q0 := 7.3739608908 in
        let q1 := 1.5184908190e+01 in
        let q2 := 1.2795529509e+01 in
        let q3 := 5.3542167949 in
        (exp ((- x) * x) * ((((p4 * x + p3) * x + p2) * x + p1) * x + p0)) /
          ((((x + q3) * x + q2) * x + q1) * x + q0)
      else if x <? big_val then
        let z := x * x in
        let y := exp (- z) in
        if gtb (x * DBL_MIN) (y * PGM_1_SQRTPI) then 0
        else
          let p0 := -4.25799643553e-02 in
          let p1 := -1.96068973726e-01 in
          let p2 := -5.16882262185e-02 in
          let q0 := 1.50942070545e-01 in
          let q1 := 9.21452411694e-01 in
          let z := 1 / z in
          let z := z * (((p2 * z + p1) * z + p0) / ((z + q1) * z + q0)) in
          (y * (PGM_1_SQRTPI + z)) / x
      else 0
  end.

(** Two levels are enough: the call on [-x] never reaches the second band
    again (see [pgm_erfc_rec_fuel]). *)
Definition pgm_erfc (x : float) : float := pgm_erfc_rec 2 x.

Definition inverse_gaussian_cdf (x mu lambda : float) : float :=
  let a := PrimFloat.sqrt (0.5 * lambda / x) in
  let b := a * (x / mu) in
  let c := exp (lambda / mu) in
  0.5 * (pgm_erfc (a - b) + c * pgm_erfc (b + a) * c).

(** [pgm_lgamma].  [None] is undefined behaviour: the cast [(size_t)z] out of
    range, or the table read past its end (at [z == 0]). *)
Definition pgm_lgamma (z : float) : option float :=
  match size_t_of_double z with
  | None => None
  | Some zz =>
      if (z <? 127) && (z =? double_of_size_t zz) then
        array_read logfactorial (wrap64 (zz - 1))
      else if gtb z 12 then
        let a1 := 0.08333333333333333 in
        let a2 := 0.002777777777777778 in
        let a3 := 0.0007936507936507937 in
        let z2 := z * z in
        let out := (z - 0.5) * log z - z + PGM_LS2PI in
        let out := out + (a1 / z - a2 / (z2 * z) + a3 / (z2 * z2 * z)) in
        Some out
      else if geb z 4 then
        let p0 := -2.12159572323e+05 in
        let p1 := 2.30661510616e+05 in
        let p2 := 2.74647644705e+04 in
        let p3 := -4.02621119975e+04 in
        let p4 := -2.29660729780e+03 in
        let q0 := -1.16328495004e+05 in
        let q1 := -1.46025937511e+05 in
        let q2 := -2.42357409629e+04 in
        let q3 := -5.70691009324e+02 in
        Some (((((p4 * z + p3) * z + p2) * z + p1) * z + p0) /
              ((((z + q3) * z + q2) * z + q1) * z + q0))
      else if gtb z 1.5 then
        let p0 := -7.83359299449e+01 in
        let p1 := -1.42046296688e+02 in
        let p2 := 1.37519416416e+02 in
        let p3 := 7.86994924154e+01 in
        let p4 := 4.16438922228 in
        let q0 := 4.70668766060e+01 in
        let q1 := 3.13399215894e+02 in
        let q2 := 2.63505074721e+02 in
        let q3 := 4.33400022514e+01 in
        Some (((z - 2) * ((((p4 * z + p3) * z + p2) * z + p1) * z + p0)) /
              ((((z + q3) * z + q2) * z + q1) * z + q0))
      else
        let p0 := -2.66685511495 in
        let p1 := -2.44387534237e+01 in
        let p2 := -2.19698958928e+01 in
        let p3 := 1.11667541262e+01 in
        let p4 := 3.13060547623 in
        let q0 := 6.07771387771e-01 in
        let q1 := 1.19400905721e+01 in
        let q2 := 3.14690115749e+01 in
        let q3 := 1.52346874070e+01 in
        if geb z 0.5 then
          Some (((z - 1) * ((((p4 * z + p3) * z + p2) * z + p1) * z + p0)) /
                ((((z + q3) * z + q2) * z + q1) * z + q0))
        else if gtb z DBL_EPSILON then
          let x := z + 1 in
          Some ((z * ((((p4 * x + p3) * x + p2) * x + p1) * x + p0)) /
                ((((x + q3) * x + q2) * x + q1) * x + q0) - log z)
        else if gtb z DBL_MIN then Some (- log z)
        else Some 708.3964202663686
  end.

(** The two [for] loops of [pgm_gammaq]: [sum += (a *= x / d(k))] while
    [k < bound], with [d(k) = k] for an integer [s] and [d(k) = k - 0.5] for a
    half-integer one.  [k] only grows towards [bound], so [bound] steps of
    fuel let the loop run to its exit. *)
Fixpoint gammaq_series (fuel : nat) (d : Z -> float) (x : float)
    (bound k : Z) (a sum : float) : float :=
  match fuel with
  | O => sum
  | S fuel' =>
      if (k <? bound)%Z then
        let a' := a * (x / d k) in
        gammaq_series fuel' d x bound (wrap64 (k + 1)) a' (sum + a')
      else sum
  end.

Definition pgm_gammaq (s x : float) : option float :=
  let one_sqrtpi := 0.5641895835477563 in
  match size_t_of_double s with
  | None => None
  | Some ss =>
      if (s =? double_of_size_t ss) && (s <? 30) then
        let sum := gammaq_series (Z.to_nat ss) double_of_size_t x ss 1 1 1 in
        Some (exp (- x) * sum)
      else if (s =? double_of_size_t ss + 0.5) && (s <? 30) then
        let sqrt_x := PrimFloat.sqrt x in
        let bound := wrap64 (ss + 1) in
        let sum := gammaq_series (Z.to_nat bound)
                     (fun k => double_of_size_t k - 0.5) x bound 1 1 0 in
        Some (pgm_erfc sqrt_x + exp (- x) * one_sqrtpi * sum / sqrt_x)
      else Some (kf_gammaq s x)
  end.

End SpecialFunctions.

(** ** The random engine and the samplers *)

Section Samplers.

Local Open Scope float_scope.

Variables exp log : float -> float.

(** NumPy's [bitgen_t] and the variate generators of its distributions.h:
    each call reads the engine state and returns the next one. *)
Variable bitgen_t : Type.
Variable next_double : bitgen_t -> float * bitgen_t.
Variable random_standard_uniform : bitgen_t -> float * bitgen_t.
Variable random_standard_exponential : bitgen_t -> float * bitgen_t.
Variable random_standard_gamma : bitgen_t -> float -> float * bitgen_t.
Variable random_wald : bitgen_t -> float -> float -> float * bitgen_t.

(** A sampler threads the engine state; [None] is a loop that has not left
    within its fuel. *)
Definition Gen (A : Type) : Type := bitgen_t -> option (A * bitgen_t).

Definition ret {A} (a : A) : Gen A := fun st => Some (a, st).

Definition bind {A B} (m : Gen A) (f : A -> Gen B) : Gen B :=
  fun st => match m st with
            | Some (a, st') => f a st'
            | None => None
            end.

Definition draw (prim : bitgen_t -> float * bitgen_t) : Gen float :=
  fun st => Some (prim st).

Definition out_of_fuel {A} : Gen A := fun _ => None.

Notation "x <- m ;; k" := (bind m (fun x => k))
  (at level 61, m at next level, right associativity).

(** *** [random_left_bounded_gamma] *)

(** The [do ... while] of the branch [a > 1] (Dagpunar). *)
Fixpoint left_bounded_gamma_dagpunar (fuel : nat)
    (t a_minus_1 b c0 one_minus_c0 : float) : Gen float :=
  match fuel with
  | O => out_of_fuel
  | S fuel' =>
      e <- draw random_standard_exponential ;;
      let x := b + e / c0 in
      let log_rho := a_minus_1 * log x - x * one_minus_c0 in
      let log_m := a_minus_1 * log (a_minus_1 / one_minus_c0) - a_minus_1 in
      u <- draw random_standard_uniform ;;
      if gtb (log (1 - u)) (log_rho - log_m)
      then left_bounded_gamma_dagpunar fuel' t a_minus_1 b c0 one_minus_c0
      else ret (t * (x / b))
  end.

(** The [do ... while] of the branch [a < 1] (Philippe). *)
Fixpoint left_bounded_gamma_philippe (fuel : nat) (a b t : float) : Gen float :=
  match fuel with
  | O => out_of_fuel
  | S fuel' =>
      e <- draw random_standard_exponential ;;
      let x := 1 + e / (t * b) in
      u <- draw random_standard_uniform ;;
      if gtb (log (1 - u)) ((a - 1) * log x)
      then left_bounded_gamma_philippe fuel' a b t
      else ret (t * x)
  end.

Definition random_left_bounded_gamma (fuel : nat) (a b t : float) : Gen float :=
  if gtb a 1 then
    let b := t * b in
    let a_minus_1 := a - 1 in
    let b_minus_a := b - a in
    let c0 := 0.5 * (b_minus_a + PrimFloat.sqrt (b_minus_a * b_minus_a + 4 * b)) / b in
    let one_minus_c0 := 1 - c0 in
    left_bounded_gamma_dagpunar fuel t a_minus_1 b c0 one_minus_c0
  else if a =? 1 then
    e <- draw random_standard_exponential ;;
    ret (t + e / b)
  else
    left_bounded_gamma_philippe fuel a b t.

(** *** [random_right_bounded_inverse_gaussian] *)

(** The inner [do ... while]: a pair of exponentials until
    [e1 * e1 <= 2 * e2 / t]; the loop leaves [e1] behind. *)
Fixpoint normal_tail_pair (fuel : nat) (bound : float -> float) : Gen float :=
  match fuel with
  | O => out_of_fuel
  | S fuel' =>
      e1 <- draw random_standard_exponential ;;
      e2 <- draw random_standard_exponential ;;
      if gtb (e1 * e1) (bound e2)
      then normal_tail_pair fuel' bound
      else ret e1
  end.

(** The outer [do ... while] of the branch [t < mu].  The uniform is drawn
    only when [a > 0] holds, as [&&] evaluates its right operand. *)
Fixpoint right_bounded_ig_small_t (n fuel : nat)
    (a half_lambda t : float) : Gen float :=
  match fuel with
  | O => out_of_fuel
  | S fuel' =>
      e1 <- normal_tail_pair n (fun e2 => 2 * e2 / t) ;;
      let x := 1 + t * e1 in
      let x := t / (x * x) in
      if gtb a 0 then
        u <- draw random_standard_uniform ;;
        if geb (log (1 - u)) (half_lambda * a * x)
        then right_bounded_ig_small_t n fuel' a half_lambda t
        else ret x
      else ret x
  end.

(** The [do ... while] of the branch [t >= mu]. *)
Fixpoint right_bounded_ig_wald (fuel : nat) (mu lambda t : float) : Gen float :=
  match fuel with
  | O => out_of_fuel
  | S fuel' =>
      x <- draw (fun st => random_wald st mu lambda) ;;
      if geb x t then right_bounded_ig_wald fuel' mu lambda t else ret x
  end.

Definition random_right_bounded_inverse_gaussian (fuel : nat)
    (mu lambda t : float) : Gen float :=
  if t <? mu then
    let a := 1 / (mu * mu) in
    let half_lambda := -0.5 * lambda in
    right_bounded_ig_small_t fuel fuel a half_lambda t
  else right_bounded_ig_wald fuel mu lambda t.

(** *** [random_polyagamma_gamma_conv] *)

(** [for (size_t n = PGM_GAMMA_LIMIT; n--; )]: the test reads [n], then
    decrements it, and the body sees the decremented value.  The loop runs
    [n] times, so [n] steps of fuel reach its exit. *)
Fixpoint gamma_conv_loop (fuel : nat) (h z2 : float) (n : Z) (out : float)
    (st : bitgen_t) : float * bitgen_t :=
  match fuel with
  | O => (out, st)
  | S fuel' =>
      if (n =? 0)%Z then (out, st)
      else
        let n := wrap64 (n - 1) in
        let c := double_of_size_t n + 0.5 in
        let (g, st') := random_standard_gamma st h in
        gamma_conv_loop fuel' h z2 n (out + g / (PGM_PI2 * c * c + z2)) st'
  end.

Definition random_polyagamma_gamma_conv (st : bitgen_t) (h z : float)
    : float * bitgen_t :=
  let z2 := z * z in
  let (out, st') :=
    gamma_conv_loop (S (Z.to_nat PGM_GAMMA_LIMIT)) h z2 PGM_GAMMA_LIMIT 0 st in
  (0.5 * out, st').

(** *** The Devroye sampler *)

Record config : Type := Config {
  cfg_mu : float;
  cfg_k : float;
  cfg_half_mu2 : float;
  cfg_ratio : float;
  cfg_x : float;
  cfg_logx : float
}.

Definition set_x (cfg : config) (v : float) : config :=
  Config (cfg_mu cfg) (cfg_k cfg) (cfg_half_mu2 cfg) (cfg_ratio cfg) v (cfg_logx cfg).

Definition set_logx (cfg : config) (v : float) : config :=
  Config (cfg_mu cfg) (cfg_k cfg) (cfg_half_mu2 cfg) (cfg_ratio cfg) (cfg_x cfg) v.

Definition set_ratio (cfg : config) (v : float) : config :=
  Config (cfg_mu cfg) (cfg_k cfg) (cfg_half_mu2 cfg) v (cfg_x cfg) (cfg_logx cfg).

Definition piecewise_coef (n : Z) (cfg : config) : float :=
  let n_plus_half := double_of_size_t n + 0.5 in
  let n_plus_half2 := n_plus_half * n_plus_half in
  let n_plus_halfpi := NPY_PI * n_plus_half in
  let x := cfg_x cfg in
  if gtb x T then
    n_plus_halfpi * exp (-0.5 * x * n_plus_halfpi * n_plus_halfpi)
  else if gtb x 0 then
    n_plus_halfpi * exp (-1.5 * (PGM_LOGPI_2 + cfg_logx cfg) - 2 * n_plus_half2 / x)
  else 0.

(** The alternating series [for (i = 1;; ++i)]: [Some true] is the [return],
    [Some false] the [break].  [strict] tells the two samplers apart:
    [random_jacobi_0] returns on [u < s], [random_jacobi] on [u <= s]. *)
Fixpoint alternating_series (fuel : nat) (strict : bool) (cfg : config)
    (i : Z) (s u : float) : option bool :=
  match fuel with
  | O => None
  | S fuel' =>
      if negb (Z.land i 1 =? 0)%Z then
        let s := s - piecewise_coef i cfg in
        if (if strict then u <? s else u <=? s) then Some true
        else alternating_series fuel' strict cfg (wrap64 (i + 1)) s u
      else
        let s := s + piecewise_coef i cfg in
        if gtb u s then Some false
        else alternating_series fuel' strict cfg (wrap64 (i + 1)) s u
  end.

(** The body that both samplers share after the proposal: the logarithm, the
    zeroth coefficient, the uniform and the series. *)
Definition series_test (n : nat) (strict : bool) (cfg : config)
    : Gen (option bool * config) :=
  let cfg := set_logx cfg (log (cfg_x cfg)) in
  let s := piecewise_coef 0 cfg in
  w <- draw next_double ;;
  let u := w * s in
  ret (alternating_series n strict cfg 1 s u, cfg).

Definition jacobi_0_p : float := 0.422599094.
Definition jacobi_0_q : float := 0.57810262346829443.
Definition jacobi_0_ratio : float := jacobi_0_p / (jacobi_0_p + jacobi_0_q).

(** The [for (;;)] of [random_jacobi_0]. *)
Fixpoint random_jacobi_0_loop (n fuel : nat) (cfg : config)
    : Gen (float * config) :=
  match fuel with
  | O => out_of_fuel
  | S fuel' =>
      v <- draw next_double ;;
      cfg <- (if v <? jacobi_0_ratio then
                e1 <- normal_tail_pair n (fun e2 => NPY_PI * e2) ;;
                let cfg := set_x cfg (1 + T * e1) in
                ret (set_x cfg (T / (cfg_x cfg * cfg_x cfg)))
              else
                e <- draw random_standard_exponential ;;
                ret (set_x cfg (T + 8 * e / PGM_PI2))) ;;
      r <- series_test n true cfg ;;
      match r with
      | (Some true, cfg) => ret (cfg_x cfg, cfg)
      | (Some false, cfg) => random_jacobi_0_loop n fuel' cfg
      | (None, _) => out_of_fuel
      end
  end.

Definition random_jacobi_0 (fuel : nat) (cfg : config) : Gen (float * config) :=
  random_jacobi_0_loop fuel fuel cfg.

Definition initialize_config (cfg : config) (z : float) : config :=
  let mu := 1 / z in
  Config mu (PGM_PI2_8 + 0.5 * z * z) (-0.5 / (mu * mu))
         (cfg_ratio cfg) (cfg_x cfg) (cfg_logx cfg).

(** The [for (;;)] of [random_jacobi]. *)
Fixpoint random_jacobi_loop (n fuel : nat) (cfg : config)
    : Gen (float * config) :=
  match fuel with
  | O => out_of_fuel
  | S fuel' =>
      v <- draw next_double ;;
      cfg <- (if v <? cfg_ratio cfg then
                x <- random_right_bounded_inverse_gaussian n (cfg_mu cfg) 1 T ;;
                ret (set_x cfg x)
              else
                e <- draw random_standard_exponential ;;
                ret (set_x cfg (T + e / cfg_k cfg))) ;;
      r <- series_test n false cfg ;;
      match r with
      | (Some true, cfg) => ret (cfg_x cfg, cfg)
      | (Some false, cfg) => random_jacobi_loop n fuel' cfg
      | (None, _) => out_of_fuel
      end
  end.

Definition random_jacobi (fuel : nat) (cfg : config) : Gen (float * config) :=
  random_jacobi_loop fuel fuel cfg.

(** [do { out += component(&cfg); n--; } while (n);] over the [uint64_t]
    counter [n]; [steps] bounds the number of rounds. *)
Fixpoint devroye_do_while (steps : nat)
    (component : config -> Gen (float * config))
    (cfg : config) (n : Z) (out : float) : Gen float :=
  match steps with
  | O => out_of_fuel
  | S steps' =>
      r <- component cfg ;;
      let out := out + fst r in
      let n := wrap64 (n - 1) in
      if negb (n =? 0)%Z
      then devroye_do_while steps' component (snd r) n out
      else ret out
  end.

(** [cfg] stands for the [struct config] of the caller's stack frame, which is
    not initialised when the function starts. *)
Definition random_polyagamma_devroye (fuel steps : nat) (cfg : config)
    (n : Z) (z : float) : Gen float :=
  if z =? 0 then
    out <- devroye_do_while steps (random_jacobi_0 fuel) cfg n 0 ;;
    ret (0.25 * out)
  else
    let cfg := initialize_config cfg z in
    let q := NPY_PI_2 * exp (- cfg_k cfg * T) / cfg_k cfg in
    let p := 2 * exp (- z) * inverse_gaussian_cdf exp T (cfg_mu cfg) 1 in
    let cfg := set_ratio cfg (p / (p + q)) in
    out <- devroye_do_while steps (random_jacobi fuel) cfg n 0 ;;
    ret (0.25 * out).

End Samplers.

(** ** A replay engine

    An engine that hands out a recorded sequence of variates, whatever the
    generator asked: the "sequence of engine draws" of a run.  Past the end of
    the recording it hands out zeros. *)

Module Replay.

Local Open Scope float_scope.

Definition tape : Type := list float.

Definition next (st : tape) : float * tape :=
  match st with
  | [] => (0, [])
  | v :: st' => (v, st')
  end.

Definition next_gamma (st : tape) (shape : float) : float * tape := next st.

Definition next_wald (st : tape) (mu lambda : float) : float * tape := next st.

End Replay.

(** The two truncated samplers and the Devroye sampler on a recording. *)
Definition replay_left_bounded_gamma (log : float -> float) (fuel : nat)
    (a b t : float) (draws : Replay.tape) : option (float * Replay.tape) :=
  random_left_bounded_gamma log Replay.tape Replay.next Replay.next
    fuel a b t draws.

Definition replay_right_bounded_inverse_gaussian (log : float -> float)
    (fuel : nat) (mu lambda t : float) (draws : Replay.tape)
    : option (float * Replay.tape) :=
  random_right_bounded_inverse_gaussian log Replay.tape Replay.next
    Replay.next Replay.next_wald fuel mu lambda t draws.

Definition replay_polyagamma_devroye (exp log : float -> float)
    (fuel steps : nat) (cfg : config) (n : Z) (z : float)
    (draws : Replay.tape) : option (float * Replay.tape) :=
  random_polyagamma_devroye exp log Replay.tape Replay.next Replay.next
    Replay.next Replay.next_wald fuel steps cfg n z draws.

(** A [struct config] with every field zero, for the runs below. *)
Definition zero_config : config := Config 0%float 0%float 0%float 0%float 0%float 0%float.

(** ** Reference points of the mathematical library

    [log] at the few arguments the concrete runs below evaluate, with the
    values the C library returns there (the logarithm rounded to nearest).
    Elsewhere the table answers NaN; no run below reads it there. *)

Module Libm.

Local Open Scope float_scope.

Fixpoint lookup (tbl : list (float * float)) (x : float) : float :=
  match tbl with
  | [] => nan
  | (k, v) :: tbl' => if x =? k then v else lookup tbl' x
  end.

Definition log_points : list (float * float) :=
  [ (1, 0);
    (0.5, -0.6931471805599453);
    (0.25, -1.3862943611198906);
    (2.618033988749895, 0.9624236501192069);
    (3.4142135623730945, 1.2279471772995154);
    (3.414213562373096, 1.2279471772995159);
    (4.302775637731997, 1.4592603116028182);
    (5.236067977499791, 1.6555708306791523);
    (5.60555127546399, 1.7237574059185263) ].

Definition log_at : float -> float := lookup log_points.

Definition exp_points : list (float * float) :=
  [ (0, 1); (0.02, 1.0202013400267558) ].

Definition exp_at : float -> float := lookup exp_points.

End Libm.

(** ** The formulas of the specification *)

Section SpecificationFormulas.

Local Open Scope float_scope.

Variables exp log : float -> float.
Variable bitgen_t : Type.
Variable next_double : bitgen_t -> float * bitgen_t.
Variable random_standard_uniform : bitgen_t -> float * bitgen_t.
Variable random_standard_exponential : bitgen_t -> float * bitgen_t.
Variable random_standard_gamma : bitgen_t -> float -> float * bitgen_t.
Variable random_wald : bitgen_t -> float -> float -> float * bitgen_t.

Notation "x <- m ;; k" := (bind bitgen_t m (fun x => k))
  (at level 61, m at next level, right associativity).

(** *** The left-truncated gamma sampler for [a > 1]

    "Rescale the rate [b' = t*b]; compute [c0]; loop: propose
    [x = b' + Exp/c0]; accept when ...; return ... on acceptance."  The three
    places where a reading of the sentence matters are parameters: the
    envelope rate [c0], the acceptance test and the returned value. *)

Fixpoint propose_accept_loop (fuel : nat) (b' c0 : float)
    (accept : float -> float -> bool) (result : float -> float)
    : Gen bitgen_t float :=
  match fuel with
  | O => out_of_fuel bitgen_t
  | S fuel' =>
      e <- draw bitgen_t random_standard_exponential ;;
      let x := b' + e / c0 in
      u <- draw bitgen_t random_standard_uniform ;;
      if accept x u then ret bitgen_t (result x)
      else propose_accept_loop fuel' b' c0 accept result
  end.

(** The right-hand side of the acceptance test:
    [(a-1)log(x) - x(1-c0) - [(a-1)log((a-1)/(1-c0)) - (a-1)]]. *)
Definition acceptance_bound (a c0 x : float) : float :=
  (a - 1) * log x - x * (1 - c0)
  - ((a - 1) * log ((a - 1) / (1 - c0)) - (a - 1)).

(** [c0] as the sentence has it, from [b' - a + 1]. *)
Definition c0_stated (a b' : float) : float :=
  0.5 * ((b' - a + 1) + PrimFloat.sqrt ((b' - a + 1) * (b' - a + 1) + 4 * b')) / b'.

(** [c0] from [b' - a]. *)
Definition c0_dagpunar (a b' : float) : float :=
  0.5 * ((b' - a) + PrimFloat.sqrt ((b' - a) * (b' - a) + 4 * b')) / b'.

(** Accept when [log(1-U) <= bound]. *)
Definition accept_le (a c0 x u : float) : bool :=
  log (1 - u) <=? acceptance_bound a c0 x.

(** Accept unless [log(1-U) > bound]; the two differ when a side is NaN. *)
Definition accept_not_gt (a c0 x u : float) : bool :=
  negb (gtb (log (1 - u)) (acceptance_bound a c0 x)).

(** The sentence read word for word: [c0] from [b' - a + 1], acceptance on
    [<=], and [t*x/b'] evaluated from the left. *)
Definition stated_left_bounded_gamma (fuel : nat) (a b t : float)
    : Gen bitgen_t float :=
  let b' := t * b in
  let c0 := c0_stated a b' in
  propose_accept_loop fuel b' c0 (accept_le a c0) (fun x => t * x / b').

(** The sentence with one reading changed at a time. *)
Definition stated_but_c0 (fuel : nat) (a b t : float) : Gen bitgen_t float :=
  let b' := t * b in
  let c0 := c0_stated a b' in
  propose_accept_loop fuel b' c0 (accept_not_gt a c0) (fun x => t * (x / b')).

Definition stated_but_le (fuel : nat) (a b t : float) : Gen bitgen_t float :=
  let b' := t * b in
  let c0 := c0_dagpunar a b' in
  propose_accept_loop fuel b' c0 (accept_le a c0) (fun x => t * (x / b')).

Definition stated_but_product (fuel : nat) (a b t : float) : Gen bitgen_t float :=
  let b' := t * b in
  let c0 := c0_dagpunar a b' in
  propose_accept_loop fuel b' c0 (accept_not_gt a c0) (fun x => t * x / b').

(** The sentence as amended: [c0] from [b' - a], the loop repeats while
    [log(1-U) > bound], and the value returned is [t*(x/b')]. *)
Definition amended_left_bounded_gamma (fuel : nat) (a b t : float)
    : Gen bitgen_t float :=
  let b' := t * b in
  let c0 := c0_dagpunar a b' in
  propose_accept_loop fuel b' c0 (accept_not_gt a c0) (fun x => t * (x / b')).

(** *** The inverse-Gaussian distribution function

    [a = sqrt(0.5*lambda/x)], [b = a*(x/mu)], [c = exp(lambda/mu)] and
    [0.5*(erfc(a-b) + c*erfc(a+b)*c)]. *)
Definition inverse_gaussian_cdf_formula (x mu lambda : float) : float :=
  let a := PrimFloat.sqrt (0.5 * lambda / x) in
  let b := a * (x / mu) in
  let c := exp (lambda / mu) in
  0.5 * (pgm_erfc exp (a - b) + c * pgm_erfc exp (a + b) * c).

(** The same with the factor [c] once. *)
Definition inverse_gaussian_cdf_single_factor (x mu lambda : float) : float :=
  let a := PrimFloat.sqrt (0.5 * lambda / x) in
  let b := a * (x / mu) in
  let c := exp (lambda / mu) in
  0.5 * (pgm_erfc exp (a - b) + c * pgm_erfc exp (a + b)).

(** *** The gamma convolution

    [0.5 * sum over n = 0..199 of G_n / (pi^2 (n+0.5)^2 + z^2)].  The terms
    are listed from [n = 199] down to [n = 0], the order in which the code
    adds them; the k-th draw of the engine is the [G] of the k-th term. *)

Fixpoint countdown (k : nat) : list Z :=
  match k with
  | O => []
  | S k' => Z.of_nat k' :: countdown k'
  end.

Definition gamma_conv_term (z : float) (n : Z) (g : float) : float :=
  g / (PGM_PI2 * (double_of_size_t n + 0.5) * (double_of_size_t n + 0.5) + z * z).

Definition gamma_conv_sum (z : float) (terms : list (Z * float)) : float :=
  fold_left (fun acc ng => acc + gamma_conv_term z (fst ng) (snd ng)) terms 0.

Definition gamma_conv_formula (gs : list float) (z : float) : float :=
  0.5 * gamma_conv_sum z (combine (countdown 200) gs).

(** [k] successive standard-gamma draws of shape [h], and the engine after
    them. *)
Fixpoint gamma_draws (k : nat) (st : bitgen_t) (h : float) : list float * bitgen_t :=
  match k with
  | O => ([], st)
  | S k' =>
      let (g, st') := random_standard_gamma st h in
      let (gs, st'') := gamma_draws k' st' h in
      (g :: gs, st'')
  end.

(** *** The sum of component draws

    [k] runs of a component sampler, one after the other on the same
    [struct config], and the list of the values they return. *)
Fixpoint component_draws (k : nat)
    (component : config -> Gen bitgen_t (float * config))
    (cfg : config) : Gen bitgen_t (list float * config) :=
  match k with
  | O => ret bitgen_t ([], cfg)
  | S k' =>
      r <- component cfg ;;
      rest <- component_draws k' component (snd r) ;;
      ret bitgen_t (fst r :: fst rest, snd rest)
  end.

(** The sum of a list, added from the left onto [out]. *)
Definition sum_from (out : float) (xs : list float) : float :=
  fold_left PrimFloat.add xs out.

(** The component sampler of a call: "jacobiZero when z == 0, the
    z-dependent jacobi sampler otherwise". *)
Definition devroye_component (fuel : nat) (z : float)
    : config -> Gen bitgen_t (float * config) :=
  if z =? 0 then
    random_jacobi_0 exp log bitgen_t next_double random_standard_exponential fuel
  else
    random_jacobi exp log bitgen_t next_double random_standard_uniform
      random_standard_exponential random_wald fuel.

(** The [struct config] the first component run starts from: untouched when
    [z == 0], and with [mu], [k], [half_mu2] and [ratio] set otherwise. *)
Definition devroye_start_config (cfg : config) (z : float) : config :=
  if z =? 0 then cfg
  else
    let cfg := initialize_config cfg z in
    let q := NPY_PI_2 * exp (- cfg_k cfg * T) / cfg_k cfg in
    let p := 2 * exp (- z) * inverse_gaussian_cdf exp T (cfg_mu cfg) 1 in
    set_ratio cfg (p / (p + q)).

(** The number of rounds of [do { ...; n--; } while (n);] on a 64-bit
    counter that starts at [n]: [n] itself, and 2^64 when [n] is zero. *)
Definition devroye_rounds (n : Z) : Z :=
  if (n =? 0)%Z then SIZE_MAX_plus_1 else n.

End SpecificationFormulas.

(** ** The real value of a double

    [F2R x] is the real number a finite double stands for, [ulp x] the weight
    of the last bit of its mantissa.  (Zeros, infinities and NaN read 0.) *)

Module RealValue.

Local Open Scope R_scope.

Definition SF2R (f : spec_float) : R :=
  match f with
  | S754_finite s m e => (if s then -1 else 1) * IZR (Z.pos m) * powerRZ 2 e
  | _ => 0
  end.
Definition F2R (x : float) : R := SF2R (Prim2SF x).
Definition SFulp (f : spec_float) : R :=
  match f with
  | S754_finite _ _ e => powerRZ 2 e
  | _ => 0
  end.
Definition ulp (x : float) : R := SFulp (Prim2SF x).

End RealValue.

Export RealValue.

(** ** A checker for bounds on logarithms

    Fixed-point arithmetic on integers: [a] stands for [a / 2^P].
    [exp_lower xi] is a lower bound of [exp (xi / 2^P)], from
    [1 + y <= exp y] at [y = x / 2^M] and [M] squarings rounded down.  A
    bound [ln N <= u] is checked as [N <= exp_lower u], a bound [l <= ln N]
    as [1 <= N * exp_lower (- l)].  The candidates [l] and [u] come from a
    series for the logarithm that needs no proof: they are checked.  The
    checker runs on machine-word integers ([bigZ]); [square_down] on [Z] is
    what it computes. *)

Module LogCheck.

Local Open Scope Z_scope.

Section Precision.

Variable P : Z.
Variable M : nat.

Fixpoint square_down (m : nat) (a : Z) : Z :=
  match m with
  | O => a
  | S m' => square_down m' (Z.shiftr (a * a) P)
  end.

Definition exp_lower (xi : Z) : Z :=
  square_down M (2 ^ P + Z.shiftr xi (Z.of_nat M)).

Fixpoint square_down_fast (p : bigZ) (m : nat) (a : bigZ) : bigZ :=
  match m with
  | O => a
  | S m' => square_down_fast p m' (BigZ.shiftr (BigZ.square a) p)
  end.

Definition exp_lower_fast (xi : Z) : Z :=
  BigZ.to_Z (square_down_fast (BigZ.of_Z P) M
               (BigZ.of_Z (2 ^ P + Z.shiftr xi (Z.of_nat M)))).

Definition ln_upper_ok (N ui : Z) : bool :=
  (0 <=? 2 ^ P + Z.shiftr ui (Z.of_nat M))
  && (N * 2 ^ P <=? exp_lower_fast ui).

Definition ln_lower_ok (N li : Z) : bool :=
  (0 <=? 2 ^ P + Z.shiftr (- li) (Z.of_nat M))
  && (2 ^ P <=? N * exp_lower_fast (- li)).

(** [2^P * artanh (num / den)] by its power series, 60 terms. *)
Fixpoint artanh_series (terms : nat) (k pow x2 acc : bigZ) : bigZ :=
  match terms with
  | O => acc
  | S t =>
      artanh_series t (BigZ.add k 2)
        (BigZ.shiftr (BigZ.mul pow x2) (BigZ.of_Z P)) x2
        (BigZ.add acc (BigZ.div pow k))
  end.

Definition artanh_fixed (num den : Z) : bigZ :=
  let x := BigZ.div (BigZ.shiftl (BigZ.of_Z num) (BigZ.of_Z P)) (BigZ.of_Z den) in
  artanh_series 60 1 x (BigZ.shiftr (BigZ.square x) (BigZ.of_Z P)) 0.

(** [ln j = 2 artanh ((j - 2^k) / (j + 2^k)) + k * 2 artanh (1/3)]. *)
Definition ln_fixed (j : Z) : Z :=
  let k := Z.log2 j in
  2 * BigZ.to_Z (artanh_fixed (j - 2 ^ k) (j + 2 ^ k))
  + k * (2 * BigZ.to_Z (artanh_fixed 1 3)).

(** The candidate bounds of [ln j]: the series, give or take [2^-80]. *)
Definition ln_interval (j : Z) : Z * Z :=
  if j =? 1 then (0, 0)
  else let c := ln_fixed j in (c - 2 ^ (P - 80), c + 2 ^ (P - 80)).

(** A double lies within half an ulp of every real in [[sl, su] / 2^P]. *)
Definition entry_ok (sl su : Z) (f : spec_float) : bool :=
  match f with
  | S754_zero _ => (0 <=? sl) && (su <=? 0)
  | S754_finite false m e =>
      (1 <=? P + e)
      && (Z.pos m * 2 ^ (P + e) - 2 ^ (P + e - 1) <=? sl)
      && (su <=? Z.pos m * 2 ^ (P + e) + 2 ^ (P + e - 1))
  | _ => false
  end.

(** The entries of a table lie within half an ulp of [ln (i!)],
    [ln ((i+1)!)], ...; [[sl, su]] bounds [ln (i!)], and the bounds of
    [ln (i+1)] are checked and added for the next entry. *)
Fixpoint table_ok (i : nat) (sl su : Z) (tbl : list float) : bool :=
  match tbl with
  | [] => true
  | v :: tbl' =>
      entry_ok sl su (Prim2SF v)
      && (let j := Z.of_nat (S i) in
          let lu := ln_interval j in
          ln_lower_ok j (fst lu) && ln_upper_ok j (snd lu)
          && table_ok (S i) (sl + fst lu) (su + snd lu) tbl')
  end.

(** [708.3964202663686 = 6231120809262131 * 2^-43] exceeds [1022 ln 2] by more
    than [10^-6]. *)
Definition floor_constant_ok : bool :=
  let u := snd (ln_interval 2) in
  ln_upper_ok 2 u
  && (1022 * u + (2 ^ P / 1000000 + 1) <=? 6231120809262131 * 2 ^ (P + -43)).

End Precision.

End LogCheck.

(** ** Defined behaviour, and what a sampler reads of the [struct config]

    [is_defined] tells a call with defined behaviour from one without.  The
    relations below compare two [struct config]: [same_parameters] on the
    fields that [initialize_config] and the caller set ([half_mu2] apart),
    [same_sample] on the two fields a component sampler writes. *)

Definition is_defined {A : Type} (o : option A) : bool :=
  match o with Some _ => true | None => false end.

Definition same_parameters (c1 c2 : config) : Prop :=
  cfg_mu c1 = cfg_mu c2 /\ cfg_k c1 = cfg_k c2 /\ cfg_ratio c1 = cfg_ratio c2.

Definition same_sample (c1 c2 : config) : Prop :=
  cfg_x c1 = cfg_x c2 /\ cfg_logx c1 = cfg_logx c2.

(** Two runs end alike: both still running, or both returned with the same
    value and the same engine state, and with structs related by [R]. *)
Definition same_outcome {A S : Type} (R : config -> config -> Prop)
    (r1 r2 : option ((A * config) * S)) : Prop :=
  match r1, r2 with
  | Some ((x1, c1), s1), Some ((x2, c2), s2) => x1 = x2 /\ s1 = s2 /\ R c1 c2
  | None, None => True
  | _, _ => False
  end.

(** Two structs that a call with [z] cannot tell apart: any two when
    [z == 0], two with the same [mu], [k] and [ratio] otherwise. *)
Definition alike (z : float) (c1 c2 : config) : Prop :=
  (z =? 0)%float = true \/ same_parameters c1 c2.

(** [log] and [exp] at the arguments that a component run with the proposal
    [x = 2/pi] evaluates, with the values the C library returns there (the
    functions rounded to nearest). *)
Module LibmAtT.

Local Open Scope float_scope.

Definition log_points : list (float * float) :=
  [ (0.6366197723675814, -0.4515827052894548) ].

Definition log_at : float -> float := Libm.lookup log_points.

Definition exp_points : list (float * float) :=
  [ (-0.7853981633974483, 0.45593812776599624);
    (-7.0685834705770345, 0.0008514383428051582) ].

Definition exp_at : float -> float := Libm.lookup exp_points.

End LibmAtT.

(** ** Signs

    [signed s f]: [f] is a zero, a finite number or an infinity with the sign
    bit [s] (NaN has no sign).  [above_zero f]: [f] is a finite number or the
    infinity above 0.  [zero_or_signed f]: a zero of either sign, or a number
    with the sign bit clear.  [finite_nonneg g]: what a generator of
    non-negative variates may return (no negative number, infinity or
    NaN). *)

Definition signed (s : bool) (f : spec_float) : Prop :=
  match f with
  | S754_zero s' | S754_infinity s' | S754_finite s' _ _ => s' = s
  | S754_nan => False
  end.

Definition above_zero (f : spec_float) : Prop :=
  match f with
  | S754_infinity false | S754_finite false _ _ => True
  | _ => False
  end.

Definition zero_or_signed (f : spec_float) : Prop :=
  match f with
  | S754_zero _ => True
  | _ => signed false f
  end.

Definition finite_nonneg (g : float) : bool :=
  ((0 <=? g) && (g <? infinity))%float.

(** ** A constant engine

    An engine without state: every generator hands out one fixed variate. *)

Module Constant.

Definition state : Type := unit.

Definition draw (c : float) (st : state) : float * state := (c, st).

Definition wald (c : float) (st : state) (mu lambda : float) : float * state :=
  (c, st).

End Constant.

(** [exp] at the arguments that a call of [random_polyagamma_devroye] with
    [z = 1] and the proposal [x = 2/pi] evaluates, rounded to nearest. *)
Module LibmAtOne.

Local Open Scope float_scope.

Definition exp_points : list (float * float) :=
  [ (-1.1037080495812386, 0.3316390668170542);
    (-1, 0.36787944117144233);
    (1, 2.718281828459045);
    (-2.1037080495812392, 0.12200319457127644);
    (-0.7853981633974483, 0.45593812776599624);
    (-7.0685834705770345, 0.0008514383428051582) ].

Definition exp_at : float -> float := Libm.lookup exp_points.

End LibmAtOne.

(** [log] at the arguments of a run of [random_left_bounded_gamma] with the
    shape [a = 10^9]: [log(+inf)] is [+inf] (C99, F.9.3.7), the others are
    rounded to nearest.  [exp] at [-inf], which is [+0] (C99, F.9.3.1). *)
Module LibmLarge.

Local Open Scope float_scope.

Definition log_points : list (float * float) :=
  [ (infinity, infinity);
    (0.5, -0.6931471805599453);
    (999999999, 20.72326583594641) ].

Definition log_at : float -> float := Libm.lookup log_points.

Definition exp_points : list (float * float) := [ (neg_infinity, 0) ].

Definition exp_at : float -> float := Libm.lookup exp_points.

End LibmLarge.

(** * Properties *)

(** ** Facts about binary64 arithmetic *)

Module FloatFacts.

Local Open Scope float_scope.

Lemma SFadd_comm (x y : spec_float) : SFadd prec emax x y = SFadd prec emax y x.
Proof.
  destruct x as [sx|sx| |sx mx ex], y as [sy|sy| |sy my ey]; simpl;
    try reflexivity; try (destruct sx, sy; reflexivity).
  rewrite Z.min_comm. f_equal. apply Z.add_comm.
Qed.

(** Addition of doubles commutes (there is one NaN). *)
Lemma add_comm (x y : float) : x + y = y + x.
Proof. apply Prim2SF_inj. rewrite !add_spec. apply SFadd_comm. Qed.

Lemma Prim2SF_nan (f : float) : Prim2SF f = S754_nan -> f = nan.
Proof. intros H. apply Prim2SF_inj. rewrite H. reflexivity. Qed.

(** [w * 0 / 0] is NaN whatever [w] is: the product is a zero or NaN. *)
Lemma mul_zero_div_zero (w : float) : w * 0 / 0 = nan.
Proof.
  apply Prim2SF_nan. rewrite div_spec, mul_spec.
  change (Prim2SF 0) with (S754_zero false).
  destruct (Prim2SF w) as [s|s| |s m e]; reflexivity.
Qed.

(** The exponent of a finite double is at least -1074. *)
Lemma finite_exponent_min (z : float) s m e :
  Prim2SF z = S754_finite s m e -> (-1074 <= e)%Z.
Proof.
  intros Hz. pose proof (Prim2SF_valid z) as Hv. rewrite Hz in Hv.
  unfold SpecFloat.valid_binary, bounded in Hv.
  apply andb_prop in Hv. destruct Hv as [Hc _].
  unfold canonical_mantissa, fexp in Hc.
  apply Z.eqb_eq in Hc.
  unfold emin, prec, emax in Hc. lia.
Qed.

(** Two positive doubles of the same exponent compare as their mantissas. *)
Lemma SFcompare_same_exponent (m1 m2 : positive) (e : Z) :
  SFcompare (S754_finite false m1 e) (S754_finite false m2 e)
  = Some (Pos.compare m1 m2).
Proof.
  unfold SFcompare. rewrite Z.compare_refl. reflexivity.
Qed.

(** A positive double below or equal to [d = md * 2^-1074] is
    [m * 2^-1074] with [m <= md]. *)
Lemma below_subnormal_shape (z d : float) (md : positive) :
  Prim2SF d = S754_finite false md (-1074) ->
  (0 <? z) = true -> (z <=? d) = true ->
  exists m, Prim2SF z = S754_finite false m (-1074) /\ (m <= md)%positive.
Proof.
  intros Hd Hpos Hle. rewrite ltb_spec in Hpos. rewrite leb_spec, Hd in Hle.
  change (Prim2SF 0) with (S754_zero false) in Hpos.
  destruct (Prim2SF z) as [s|s| |s m e] eqn:Hz.
  - destruct s; discriminate.
  - destruct s; discriminate.
  - discriminate.
  - pose proof (finite_exponent_min z _ _ _ Hz) as He.
    destruct s; [discriminate|].
    assert (e = (-1074)%Z \/ (-1074 < e)%Z) as [Heq|Hgt] by lia.
    + subst e. exists m. split; [reflexivity|].
      unfold SFleb in Hle. rewrite SFcompare_same_exponent in Hle.
      unfold Pos.le. intros Hgt. rewrite Hgt in Hle. discriminate.
    + unfold SFleb, SFcompare in Hle.
      apply Z.compare_gt_iff in Hgt. rewrite Hgt in Hle. discriminate.
Qed.

(** [d < z] fails when both have the exponent [e] and [m <= md]. *)
Lemma SFltb_same_exponent_false (m md : positive) (e : Z) :
  (m <= md)%positive ->
  SFltb (S754_finite false md e) (S754_finite false m e) = false.
Proof.
  intros Hle. unfold SFltb. rewrite SFcompare_same_exponent.
  destruct (Pos.compare_spec md m) as [E|L|G]; try reflexivity.
  exfalso. apply Pos.lt_nle in L. contradiction.
Qed.

(** Such a mantissa is shifted out entirely by [(size_t)]. *)
Lemma shiftl_subnormal (m : positive) :
  (m <= 4503599627370496)%positive -> Z.shiftl (Z.pos m) (-1074) = 0%Z.
Proof.
  intros H. apply Pos2Z.pos_le_pos in H.
  rewrite Z.shiftl_div_pow2 by lia.
  apply Z.div_small. split; [lia|].
  change (- -1074)%Z with 1074%Z.
  assert (4503599627370496 < 2 ^ 1074)%Z by (apply Z.ltb_lt; vm_compute; reflexivity).
  lia.
Qed.

(** If [x] is below a negative number then [-x] is below no negative number. *)
Lemma opp_of_negative (x c d : float) mc ec md ed :
  Prim2SF c = S754_finite true mc ec ->
  Prim2SF d = S754_finite true md ed ->
  (x <? c) = true -> (- x <? d) = false.
Proof.
  intros Hc Hd Hlt. rewrite ltb_spec, Hc in Hlt. rewrite ltb_spec, opp_spec, Hd.
  destruct (Prim2SF x) as [s|s| |s m e]; simpl in *; try discriminate;
    destruct s; try discriminate; reflexivity.
Qed.

Lemma SFcompare_swap (x y : spec_float) :
  SFcompare y x = option_map CompOpp (SFcompare x y).
Proof.
  destruct x as [sx|sx| |sx mx ex], y as [sy|sy| |sy my ey]; simpl;
    try reflexivity; try (destruct sx; reflexivity);
    try (destruct sy; reflexivity); try (destruct sx, sy; reflexivity).
  assert (Hm : Pos.compare_cont Eq my mx = CompOpp (Pos.compare_cont Eq mx my))
    by (rewrite Pos.compare_cont_antisym; reflexivity).
  destruct sx, sy; simpl; try reflexivity;
    rewrite (Z.compare_antisym ex ey); destruct (ex ?= ey)%Z; simpl;
    try reflexivity; rewrite Hm;
    destruct (Pos.compare_cont Eq mx my); reflexivity.
Qed.

Lemma SFcompare_refl (x : spec_float) :
  SFcompare x x = match x with S754_nan => None | _ => Some Eq end.
Proof.
  destruct x as [s|s| |s m e]; simpl; try reflexivity.
  - destruct s; reflexivity.
  - rewrite Z.compare_refl, Pos.compare_cont_refl. destruct s; reflexivity.
Qed.

Ltac compare_cases l r :=
  let sl := fresh "sl" in
  let sr := fresh "sr" in
  let ml := fresh "ml" in
  let mr := fresh "mr" in
  let el := fresh "el" in
  let er := fresh "er" in
  destruct (Prim2SF l) as [sl|sl| |sl ml el], (Prim2SF r) as [sr|sr| |sr mr er];
  simpl; try reflexivity; try (destruct sl; reflexivity);
  try (destruct sr; reflexivity); try (destruct sl, sr; reflexivity);
  destruct sl, sr; simpl; try reflexivity;
  destruct (el ?= er)%Z; simpl; try reflexivity;
  destruct (Pos.compare_cont Eq ml mr); reflexivity.

(** In C, [!(l > r)] is [l <= r] unless a side is NaN, and holds then. *)
Lemma not_gtb_leb (l r : float) :
  negb (gtb l r) = (l <=? r) || is_nan l || is_nan r.
Proof.
  unfold gtb, is_nan. rewrite ltb_spec, leb_spec, !eqb_spec.
  unfold SFltb, SFleb, SFeqb. rewrite !SFcompare_refl.
  rewrite (SFcompare_swap (Prim2SF l) (Prim2SF r)).
  compare_cases l r.
Qed.

(** Likewise [!(l >= r)] is [l < r] unless a side is NaN. *)
Lemma not_geb_ltb (l r : float) :
  negb (geb l r) = (l <? r) || is_nan l || is_nan r.
Proof.
  unfold geb, is_nan. rewrite ltb_spec, leb_spec, !eqb_spec.
  unfold SFltb, SFleb, SFeqb. rewrite !SFcompare_refl.
  rewrite (SFcompare_swap (Prim2SF l) (Prim2SF r)).
  compare_cases l r.
Qed.

(** A property of every integer below [n], from its instances. *)
Lemma Z_below_cases (n : nat) (P : Z -> Prop) :
  Forall P (map Z.of_nat (seq 0 n)) ->
  forall k, (0 <= k < Z.of_nat n)%Z -> P k.
Proof.
  intros HF k Hk. rewrite Forall_forall in HF. apply HF.
  apply in_map_iff. exists (Z.to_nat k). split; [lia | apply in_seq; lia].
Qed.

End FloatFacts.

Import FloatFacts.

(** ** The special functions *)

Section SpecialFunctionFacts.

Local Open Scope float_scope.

Variables exp log : float -> float.
Variable kf_gammaq : float -> float -> float.

(** The self-call of [pgm_erfc] is one level deep: on [-x] the first two
    bands are closed, so more fuel than two changes nothing. *)
Lemma pgm_erfc_rec_fuel (n : nat) (x : float) :
  pgm_erfc_rec exp (S (S n)) x = pgm_erfc exp x.
Proof.
  unfold pgm_erfc.
  assert (Hs : Prim2SF (-6.003636680306125) = S754_finite true 6759493979073627 (-50))
    by (vm_compute; reflexivity).
  assert (He : Prim2SF (- DBL_EPSILON) = S754_finite true 4503599627370496 (-104))
    by (vm_compute; reflexivity).
  cbn [pgm_erfc_rec].
  destruct (x <? -6.003636680306125) eqn:H1; [reflexivity|].
  destruct (x <? - DBL_EPSILON) eqn:H2; [|reflexivity].
  rewrite (opp_of_negative x _ _ _ _ _ _ He Hs H2).
  rewrite (opp_of_negative x _ _ _ _ _ _ He He H2).
  reflexivity.
Qed.

(** The code computes the formula as the specification writes it; only the
    order of the operands of one addition differs. *)
Lemma inverse_gaussian_cdf_is_formula (x mu lambda : float) :
  inverse_gaussian_cdf exp x mu lambda
  = inverse_gaussian_cdf_formula exp x mu lambda.
Proof.
  unfold inverse_gaussian_cdf, inverse_gaussian_cdf_formula. cbv zeta.
  rewrite (add_comm (PrimFloat.sqrt (0.5 * lambda / x) * (x / mu))).
  reflexivity.
Qed.

(** On the half-integer path with [x = 0] the last term is [0 / 0]. *)
Lemma pgm_gammaq_half_integers_at_zero (k : Z) :
  (0 <= k < 30)%Z ->
  pgm_gammaq exp kf_gammaq (double_of_size_t k + 0.5) 0 = Some nan.
Proof.
  revert k. apply (Z_below_cases 30). simpl.
  repeat (constructor; [vm_compute; rewrite mul_zero_div_zero; reflexivity|]).
  constructor.
Qed.

(** On the integer path [gammaq(s, 0)] is [exp(-0)], which is 1 for an [exp]
    that is exact at zero. *)
Lemma pgm_gammaq_integers_at_zero (k : Z) :
  (0 <= k < 30)%Z -> exp (- 0) = 1 ->
  pgm_gammaq exp kf_gammaq (double_of_size_t k) 0 = Some 1.
Proof.
  intros Hk He. vm_compute in He. revert k Hk.
  apply (Z_below_cases 30). simpl.
  repeat (constructor; [vm_compute; rewrite He; reflexivity|]).
  constructor.
Qed.

(** For [0 < z <= DBL_MIN] every band of [pgm_lgamma] but the last is
    closed, and the last returns its literal. *)
Lemma pgm_lgamma_below_DBL_MIN (z : float) :
  (0 <? z) = true -> (z <=? DBL_MIN) = true ->
  pgm_lgamma log z = Some 708.3964202663686.
Proof.
  intros Hpos Hle.
  assert (Hd : Prim2SF DBL_MIN = S754_finite false 4503599627370496 (-1074))
    by (vm_compute; reflexivity).
  destruct (below_subnormal_shape z DBL_MIN _ Hd Hpos Hle) as [m [Hz Hm]].
  assert (Hsz : size_t_of_double z = Some 0%Z).
  { unfold size_t_of_double. rewrite Hz, (shiftl_subnormal m Hm). reflexivity. }
  assert (Hcmp : forall c mc ec,
             Prim2SF c = S754_finite false mc ec -> (-1074 < ec)%Z ->
             (c <? z) = false /\ (c <=? z) = false).
  { intros c mc ec Hc Hec. rewrite ltb_spec, leb_spec, Hc, Hz.
    unfold SFltb, SFleb, SFcompare.
    apply Z.compare_gt_iff in Hec. rewrite Hec. split; reflexivity. }
  assert (Heq : (z =? double_of_size_t 0) = false).
  { rewrite eqb_spec, Hz.
    assert (H0 : Prim2SF (double_of_size_t 0) = S754_zero false)
      by (vm_compute; reflexivity).
    rewrite H0. reflexivity. }
  assert (Hmin : (DBL_MIN <? z) = false).
  { rewrite ltb_spec, Hz, Hd. apply SFltb_same_exponent_false. exact Hm. }
  assert (H12 : Prim2SF 12 = S754_finite false 6755399441055744 (-49))
    by (vm_compute; reflexivity).
  assert (H4 : Prim2SF 4 = S754_finite false 4503599627370496 (-50))
    by (vm_compute; reflexivity).
  assert (H15 : Prim2SF 1.5 = S754_finite false 6755399441055744 (-52))
    by (vm_compute; reflexivity).
  assert (H05 : Prim2SF 0.5 = S754_finite false 4503599627370496 (-53))
    by (vm_compute; reflexivity).
  assert (Heps : Prim2SF DBL_EPSILON = S754_finite false 4503599627370496 (-104))
    by (vm_compute; reflexivity).
  unfold pgm_lgamma. rewrite Hsz, Heq, andb_false_r.
  unfold gtb, geb.
  rewrite (proj1 (Hcmp 12 _ _ H12 eq_refl)).
  rewrite (proj2 (Hcmp 4 _ _ H4 eq_refl)).
  rewrite (proj1 (Hcmp 1.5 _ _ H15 eq_refl)).
  rewrite (proj2 (Hcmp 0.5 _ _ H05 eq_refl)).
  rewrite (proj1 (Hcmp DBL_EPSILON _ _ Heps eq_refl)).
  rewrite Hmin. reflexivity.
Qed.

End SpecialFunctionFacts.

(** ** The gamma-convolution sampler *)

Section GammaConvolutionFacts.

Local Open Scope float_scope.

Variable bitgen_t : Type.
Variable random_standard_gamma : bitgen_t -> float -> float * bitgen_t.

Lemma wrap64_pred (k : nat) :
  (Z.of_nat (S k) < SIZE_MAX_plus_1)%Z ->
  wrap64 (Z.of_nat (S k) - 1) = Z.of_nat k.
Proof. intros H. unfold wrap64. rewrite Z.mod_small; lia. Qed.

Lemma gamma_draws_length (k : nat) (st : bitgen_t) (h : float) :
  length (fst (gamma_draws bitgen_t random_standard_gamma k st h)) = k.
Proof.
  revert st. induction k as [|k IH]; intros st; simpl; [reflexivity|].
  destruct (random_standard_gamma st h) as [g st'].
  specialize (IH st').
  destruct (gamma_draws bitgen_t random_standard_gamma k st' h) as [gs st''].
  simpl in *. now rewrite IH.
Qed.

(** The loop entered with the counter [k] makes [k] draws, adds the terms
    of the indices [k-1], ..., [0] in that order, and leaves by its test. *)
Lemma gamma_conv_loop_sum (k : nat) :
  forall (fuel : nat) (h z out : float) (st : bitgen_t),
  (k < fuel)%nat -> (Z.of_nat k < SIZE_MAX_plus_1)%Z ->
  gamma_conv_loop bitgen_t random_standard_gamma fuel h (z * z) (Z.of_nat k) out st
  = (fold_left (fun acc ng => acc + gamma_conv_term z (fst ng) (snd ng))
       (combine (countdown k)
          (fst (gamma_draws bitgen_t random_standard_gamma k st h))) out,
     snd (gamma_draws bitgen_t random_standard_gamma k st h)).
Proof.
  induction k as [|k IH]; intros fuel h z out st Hf Hk.
  - destruct fuel as [|fuel]; [lia|]. reflexivity.
  - destruct fuel as [|fuel]; [lia|].
    cbn [gamma_conv_loop gamma_draws countdown].
    replace (Z.of_nat (S k) =? 0)%Z with false by (symmetry; apply Z.eqb_neq; lia).
    rewrite (wrap64_pred k Hk).
    destruct (random_standard_gamma st h) as [g st'].
    rewrite IH by lia.
    destruct (gamma_draws bitgen_t random_standard_gamma k st' h) as [gs st''].
    reflexivity.
Qed.

(** C6. For every shape [h] and every [z], and whatever the engine is,
    [random_polyagamma_gamma_conv] makes exactly 200 standard-gamma draws of
    shape [h] (the engine it hands back is the engine after those 200 draws),
    always returns, and its value is 0.5 times the sum over n = 0..199 of
    [G_n / (pi^2 (n+0.5)^2 + z^2)] for the 200 variates [G] drawn. *)
Theorem random_polyagamma_gamma_conv_200_draws
    (st : bitgen_t) (h z : float) :
  let draws := gamma_draws bitgen_t random_standard_gamma 200 st h in
  length (fst draws) = 200%nat /\
  random_polyagamma_gamma_conv bitgen_t random_standard_gamma st h z
  = (gamma_conv_formula (fst draws) z, snd draws).
Proof.
  intros draws. split; [apply gamma_draws_length|].
  unfold random_polyagamma_gamma_conv, gamma_conv_formula, gamma_conv_sum.
  change PGM_GAMMA_LIMIT with (Z.of_nat 200).
  rewrite Nat2Z.id.
  rewrite (gamma_conv_loop_sum 200 201 h z 0 st) by (unfold SIZE_MAX_plus_1; lia).
  reflexivity.
Qed.

End GammaConvolutionFacts.

(** ** The Devroye sampler: the number of component draws *)

Section DevroyeFacts.

Local Open Scope float_scope.

Variables exp log : float -> float.
Variable bitgen_t : Type.
Variable next_double : bitgen_t -> float * bitgen_t.
Variable random_standard_uniform : bitgen_t -> float * bitgen_t.
Variable random_standard_exponential : bitgen_t -> float * bitgen_t.
Variable random_wald : bitgen_t -> float -> float -> float * bitgen_t.

Notation "x <- m ;; k" := (bind bitgen_t m (fun x => k))
  (at level 61, m at next level, right associativity).

Local Abbreviation do_while := (devroye_do_while bitgen_t).
Local Abbreviation draws := (component_draws bitgen_t).
Local Abbreviation devroye :=
  (random_polyagamma_devroye exp log bitgen_t next_double
     random_standard_uniform random_standard_exponential random_wald).
Local Abbreviation component_of :=
  (devroye_component exp log bitgen_t next_double
     random_standard_uniform random_standard_exponential random_wald).

Section Loop.

Variable component : config -> Gen bitgen_t (float * config).

Lemma component_draws_length (k : nat) :
  forall cfg st xs cfg' st',
  draws k component cfg st = Some ((xs, cfg'), st') -> length xs = k.
Proof.
  induction k as [|k IH]; intros cfg st xs cfg' st' H.
  - inversion H. reflexivity.
  - cbn [component_draws] in H. unfold bind, ret in H.
    destruct (component cfg st) as [[r st1]|]; [|discriminate].
    destruct (draws k component (snd r) st1) as [[rest st2]|] eqn:E;
      [|discriminate].
    destruct rest as [ys cfg2]. inversion H; subst.
    simpl. f_equal. eapply IH. exact E.
Qed.

(** A counter [k + 1] below 2^64 gives [k + 1] rounds. *)
Lemma devroye_do_while_rounds (k : nat) :
  forall (steps : nat) (cfg : config) (out : float) (st : bitgen_t),
  (k < steps)%nat -> (Z.of_nat (S k) < SIZE_MAX_plus_1)%Z ->
  do_while steps component cfg (Z.of_nat (S k)) out st
  = (r <- draws (S k) component cfg ;; ret bitgen_t (sum_from out (fst r))) st.
Proof.
  induction k as [|k IH]; intros steps cfg out st Hs Hk;
    (destruct steps as [|steps]; [lia|]).
  - cbn [devroye_do_while component_draws]. unfold bind, ret.
    destruct (component cfg st) as [[r st']|]; reflexivity.
  - cbn [devroye_do_while]. rewrite (wrap64_pred (S k) Hk).
    replace (Z.of_nat (S k) =? 0)%Z with false by (symmetry; apply Z.eqb_neq; lia).
    cbn [negb].
    change (draws (S (S k)) component cfg) with
      (r <- component cfg ;; rest <- draws (S k) component (snd r) ;;
       ret bitgen_t (fst r :: fst rest, snd rest)).
    unfold bind, ret.
    destruct (component cfg st) as [[r st']|]; [|reflexivity].
    rewrite IH by lia. unfold bind, ret.
    destruct (draws (S k) component (snd r) st') as [[rest st'']|]; reflexivity.
Qed.

Lemma devroye_rounds_bounds (n : Z) :
  (0 <= n < SIZE_MAX_plus_1)%Z -> (0 < devroye_rounds n <= SIZE_MAX_plus_1)%Z.
Proof.
  intros Hn. unfold devroye_rounds.
  destruct (Z.eqb_spec n 0); unfold SIZE_MAX_plus_1 in *; lia.
Qed.

Lemma wrap64_rounds (n : Z) :
  (0 <= n < SIZE_MAX_plus_1)%Z -> wrap64 (n - 1) = (devroye_rounds n - 1)%Z.
Proof.
  intros Hn. unfold devroye_rounds, wrap64.
  destruct (Z.eqb_spec n 0) as [->|Hne]; [reflexivity|].
  apply Z.mod_small. lia.
Qed.

(** With fewer steps than rounds the loop is still running when the steps
    are used up: every step was a component draw. *)
Lemma devroye_do_while_short (steps : nat) :
  forall (cfg : config) (n : Z) (out : float) (st : bitgen_t),
  (0 <= n < SIZE_MAX_plus_1)%Z -> (Z.of_nat steps < devroye_rounds n)%Z ->
  do_while steps component cfg n out st
  = (r <- draws steps component cfg ;; out_of_fuel bitgen_t) st.
Proof.
  induction steps as [|steps IH]; intros cfg n out st Hn Hs.
  - reflexivity.
  - cbn [devroye_do_while component_draws]. unfold bind, ret, out_of_fuel.
    destruct (component cfg st) as [[r st']|]; [|reflexivity].
    pose proof (devroye_rounds_bounds n Hn) as Hr.
    rewrite (wrap64_rounds n Hn).
    replace (devroye_rounds n - 1 =? 0)%Z with false
      by (symmetry; apply Z.eqb_neq; lia).
    cbn [negb]. rewrite IH.
    + unfold bind, ret, out_of_fuel.
      destruct (draws steps component (snd r) st') as [[rest st'']|]; reflexivity.
    + lia.
    + unfold devroye_rounds at 1.
      replace (devroye_rounds n - 1 =? 0)%Z with false
        by (symmetry; apply Z.eqb_neq; lia).
      lia.
Qed.

(** With as many steps as rounds the loop leaves by its test, after
    [devroye_rounds n] component draws. *)
Lemma devroye_do_while_enough (steps : nat) (cfg : config) (n : Z)
    (out : float) (st : bitgen_t) :
  (0 <= n < SIZE_MAX_plus_1)%Z -> (devroye_rounds n <= Z.of_nat steps)%Z ->
  do_while steps component cfg n out st
  = (r <- draws (Z.to_nat (devroye_rounds n)) component cfg ;;
     ret bitgen_t (sum_from out (fst r))) st.
Proof.
  intros Hn Hs.
  pose proof (devroye_rounds_bounds n Hn) as Hr.
  destruct (Z.eqb_spec n 0) as [->|Hne].
  - destruct steps as [|steps]; [lia|].
    change (devroye_rounds 0) with SIZE_MAX_plus_1 in *.
    remember (Z.to_nat (SIZE_MAX_plus_1 - 2)) as k eqn:Hk.
    assert (Hk' : Z.of_nat k = (SIZE_MAX_plus_1 - 2)%Z).
    { subst k. apply Z2Nat.id. unfold SIZE_MAX_plus_1. lia. }
    replace (Z.to_nat SIZE_MAX_plus_1) with (S (S k)) by lia.
    cbn [devroye_do_while].
    change (draws (S (S k)) component cfg) with
      (r <- component cfg ;; rest <- draws (S k) component (snd r) ;;
       ret bitgen_t (fst r :: fst rest, snd rest)).
    unfold bind, ret.
    destruct (component cfg st) as [[r st']|]; [|reflexivity].
    replace (wrap64 (0 - 1)) with (Z.of_nat (S k))
      by (unfold wrap64; rewrite Nat2Z.inj_succ, Hk'; reflexivity).
    replace (Z.of_nat (S k) =? 0)%Z with false by (symmetry; apply Z.eqb_neq; lia).
    cbn [negb]. rewrite devroye_do_while_rounds by lia.
    unfold bind, ret.
    destruct (draws (S k) component (snd r) st') as [[rest st'']|]; reflexivity.
  - unfold devroye_rounds in *.
    replace (n =? 0)%Z with false in * by (symmetry; apply Z.eqb_neq; lia).
    remember (Z.to_nat (n - 1)) as k eqn:Hk.
    assert (Hk' : Z.of_nat (S k) = n) by lia.
    replace (Z.to_nat n) with (S k) by lia.
    rewrite <- Hk'. apply devroye_do_while_rounds; lia.
Qed.

End Loop.

(** Both branches of [random_polyagamma_devroye] are the same loop, over the
    component sampler and the start configuration that [z] selects. *)
Lemma random_polyagamma_devroye_loop (fuel steps : nat) (cfg : config)
    (n : Z) (z : float) :
  devroye fuel steps cfg n z
  = (out <- do_while steps (component_of fuel z)
               (devroye_start_config exp cfg z) n 0 ;;
     ret bitgen_t (0.25 * out)).
Proof.
  unfold random_polyagamma_devroye, devroye_component, devroye_start_config.
  destruct (z =? 0); reflexivity.
Qed.

(** C7. For every [n] with [1 <= n < 2^64] and every [z], given steps for
    [n] rounds, [random_polyagamma_devroye] runs the component sampler
    exactly [n] times ([random_jacobi_0] when [z == 0], [random_jacobi]
    otherwise), one run after the other, and returns 0.25 times the sum of
    the [n] values; it returns exactly when the [n] runs do.  In particular,
    whenever the [n] runs return values [xs] and leave the generator in
    state [st'], the call returns [0.25 * (0 + x1 + ... + xn)], summed in
    the order drawn, and leaves the generator in [st']. *)
Theorem random_polyagamma_devroye_n_components (fuel steps : nat)
    (cfg : config) (n : Z) (z : float) (st : bitgen_t) :
  (1 <= n < SIZE_MAX_plus_1)%Z -> (n <= Z.of_nat steps)%Z ->
  devroye fuel steps cfg n z st
  = (r <- draws (Z.to_nat n) (component_of fuel z)
            (devroye_start_config exp cfg z) ;;
     ret bitgen_t (0.25 * sum_from 0 (fst r))) st
  /\ (forall xs cfg' st',
        draws (Z.to_nat n) (component_of fuel z)
          (devroye_start_config exp cfg z) st = Some ((xs, cfg'), st') ->
        Z.of_nat (length xs) = n)
  /\ (forall xs cfg' st',
        draws (Z.to_nat n) (component_of fuel z)
          (devroye_start_config exp cfg z) st = Some ((xs, cfg'), st') ->
        devroye fuel steps cfg n z st = Some (0.25 * sum_from 0 xs, st')).
Proof.
  intros Hn Hs.
  assert (E : devroye fuel steps cfg n z st
              = (r <- draws (Z.to_nat n) (component_of fuel z)
                        (devroye_start_config exp cfg z) ;;
                 ret bitgen_t (0.25 * sum_from 0 (fst r))) st).
  { rewrite random_polyagamma_devroye_loop. unfold bind at 1.
    rewrite devroye_do_while_enough by (unfold devroye_rounds;
      destruct (Z.eqb_spec n 0); lia).
    unfold devroye_rounds.
    replace (n =? 0)%Z with false by (symmetry; apply Z.eqb_neq; lia).
    unfold bind, ret.
    destruct (draws (Z.to_nat n) _ _ st) as [[r st']|]; reflexivity. }
  split; [exact E|]. split.
  - intros xs cfg' st' H. apply component_draws_length in H. lia.
  - intros xs cfg' st' H. rewrite E. unfold bind, ret. rewrite H. reflexivity.
Qed.

(** C10. With [n = 0] the body of the [do ... while] still runs: after the
    first round the 64-bit counter is [2^64 - 1], not zero, and the loop goes
    on.  The call makes 2^64 component draws before it returns: given fewer
    than 2^64 steps it is still drawing when they are used up, and given
    2^64 steps or more it returns 0.25 times the sum of 2^64 draws. *)
Theorem random_polyagamma_devroye_zero_wraps (fuel steps : nat)
    (cfg : config) (z : float) (st : bitgen_t) :
  wrap64 (0 - 1) = (SIZE_MAX_plus_1 - 1)%Z
  /\ do_while (S steps) (component_of fuel z) cfg 0 0 st
     = (r <- component_of fuel z cfg ;;
        do_while steps (component_of fuel z) (snd r)
          (SIZE_MAX_plus_1 - 1) (0 + fst r)) st
  /\ devroye fuel steps cfg 0 z st
     = if (Z.of_nat steps <? SIZE_MAX_plus_1)%Z
       then (r <- draws steps (component_of fuel z)
                    (devroye_start_config exp cfg z) ;;
             out_of_fuel bitgen_t) st
       else (r <- draws (Z.to_nat SIZE_MAX_plus_1) (component_of fuel z)
                    (devroye_start_config exp cfg z) ;;
             ret bitgen_t (0.25 * sum_from 0 (fst r))) st.
Proof.
  assert (Hw : wrap64 (0 - 1) = (SIZE_MAX_plus_1 - 1)%Z) by reflexivity.
  split; [exact Hw|]. split.
  - cbn [devroye_do_while]. rewrite Hw. unfold bind.
    destruct (component_of fuel z cfg st) as [[r st']|]; reflexivity.
  - rewrite random_polyagamma_devroye_loop. unfold bind at 1.
    assert (H0 : (0 <= 0 < SIZE_MAX_plus_1)%Z) by (unfold SIZE_MAX_plus_1; lia).
    destruct (Z.ltb_spec (Z.of_nat steps) SIZE_MAX_plus_1) as [Hlt|Hge].
    + rewrite devroye_do_while_short by (try exact H0; exact Hlt).
      unfold bind, out_of_fuel.
      destruct (draws steps _ _ st) as [[r st']|]; reflexivity.
    + rewrite devroye_do_while_enough by (try exact H0; exact Hge).
      change (devroye_rounds 0) with SIZE_MAX_plus_1.
      unfold bind, ret.
      destruct (draws (Z.to_nat SIZE_MAX_plus_1) _ _ st) as [[r st']|];
        reflexivity.
Qed.

End DevroyeFacts.

(** ** The truncated samplers *)

Section TruncatedSamplerFacts.

Local Open Scope float_scope.

Variable log : float -> float.
Variable bitgen_t : Type.
Variable random_standard_uniform : bitgen_t -> float * bitgen_t.
Variable random_standard_exponential : bitgen_t -> float * bitgen_t.
Variable random_wald : bitgen_t -> float -> float -> float * bitgen_t.

(** The loop of the branch [a > 1] is the propose-accept loop of the
    specification, with the bound [log_rho - log_m]. *)
Lemma left_bounded_gamma_dagpunar_loop (fuel : nat) (a b' c0 t : float) :
  forall st : bitgen_t,
  left_bounded_gamma_dagpunar log bitgen_t random_standard_uniform
    random_standard_exponential fuel t (a - 1) b' c0 (1 - c0) st
  = propose_accept_loop bitgen_t random_standard_uniform
      random_standard_exponential fuel b' c0
      (accept_not_gt log a c0) (fun x => t * (x / b')) st.
Proof.
  induction fuel as [|fuel IH]; intros st; [reflexivity|].
  cbn [left_bounded_gamma_dagpunar propose_accept_loop].
  unfold bind, draw, ret, accept_not_gt, acceptance_bound.
  destruct (random_standard_exponential st) as [e st1].
  destruct (random_standard_uniform st1) as [u st2].
  destruct (gtb (log (1 - u)) _); cbn [negb]; [apply IH|reflexivity].
Qed.

(** The test of the loop accepts when [log(1-U) <= bound], and also when
    either side is NaN. *)
Lemma accept_not_gt_le (a c0 x u : float) :
  accept_not_gt log a c0 x u
  = accept_le log a c0 x u
    || is_nan (log (1 - u)) || is_nan (acceptance_bound log a c0 x).
Proof. unfold accept_not_gt, accept_le. apply not_gtb_leb. Qed.

(** C1, amended.  For every [a > 1], [random_left_bounded_gamma] rescales
    the rate as [b' = t*b], computes [c0] as
    [0.5*((b'-a) + sqrt((b'-a)^2 + 4*b'))/b'] (from [b' - a], without the
    [+ 1]), proposes [x = b' + Exp/c0], repeats while [log(1-U)] is greater
    than [(a-1)*log(x) - x*(1-c0) - ((a-1)*log((a-1)/(1-c0)) - (a-1))], and
    returns [t*(x/b')] for the first draw it does not repeat on. *)
Theorem random_left_bounded_gamma_dagpunar (fuel : nat) (a b t : float)
    (st : bitgen_t) :
  gtb a 1 = true ->
  random_left_bounded_gamma log bitgen_t random_standard_uniform
    random_standard_exponential fuel a b t st
  = amended_left_bounded_gamma log bitgen_t random_standard_uniform
      random_standard_exponential fuel a b t st.
Proof.
  intros Ha. unfold random_left_bounded_gamma, amended_left_bounded_gamma.
  rewrite Ha. cbv zeta.
  apply (left_bounded_gamma_dagpunar_loop fuel a (t * b) (c0_dagpunar a (t * b)) t).
Qed.

(** For [a == 1] there is no loop: one exponential draw, and the value is
    [t + Exp/b] whatever the fuel. *)
Lemma random_left_bounded_gamma_shape_one (fuel : nat) (b t : float)
    (st : bitgen_t) :
  random_left_bounded_gamma log bitgen_t random_standard_uniform
    random_standard_exponential fuel 1 b t st
  = Some (t + fst (random_standard_exponential st) / b,
          snd (random_standard_exponential st)).
Proof.
  unfold random_left_bounded_gamma.
  change (gtb 1 1) with false. change (1 =? 1) with true.
  unfold bind, draw, ret.
  destruct (random_standard_exponential st) as [e st']. reflexivity.
Qed.

(** In the branch [t >= mu] a value is returned only when [x >= t] fails:
    it is less than [t], unless it or [t] is NaN. *)
Lemma right_bounded_ig_wald_below (fuel : nat) (mu lambda t : float) :
  forall (st st' : bitgen_t) (x : float),
  right_bounded_ig_wald bitgen_t random_wald fuel mu lambda t st = Some (x, st') ->
  (x <? t) || is_nan x || is_nan t = true.
Proof.
  induction fuel as [|fuel IH]; intros st st' x H; [discriminate|].
  cbn [right_bounded_ig_wald] in H. unfold bind, draw, ret in H.
  destruct (random_wald st mu lambda) as [y st1].
  destruct (geb y t) eqn:E.
  - eapply IH. exact H.
  - inversion H; subst. rewrite <- not_geb_ltb, E. reflexivity.
Qed.

End TruncatedSamplerFacts.

(** *** Runs on recorded draws *)

Section RecordedRuns.

Local Open Scope float_scope.

Lemma replay_gamma_draws (k : nat) (h : float) :
  forall draws : Replay.tape,
  snd (gamma_draws Replay.tape Replay.next_gamma k draws h) = skipn k draws.
Proof.
  induction k as [|k IH]; intros draws; [reflexivity|].
  cbn [gamma_draws]. unfold Replay.next_gamma at 1, Replay.next.
  destruct draws as [|g draws].
  - specialize (IH []).
    destruct (gamma_draws Replay.tape Replay.next_gamma k [] h) as [gs st].
    simpl in *. rewrite IH. apply skipn_nil.
  - specialize (IH draws).
    destruct (gamma_draws Replay.tape Replay.next_gamma k draws h) as [gs st].
    exact IH.
Qed.

(** On a recording, [random_polyagamma_gamma_conv] uses up the first 200
    variates and no more. *)
Lemma replay_gamma_conv_consumes_200 (draws : Replay.tape) (h z : float) :
  snd (random_polyagamma_gamma_conv Replay.tape Replay.next_gamma draws h z)
  = skipn 200 draws.
Proof.
  unfold random_polyagamma_gamma_conv.
  change PGM_GAMMA_LIMIT with (Z.of_nat 200). rewrite Nat2Z.id.
  rewrite (gamma_conv_loop_sum Replay.tape Replay.next_gamma 200 201 h z 0 draws)
    by (unfold SIZE_MAX_plus_1; lia).
  apply replay_gamma_draws.
Qed.

(** C1, as stated, fails.  With [a = 3], [b = t = 1], the exponential draw 1
    and the uniform draw 0.5 the code returns 3.414..., from
    [c0 = 0.414...]; the sentence, with [c0 = 0.618...] from [b' - a + 1],
    gives 2.618....  The sentence with only the [+ 1] kept differs there
    too.  With [b' = t*b] overflowing, [c0] and the bound are NaN: the code
    returns, the test [log(1-U) <= bound] never holds.  With [a = 2],
    [b = 1], [t = 3] and the exponential draw 2 the code returns
    [t*(x/b')], which is not [t*x/b'] evaluated from the left. *)
Lemma stated_left_bounded_gamma_differs :
  replay_left_bounded_gamma Libm.log_at 5 3 1 1 [1; 0.5]
    = Some (3.4142135623730945, [])
  /\ stated_left_bounded_gamma Libm.log_at Replay.tape Replay.next Replay.next
       5 3 1 1 [1; 0.5] = Some (2.618033988749895, [])
  /\ stated_but_c0 Libm.log_at Replay.tape Replay.next Replay.next
       5 3 1 1 [1; 0.5] = Some (2.618033988749895, [])
  /\ replay_left_bounded_gamma Libm.log_at 5 2 1e200 1e200 [1; 0.5]
       = Some (nan, [])
  /\ stated_but_le Libm.log_at Replay.tape Replay.next Replay.next
       5 2 1e200 1e200 [1; 0.5] = None
  /\ replay_left_bounded_gamma Libm.log_at 5 2 1 3 [2; 0.5]
       = Some (5.60555127546399, [])
  /\ stated_but_product Libm.log_at Replay.tape Replay.next Replay.next
       5 2 1 3 [2; 0.5] = Some (5.6055512754639905, [])
  /\ (3.4142135623730945 =? 2.618033988749895) = false
  /\ (5.60555127546399 =? 5.6055512754639905) = false.
Proof. repeat split; vm_compute; reflexivity. Qed.

(** The amended sentence holds of a run with [a = 3 > 1]. *)
Lemma random_left_bounded_gamma_dagpunar_run :
  gtb 3 1 = true
  /\ replay_left_bounded_gamma Libm.log_at 5 3 1 1 [1; 0.5]
     = amended_left_bounded_gamma Libm.log_at Replay.tape Replay.next
         Replay.next 5 3 1 1 [1; 0.5].
Proof.
  split; [reflexivity|].
  apply (random_left_bounded_gamma_dagpunar Libm.log_at Replay.tape
           Replay.next Replay.next 5 3 1 1 [1; 0.5]).
  reflexivity.
Defined.

(** C5.  [random_left_bounded_gamma] can return [t] itself, in each regime,
    when the exponential draw is zero: for [a == 1] the value is [t + 0/b]
    whatever [log] is; for [a > 1] it is [t*(b'/b')] and for [a < 1] it is
    [t*1], on uniform draws that are accepted.  A positive draw too small
    for the sum does the same.  The value is not greater than [t]. *)
Theorem random_left_bounded_gamma_returns_t :
  (forall log, replay_left_bounded_gamma log 1 1 2 3 [0] = Some (3, []))
  /\ (forall log, replay_left_bounded_gamma log 1 1 2 3 [1e-17] = Some (3, []))
  /\ replay_left_bounded_gamma Libm.log_at 5 3 1 1 [0; 0.75] = Some (1, [])
  /\ replay_left_bounded_gamma Libm.log_at 5 0.5 2 3 [0; 0] = Some (3, [])
  /\ gtb 3 3 = false /\ gtb 1 1 = false.
Proof. repeat split; intros; vm_compute; reflexivity. Qed.

(** C4.  In the branch [t < mu], [random_right_bounded_inverse_gaussian] can
    return [t] itself: with [e1 = 0] the proposal is [t / (1 * 1)], and it
    is accepted on the uniform draw 0.5 (for [mu = 2], [lambda = 1],
    [t = 1]), or without a uniform draw when [1 / (mu * mu)] is zero.  A
    positive [e1] too small for [1 + t*e1] does the same.  The value is not
    less than [t]. *)
Theorem random_right_bounded_inverse_gaussian_returns_t :
  replay_right_bounded_inverse_gaussian Libm.log_at 5 2 1 1 [0; 1; 0.5]
    = Some (1, [])
  /\ replay_right_bounded_inverse_gaussian Libm.log_at 5 2 1 1 [1e-17; 1; 0.5]
     = Some (1, [])
  /\ (forall log, replay_right_bounded_inverse_gaussian log 5 1e200 1 1 [0; 1]
                  = Some (1, []))
  /\ (1 <? 1) = false.
Proof. repeat split; intros; vm_compute; reflexivity. Qed.

End RecordedRuns.

(** ** Logarithms of factorials: soundness of the checker *)

Module LogCheckFacts.
Import LogCheck.
Local Open Scope R_scope.

Section Soundness.
Variable P : Z.
Hypothesis P_nonneg : (0 <= P)%Z.
Variable M : nat.

Local Abbreviation K := (IZR (2 ^ P)).
Local Abbreviation square_down := (LogCheck.square_down P).
Local Abbreviation exp_lower := (LogCheck.exp_lower P M).
Local Abbreviation exp_lower_fast := (LogCheck.exp_lower_fast P M).
Local Abbreviation ln_upper_ok := (LogCheck.ln_upper_ok P M).
Local Abbreviation ln_lower_ok := (LogCheck.ln_lower_ok P M).
Local Abbreviation entry_ok := (LogCheck.entry_ok P).
Local Abbreviation table_ok := (LogCheck.table_ok P M).

Lemma K_pos : 0 < K.
Proof. apply IZR_lt. apply Z.pow_pos_nonneg; lia. Qed.

Lemma IZR_div_le (a d : Z) : (0 < d)%Z -> IZR (a / d) <= IZR a / IZR d.
Proof.
  intros Hd. assert (Hd' : 0 < IZR d) by (apply IZR_lt; exact Hd).
  apply Rmult_le_reg_r with (IZR d); [exact Hd'|].
  unfold Rdiv. rewrite Rmult_assoc, Rinv_l, Rmult_1_r by lra.
  rewrite <- mult_IZR. apply IZR_le. rewrite Z.mul_comm. apply Z.mul_div_le. exact Hd.
Qed.

Lemma shiftr_P (a : Z) : Z.shiftr a P = (a / 2 ^ P)%Z.
Proof. apply Z.shiftr_div_pow2. lia. Qed.

(** [m] squarings rounded down stay below [exp y] squared [m] times. *)
Lemma square_down_sound (m : nat) :
  forall (a : Z) (y : R),
  (0 <= a)%Z -> IZR a / K <= exp y ->
  IZR (square_down m a) / K <= exp (y * 2 ^ m).
Proof.
  induction m as [|m IH]; intros a y Ha Hle.
  - simpl. rewrite Rmult_1_r. exact Hle.
  - cbn [square_down]. rewrite shiftr_P.
    replace (y * 2 ^ S m) with ((y + y) * 2 ^ m) by (simpl; ring).
    pose proof K_pos as HK.
    assert (H2P : (0 < 2 ^ P)%Z) by (apply Z.pow_pos_nonneg; lia).
    apply IH.
    + apply Z.div_pos; [nia | exact H2P].
    + rewrite exp_plus.
      assert (H0 : 0 <= IZR a / K).
      { apply Rmult_le_pos; [apply IZR_le; exact Ha | left; apply Rinv_0_lt_compat; exact HK]. }
      apply Rle_trans with (IZR a / K * (IZR a / K)).
      * apply Rmult_le_reg_r with K; [exact HK|].
        replace (IZR a / K * (IZR a / K) * K) with (IZR (a * a) / K) by (rewrite mult_IZR; field; lra).
        unfold Rdiv at 1. rewrite Rmult_assoc, Rinv_l, Rmult_1_r by lra.
        apply IZR_div_le. exact H2P.
      * apply Rmult_le_compat; assumption.
Qed.

(** [exp_lower xi / 2^P <= exp (xi / 2^P)]. *)
Lemma exp_lower_sound (xi : Z) :
  (0 <= 2 ^ P + Z.shiftr xi (Z.of_nat M))%Z ->
  IZR (exp_lower xi) / K <= exp (IZR xi / K).
Proof.
  intros H0. unfold exp_lower.
  rewrite Z.shiftr_div_pow2 in * by lia.
  pose proof K_pos as HK.
  assert (HM : (0 < 2 ^ Z.of_nat M)%Z) by (apply Z.pow_pos_nonneg; lia).
  assert (HM' : 0 < IZR (2 ^ Z.of_nat M)) by (apply IZR_lt; exact HM).
  assert (H2 : 2 ^ M <> 0) by (apply pow_nonzero; lra).
  replace (IZR xi / K) with (IZR xi / K / 2 ^ M * 2 ^ M)
    by (field; repeat split; try exact H2; lra).
  apply square_down_sound; [exact H0|].
  eapply Rle_trans; [|apply exp_ineq1_le].
  rewrite plus_IZR.
  replace ((K + IZR (xi / 2 ^ Z.of_nat M)) / K) with (1 + IZR (xi / 2 ^ Z.of_nat M) / K) by (field; lra).
  apply Rplus_le_compat_l.
  apply Rmult_le_reg_r with K; [exact HK|].
  unfold Rdiv at 1. rewrite Rmult_assoc, Rinv_l, Rmult_1_r by lra.
  eapply Rle_trans; [apply IZR_div_le; exact HM|].
  rewrite <- pow_IZR.
  right. field; repeat split; try exact H2; lra.
Qed.

(** The machine-word squarings compute [square_down]. *)
Lemma square_down_fast_spec (p : bigZ) (m : nat) :
  forall a : bigZ,
  BigZ.to_Z (LogCheck.square_down_fast p m a)
  = LogCheck.square_down (BigZ.to_Z p) m (BigZ.to_Z a).
Proof.
  induction m as [|m IH]; intros a; [reflexivity|].
  cbn [LogCheck.square_down_fast LogCheck.square_down].
  rewrite IH, BigZ.spec_shiftr, BigZ.spec_square. reflexivity.
Qed.

Lemma exp_lower_fast_spec (xi : Z) : exp_lower_fast xi = exp_lower xi.
Proof.
  unfold LogCheck.exp_lower_fast, LogCheck.exp_lower.
  rewrite square_down_fast_spec, !BigZ.spec_of_Z. reflexivity.
Qed.

Lemma exp_le_inv (x y : R) : exp x <= exp y -> x <= y.
Proof.
  intros H. apply Rnot_lt_le. intros Hlt.
  apply exp_increasing in Hlt. lra.
Qed.

(** A checked upper bound of [ln N] is one. *)
Lemma ln_upper_sound (N ui : Z) :
  (0 < N)%Z -> ln_upper_ok N ui = true -> ln (IZR N) <= IZR ui / K.
Proof.
  intros HN Hok. unfold ln_upper_ok in Hok. rewrite exp_lower_fast_spec in Hok.
  apply andb_prop in Hok. destruct Hok as [H0 H1].
  apply Z.leb_le in H0. apply Z.leb_le in H1.
  pose proof K_pos as HK.
  pose proof (exp_lower_sound ui H0) as Hs.
  apply exp_le_inv. rewrite exp_ln by (apply IZR_lt; exact HN).
  eapply Rle_trans; [|exact Hs].
  apply Rmult_le_reg_r with K; [exact HK|].
  unfold Rdiv. rewrite Rmult_assoc, Rinv_l, Rmult_1_r by lra.
  rewrite <- mult_IZR. apply IZR_le. exact H1.
Qed.

(** A checked lower bound of [ln N] is one. *)
Lemma ln_lower_sound (N li : Z) :
  (0 < N)%Z -> ln_lower_ok N li = true -> IZR li / K <= ln (IZR N).
Proof.
  intros HN Hok. unfold ln_lower_ok in Hok. rewrite exp_lower_fast_spec in Hok.
  apply andb_prop in Hok. destruct Hok as [H0 H1].
  apply Z.leb_le in H0. apply Z.leb_le in H1.
  pose proof K_pos as HK.
  pose proof (exp_lower_sound (- li) H0) as Hs.
  assert (HN' : 0 < IZR N) by (apply IZR_lt; exact HN).
  apply exp_le_inv. rewrite exp_ln by exact HN'.
  set (l := IZR li / K) in *.
  replace (IZR (- li) / K) with (- l) in Hs
    by (unfold l; rewrite opp_IZR; field; lra).
  assert (H1' : 1 <= IZR N * (IZR (exp_lower (- li)) / K)).
  { apply Rmult_le_reg_r with K; [exact HK|].
    replace (IZR N * (IZR (exp_lower (- li)) / K) * K)
      with (IZR (N * exp_lower (- li))) by (rewrite mult_IZR; field; lra).
    rewrite Rmult_1_l. apply IZR_le. exact H1. }
  assert (H2 : 1 <= IZR N * exp (- l)).
  { eapply Rle_trans; [exact H1'|]. apply Rmult_le_compat_l; lra. }
  pose proof (exp_pos l) as Hel.
  replace (IZR N) with (IZR N * exp (- l) * exp l).
  2:{ rewrite Rmult_assoc, <- exp_plus. replace (- l + l) with 0 by ring.
      rewrite exp_0. ring. }
  rewrite <- (Rmult_1_l (exp l)) at 1.
  apply Rmult_le_compat_r; lra.
Qed.

Lemma IZR_pow2 (n : Z) : (0 <= n)%Z -> IZR (2 ^ n) = powerRZ 2 n.
Proof.
  intros Hn. destruct n as [|p|p]; [reflexivity| |lia].
  simpl powerRZ. rewrite <- (positive_nat_Z p) at 1.
  rewrite <- pow_IZR. reflexivity.
Qed.

(** The fixed-point image of [m * 2^e]. *)
Lemma fixed_point_value (m : Z) (e : Z) :
  (0 <= P + e)%Z -> IZR (m * 2 ^ (P + e)) / K = IZR m * powerRZ 2 e.
Proof.
  intros H. rewrite mult_IZR, !IZR_pow2 by lia.
  rewrite powerRZ_add by lra.
  assert (powerRZ 2 P <> 0) by (apply powerRZ_NOR; lra).
  field. assumption.
Qed.

Lemma half_ulp_value (e : Z) :
  (1 <= P + e)%Z -> IZR (2 ^ (P + e - 1)) / K = powerRZ 2 e / 2.
Proof.
  intros H. replace (P + e - 1)%Z with (P + (e - 1))%Z by lia.
  pose proof (fixed_point_value 1 (e - 1) ltac:(lia)) as Hf.
  rewrite Z.mul_1_l, Rmult_1_l in Hf. rewrite Hf.
  replace (e - 1)%Z with (e + - (1))%Z by lia.
  rewrite powerRZ_add by lra. rewrite powerRZ_neg'. simpl. field.
Qed.

(** A checked entry is within half an ulp of the real it stands for. *)
Lemma entry_ok_sound (sl su : Z) (x : R) (f : spec_float) :
  IZR sl / K <= x -> x <= IZR su / K -> entry_ok sl su f = true ->
  Rabs (SF2R f - x) <= SFulp f / 2.
Proof.
  intros Hl Hu Hok. pose proof K_pos as HK.
  destruct f as [s|s| |s m e]; try discriminate.
  - simpl in Hok. apply andb_prop in Hok. destruct Hok as [H0 H1].
    apply Z.leb_le in H0. apply Z.leb_le in H1.
    apply IZR_le in H0. apply IZR_le in H1.
    assert (0 <= IZR sl / K) by (apply Rmult_le_pos; [lra | left; apply Rinv_0_lt_compat; lra]).
    assert (IZR su / K <= 0).
    { apply Rmult_le_reg_r with K; [exact HK|]. unfold Rdiv.
      rewrite Rmult_assoc, Rinv_l, Rmult_1_r by lra. lra. }
    simpl. replace x with 0 by lra. rewrite Rminus_0_r, Rabs_R0. lra.
  - destruct s; [discriminate|]. cbn [entry_ok] in Hok.
    apply andb_prop in Hok. destruct Hok as [Hok Hup].
    apply andb_prop in Hok. destruct Hok as [He Hlo].
    apply Z.leb_le in He. apply Z.leb_le in Hlo. apply Z.leb_le in Hup.
    apply IZR_le in Hlo. apply IZR_le in Hup.
    rewrite minus_IZR in Hlo. rewrite plus_IZR in Hup.
    assert (Hlo' : IZR (Z.pos m * 2 ^ (P + e)) / K - IZR (2 ^ (P + e - 1)) / K <= IZR sl / K).
    { apply Rmult_le_reg_r with K; [exact HK|]. unfold Rdiv.
      rewrite Rmult_minus_distr_r, !Rmult_assoc, !Rinv_l, !Rmult_1_r by lra. exact Hlo. }
    assert (Hup' : IZR su / K <= IZR (Z.pos m * 2 ^ (P + e)) / K + IZR (2 ^ (P + e - 1)) / K).
    { apply Rmult_le_reg_r with K; [exact HK|]. unfold Rdiv.
      rewrite Rmult_plus_distr_r, !Rmult_assoc, !Rinv_l, !Rmult_1_r by lra. exact Hup. }
    rewrite fixed_point_value in Hlo', Hup' by lia.
    rewrite half_ulp_value in Hlo', Hup' by lia.
    cbn [SF2R SFulp]. apply Rabs_le. lra.
Qed.

Lemma ln_fact_S (i : nat) :
  ln (INR (fact (S i))) = ln (IZR (Z.of_nat (S i))) + ln (INR (fact i)).
Proof.
  change (fact (S i)) with (S i * fact i)%nat.
  rewrite mult_INR, <- INR_IZR_INZ.
  apply ln_mult; [apply lt_0_INR; lia | apply INR_fact_lt_0].
Qed.

(** A checked table holds [ln (i!)], [ln ((i+1)!)], ... to half an ulp. *)
Lemma table_ok_sound (tbl : list float) :
  forall (i : nat) (sl su : Z),
  IZR sl / K <= ln (INR (fact i)) -> ln (INR (fact i)) <= IZR su / K ->
  table_ok i sl su tbl = true ->
  forall (j : nat) (v : float),
  nth_error tbl j = Some v ->
  Rabs (F2R v - ln (INR (fact (i + j)))) <= ulp v / 2.
Proof.
  induction tbl as [|w tbl IH]; intros i sl su Hl Hu Hok j v Hj.
  - destruct j; discriminate.
  - cbn [table_ok] in Hok. apply andb_prop in Hok. destruct Hok as [Hw Hrest].
    cbv zeta in Hrest.
    apply andb_prop in Hrest. destruct Hrest as [Hchk Hrest].
    apply andb_prop in Hchk. destruct Hchk as [Hlo Hup].
    destruct j as [|j].
    + inversion Hj; subst. rewrite Nat.add_0_r.
      apply (entry_ok_sound sl su); assumption.
    + replace (i + S j)%nat with (S i + j)%nat by lia.
      assert (Hpos : (0 < Z.of_nat (S i))%Z) by lia.
      apply ln_lower_sound in Hlo; [|exact Hpos].
      apply ln_upper_sound in Hup; [|exact Hpos].
      pose proof K_pos as HK.
      eapply IH; [| |exact Hrest|exact Hj].
      * rewrite ln_fact_S, plus_IZR. unfold Rdiv in *.
        rewrite Rmult_plus_distr_r. lra.
      * rewrite ln_fact_S, plus_IZR. unfold Rdiv in *.
        rewrite Rmult_plus_distr_r. lra.
Qed.

(** The checked gap between the literal of [pgm_lgamma] and [1022 ln 2]. *)
Lemma floor_constant_sound :
  (43 <= P)%Z -> LogCheck.floor_constant_ok P M = true ->
  IZR 6231120809262131 * powerRZ 2 (-43) - 1022 * ln 2 > 1 / 1000000.
Proof.
  intros HP Hok. unfold LogCheck.floor_constant_ok in Hok. cbv zeta in Hok.
  apply andb_prop in Hok. destruct Hok as [Hup Hc].
  apply ln_upper_sound in Hup; [|lia].
  apply Z.leb_le in Hc. apply IZR_le in Hc.
  rewrite !plus_IZR, mult_IZR in Hc.
  pose proof K_pos as HK.
  set (u := snd (ln_interval P 2)) in *.
  assert (Hfloor : K < 1000000 * (IZR (2 ^ P / 1000000) + 1)).
  { rewrite <- (plus_IZR _ 1), <- mult_IZR. apply IZR_lt.
    pose proof (Z.mul_succ_div_gt (2 ^ P) 1000000 ltac:(lia)) as H. lia. }
  rewrite <- (fixed_point_value 6231120809262131 (-43)) by lia.
  assert (Hq : (IZR (6231120809262131 * 2 ^ (P + -43)) - 1022 * IZR u) / K
               >= (IZR (2 ^ P / 1000000) + 1) / K).
  { apply Rle_ge. apply Rmult_le_compat_r; [left; apply Rinv_0_lt_compat; exact HK|]. lra. }
  assert (Hr : (IZR (2 ^ P / 1000000) + 1) / K > 1 / 1000000).
  { apply Rlt_gt. apply Rmult_lt_reg_r with K; [exact HK|].
    unfold Rdiv at 2. rewrite Rmult_assoc, Rinv_l, Rmult_1_r by lra. lra. }
  unfold Rdiv in *. lra.
Qed.

End Soundness.

(** The table of [pgm_lgamma] passes the check at 200 fractional bits and
    96 squarings. *)
Lemma logfactorial_checked : LogCheck.table_ok 200 96 0 0 0 logfactorial = true.
Proof. vm_cast_no_check (eq_refl true). Qed.

(** Entry [j] of [logfactorial] is [ln (j!)] to half an ulp. *)
Lemma logfactorial_accuracy (j : nat) (v : float) :
  nth_error logfactorial j = Some v ->
  Rabs (F2R v - ln (INR (fact j))) <= ulp v / 2.
Proof.
  intros H.
  apply (table_ok_sound 200 ltac:(lia) 96 logfactorial 0 0 0); try exact H.
  - simpl. rewrite ln_1. lra.
  - simpl. rewrite ln_1. lra.
  - exact logfactorial_checked.
Qed.

Lemma floor_constant_checked : LogCheck.floor_constant_ok 200 96 = true.
Proof. vm_cast_no_check (eq_refl true). Qed.

(** [DBL_MIN] is [2^-1022]. *)
Lemma ln_DBL_MIN : - ln (F2R DBL_MIN) = 1022 * ln 2.
Proof.
  unfold F2R.
  replace (Prim2SF DBL_MIN) with (S754_finite false 4503599627370496 (-1074))
    by (vm_compute; reflexivity).
  cbn [SF2R]. rewrite Rmult_1_l.
  change (Z.pos 4503599627370496) with (2 ^ 52)%Z.
  rewrite IZR_pow2 by lia. rewrite <- powerRZ_add by lra.
  change (52 + -1074)%Z with (- (1022))%Z.
  rewrite powerRZ_neg'.
  assert (H2 : 0 < powerRZ 2 1022) by (apply powerRZ_lt; lra).
  rewrite ln_Rinv by exact H2. rewrite Ropp_involutive.
  change (powerRZ 2 1022) with (2 ^ Pos.to_nat 1022).
  rewrite ln_pow by lra. rewrite INR_IZR_INZ, positive_nat_Z. reflexivity.
Qed.

(** 708.3964202663686 is not [-log(DBL_MIN)]: it is larger by more than
    [10^-6]. *)
Lemma floor_constant_off :
  F2R 708.3964202663686 - (- ln (F2R DBL_MIN)) > 1 / 1000000.
Proof.
  rewrite ln_DBL_MIN.
  unfold F2R at 1.
  replace (Prim2SF 708.3964202663686)
    with (S754_finite false 6231120809262131 (-43)) by (vm_compute; reflexivity).
  cbn [SF2R]. rewrite Rmult_1_l.
  apply (floor_constant_sound 200 ltac:(lia) 96 ltac:(lia) floor_constant_checked).
Qed.

End LogCheckFacts.

(** ** [pgm_lgamma] on the integers 1..126 and below [DBL_MIN] *)

Section LgammaFacts.

Local Open Scope float_scope.

Variable log : float -> float.

(** For [k] in 1..126 the first test of [pgm_lgamma] holds and the value is
    read from the table at [k - 1]. *)
Lemma pgm_lgamma_reads_table (i : Z) :
  (0 <= i < 126)%Z ->
  pgm_lgamma log (double_of_size_t (i + 1)) = array_read logfactorial i.
Proof.
  revert i. apply (Z_below_cases 126). simpl.
  repeat (constructor; [vm_compute; reflexivity|]).
  constructor.
Qed.

(** C8. For every integer [k] with [1 <= k <= 126], [pgm_lgamma k] returns
    the entry [k - 1] of the table [logfactorial], and that entry is
    [log ((k-1)!)] to machine precision: the two differ by at most half a
    unit in the last place of the entry. *)
Theorem pgm_lgamma_log_factorial (k : Z) :
  (1 <= k <= 126)%Z ->
  exists v : float,
    pgm_lgamma log (double_of_size_t k) = Some v
    /\ array_read logfactorial (k - 1) = Some v
    /\ (Rabs (F2R v - ln (INR (fact (Z.to_nat (k - 1))))) <= ulp v / 2)%R.
Proof.
  intros Hk.
  assert (Hread := pgm_lgamma_reads_table (k - 1) ltac:(lia)).
  replace (k - 1 + 1)%Z with k in Hread by lia.
  assert (Hlen : length logfactorial = 126%nat) by reflexivity.
  assert (Harr : array_read logfactorial (k - 1)
                 = nth_error logfactorial (Z.to_nat (k - 1))).
  { unfold array_read. rewrite Hlen.
    replace (k - 1 <? Z.of_nat 126)%Z with true
      by (symmetry; apply Z.ltb_lt; lia).
    reflexivity. }
  destruct (nth_error logfactorial (Z.to_nat (k - 1))) as [v|] eqn:E.
  - exists v. split; [|split].
    + rewrite Hread. exact Harr.
    + exact Harr.
    + apply LogCheckFacts.logfactorial_accuracy. exact E.
  - apply nth_error_None in E. rewrite Hlen in E. lia.
Qed.

(** C9. For every [z] with [0 < z <= DBL_MIN], [pgm_lgamma z] returns the
    literal 708.3964202663686.  The comment beside it reads [-log(DBL_MIN)];
    the literal is greater than [-log(DBL_MIN) = 1022 log 2] by more than
    [10^-6]. *)
Theorem pgm_lgamma_floor_constant (z : float) :
  (0 <? z) = true -> (z <=? DBL_MIN) = true ->
  pgm_lgamma log z = Some 708.3964202663686
  /\ (F2R 708.3964202663686 - (- ln (F2R DBL_MIN)) > 1 / 1000000)%R.
Proof.
  intros Hpos Hle. split.
  - apply pgm_lgamma_below_DBL_MIN; assumption.
  - exact LogCheckFacts.floor_constant_off.
Qed.

End LgammaFacts.

(** ** Instances at concrete inputs *)

Section Instances.

Local Open Scope float_scope.

(** C2. [pgm_gammaq(0.5, 0)] is NaN, whatever [exp] and [kf_gammaq] are: the
    half-integer path ends in [... * sum / sqrt_x] with [sum] and [sqrt_x]
    both zero. *)
Theorem pgm_gammaq_half_at_zero_is_nan
    (exp : float -> float) (kf_gammaq : float -> float -> float) :
  pgm_gammaq exp kf_gammaq 0.5 0 = Some nan.
Proof.
  apply (pgm_gammaq_half_integers_at_zero exp kf_gammaq 0). lia.
Qed.

(** C3. For all [x], [mu] and [lambda], [inverse_gaussian_cdf] is
    [0.5*(erfc(a-b) + c*erfc(a+b)*c)] with [a = sqrt(0.5*lambda/x)],
    [b = a*(x/mu)] and [c = exp(lambda/mu)]: the factor [c] multiplies the
    second term twice.  At [x = mu = 1], [lambda = 0.02] the value is not
    the one with the factor once. *)
Theorem inverse_gaussian_cdf_factor_twice :
  (forall exp x mu lambda,
      inverse_gaussian_cdf exp x mu lambda
      = inverse_gaussian_cdf_formula exp x mu lambda)
  /\ inverse_gaussian_cdf Libm.exp_at 1 1 0.02 = 0.9045097599507903
  /\ inverse_gaussian_cdf_single_factor Libm.exp_at 1 1 0.02 = 0.8964999300433987.
Proof.
  split; [exact inverse_gaussian_cdf_is_formula|].
  split; vm_compute; reflexivity.
Qed.

(** The hypotheses of C7 hold at [n = 3], on calls that return.  With
    [z == 0] the three runs of [random_jacobi_0] use up eleven of the twelve
    recorded draws, one run after the other, each returns [x = 2/pi], and
    the call returns [0.25 * (0 + x + x + x)] with the last draw left; with
    [z = 1] the three runs of [random_jacobi] use up nine of the ten
    recorded draws and the call returns the same value.  The values of
    [exp] and [log] that these runs use are those of the tables. *)
Lemma random_polyagamma_devroye_three_components :
  (1 <= 3 < SIZE_MAX_plus_1)%Z /\ (3 <= Z.of_nat 3)%Z
  /\ component_draws Replay.tape (Z.to_nat 3)
       (devroye_component LibmAtT.exp_at LibmAtT.log_at Replay.tape
          Replay.next Replay.next Replay.next Replay.next_wald 4 0)
       (devroye_start_config LibmAtT.exp_at zero_config 0)
       [0.75; 0; 0; 0.25; 0; 0; 0; 0.125; 0; 0; 0; 0.5]
     = Some (([0.63661977236758138; 0.63661977236758138; 0.63661977236758138],
              Config 0 0 0 0 0.63661977236758138 (-0.45158270528945482)), [0.5])
  /\ replay_polyagamma_devroye LibmAtT.exp_at LibmAtT.log_at 4 3 zero_config 3 0
       [0.75; 0; 0; 0.25; 0; 0; 0; 0.125; 0; 0; 0; 0.5]
     = Some (0.47746482927568601, [0.5])
  /\ 0.47746482927568601
     = 0.25 * (0 + 0.63661977236758138 + 0.63661977236758138
               + 0.63661977236758138)
  /\ component_draws Replay.tape (Z.to_nat 3)
       (devroye_component LibmAtOne.exp_at LibmAtT.log_at Replay.tape
          Replay.next Replay.next Replay.next Replay.next_wald 4 1)
       (devroye_start_config LibmAtOne.exp_at zero_config 1)
       [0.75; 0; 0; 0.75; 0; 0; 0.75; 0; 0; 0.125]
     = Some (([0.63661977236758138; 0.63661977236758138; 0.63661977236758138],
              Config 1 1.7337005501361691 (-0.5) 0.53670230181721423
                0.63661977236758138 (-0.45158270528945482)), [0.125])
  /\ replay_polyagamma_devroye LibmAtOne.exp_at LibmAtT.log_at 4 3 zero_config 3 1
       [0.75; 0; 0; 0.75; 0; 0; 0.75; 0; 0; 0.125]
     = Some (0.47746482927568601, [0.125]).
Proof.
  assert (H1 : (1 <= 3 < SIZE_MAX_plus_1)%Z) by (unfold SIZE_MAX_plus_1; lia).
  assert (H2 : (3 <= Z.of_nat 3)%Z) by lia.
  assert (D0 : component_draws Replay.tape (Z.to_nat 3)
       (devroye_component LibmAtT.exp_at LibmAtT.log_at Replay.tape
          Replay.next Replay.next Replay.next Replay.next_wald 4 0)
       (devroye_start_config LibmAtT.exp_at zero_config 0)
       [0.75; 0; 0; 0.25; 0; 0; 0; 0.125; 0; 0; 0; 0.5]
     = Some (([0.63661977236758138; 0.63661977236758138; 0.63661977236758138],
              Config 0 0 0 0 0.63661977236758138 (-0.45158270528945482)), [0.5]))
    by (vm_compute; reflexivity).
  assert (D1 : component_draws Replay.tape (Z.to_nat 3)
       (devroye_component LibmAtOne.exp_at LibmAtT.log_at Replay.tape
          Replay.next Replay.next Replay.next Replay.next_wald 4 1)
       (devroye_start_config LibmAtOne.exp_at zero_config 1)
       [0.75; 0; 0; 0.75; 0; 0; 0.75; 0; 0; 0.125]
     = Some (([0.63661977236758138; 0.63661977236758138; 0.63661977236758138],
              Config 1 1.7337005501361691 (-0.5) 0.53670230181721423
                0.63661977236758138 (-0.45158270528945482)), [0.125]))
    by (vm_compute; reflexivity).
  split; [exact H1|]. split; [exact H2|]. split; [exact D0|].
  split.
  { exact (proj2 (proj2 (random_polyagamma_devroye_n_components
             LibmAtT.exp_at LibmAtT.log_at Replay.tape Replay.next Replay.next
             Replay.next Replay.next_wald 4 3 zero_config 3 0
             [0.75; 0; 0; 0.25; 0; 0; 0; 0.125; 0; 0; 0; 0.5] H1 H2)) _ _ _ D0). }
  split; [reflexivity|]. split; [exact D1|].
  exact (proj2 (proj2 (random_polyagamma_devroye_n_components
           LibmAtOne.exp_at LibmAtT.log_at Replay.tape Replay.next Replay.next
           Replay.next Replay.next_wald 4 3 zero_config 3 1
           [0.75; 0; 0; 0.75; 0; 0; 0.75; 0; 0; 0.125] H1 H2)) _ _ _ D1).
Defined.

(** The hypothesis of C8 holds at [k = 5]: [pgm_lgamma 5] is [log (4!)]. *)
Lemma pgm_lgamma_log_factorial_at_5 :
  (1 <= 5 <= 126)%Z
  /\ exists v : float,
       pgm_lgamma Libm.log_at (double_of_size_t 5) = Some v
       /\ array_read logfactorial (5 - 1) = Some v
       /\ (Rabs (F2R v - ln (INR (fact (Z.to_nat (5 - 1))))) <= ulp v / 2)%R.
Proof.
  assert (H : (1 <= 5 <= 126)%Z) by lia.
  split; [exact H|].
  exact (pgm_lgamma_log_factorial Libm.log_at 5 H).
Defined.

(** The hypotheses of C9 hold at [z = DBL_MIN]. *)
Lemma pgm_lgamma_floor_constant_at_DBL_MIN :
  (0 <? DBL_MIN) = true /\ (DBL_MIN <=? DBL_MIN) = true
  /\ pgm_lgamma Libm.log_at DBL_MIN = Some 708.3964202663686
  /\ (F2R 708.3964202663686 - (- ln (F2R DBL_MIN)) > 1 / 1000000)%R.
Proof.
  assert (H1 : (0 <? DBL_MIN) = true) by reflexivity.
  assert (H2 : (DBL_MIN <=? DBL_MIN) = true) by reflexivity.
  split; [exact H1|]. split; [exact H2|].
  exact (pgm_lgamma_floor_constant Libm.log_at DBL_MIN H1 H2).
Defined.

(** On the integer path [pgm_gammaq(5, 0)] is 1. *)
Lemma pgm_gammaq_integers_at_zero_at_5 :
  (0 <= 5 < 30)%Z /\ Libm.exp_at (- 0) = 1
  /\ pgm_gammaq Libm.exp_at (fun _ _ => nan) (double_of_size_t 5) 0 = Some 1.
Proof.
  assert (H1 : (0 <= 5 < 30)%Z) by lia.
  assert (H2 : Libm.exp_at (- 0) = 1) by reflexivity.
  split; [exact H1|]. split; [exact H2|].
  exact (pgm_gammaq_integers_at_zero Libm.exp_at (fun _ _ => nan) 5 H1 H2).
Defined.

(** A run of the branch [t >= mu]: the draw 2 is rejected, 0.25 returned. *)
Lemma right_bounded_ig_wald_below_run :
  right_bounded_ig_wald Replay.tape Replay.next_wald 5 0.5 1 1 [2; 0.25]
    = Some (0.25, [])
  /\ (0.25 <? 1) || is_nan 0.25 || is_nan 1 = true.
Proof.
  assert (H : right_bounded_ig_wald Replay.tape Replay.next_wald 5 0.5 1 1
                [2; 0.25] = Some (0.25, [])) by reflexivity.
  split; [exact H|].
  exact (right_bounded_ig_wald_below Replay.tape Replay.next_wald 5 0.5 1 1
           [2; 0.25] [] 0.25 H).
Defined.

End Instances.

(** ** The order of binary64 *)

Module FloatOrder.

Local Open Scope float_scope.

Lemma digits2_pos_bounds (m : positive) :
  (2 ^ (Z.pos (digits2_pos m) - 1) <= Z.pos m < 2 ^ Z.pos (digits2_pos m))%Z.
Proof.
  induction m as [m IH|m IH|]; cbn [digits2_pos].
  - rewrite Pos2Z.inj_succ.
    replace (Z.succ (Z.pos (digits2_pos m)) - 1)%Z
      with (Z.succ (Z.pos (digits2_pos m) - 1))%Z by lia.
    rewrite !Z.pow_succ_r by lia. lia.
  - rewrite Pos2Z.inj_succ.
    replace (Z.succ (Z.pos (digits2_pos m)) - 1)%Z
      with (Z.succ (Z.pos (digits2_pos m) - 1))%Z by lia.
    rewrite !Z.pow_succ_r by lia. lia.
  - cbn. lia.
Qed.

(** The mantissa of a finite double is below 2^53, and at least 2^52 unless
    the exponent is the least one. *)
Lemma bounded_shape (m : positive) (e : Z) :
  SpecFloat.bounded prec emax m e = true ->
  (Z.pos m < 2 ^ 53 /\ -1074 <= e <= 971
   /\ (-1074 < e -> 2 ^ 52 <= Z.pos m))%Z.
Proof.
  unfold SpecFloat.bounded, canonical_mantissa, fexp, SpecFloat.emin, prec, emax.
  intros H. apply andb_prop in H. destruct H as [H1 H2].
  apply Z.eqb_eq in H1. apply Z.leb_le in H2.
  pose proof (digits2_pos_bounds m) as [Hlo Hhi].
  assert (Hd : (Z.pos (digits2_pos m) <= 53)%Z) by lia.
  repeat split; try lia.
  - eapply Z.lt_le_trans; [exact Hhi|]. apply Z.pow_le_mono_r; lia.
  - intros He. assert (Hd' : Z.pos (digits2_pos m) = 53%Z) by lia.
    rewrite Hd' in Hlo. exact Hlo.
Qed.

Lemma finite_shape (z : float) s m e :
  Prim2SF z = S754_finite s m e ->
  (Z.pos m < 2 ^ 53 /\ -1074 <= e <= 971
   /\ (-1074 < e -> 2 ^ 52 <= Z.pos m))%Z.
Proof.
  intros H. pose proof (Prim2SF_valid z) as V. rewrite H in V.
  apply bounded_shape. exact V.
Qed.

(** Two finite doubles of the same sign compare by exponent, then mantissa. *)
Lemma SFltb_positive (m1 m2 : positive) (e1 e2 : Z) :
  SFltb (S754_finite false m1 e1) (S754_finite false m2 e2)
  = ((e1 <? e2) || ((e1 =? e2) && (Z.pos m1 <? Z.pos m2)))%Z.
Proof.
  rewrite Z.eqb_compare. unfold SFltb, SFcompare, Z.ltb.
  change (Z.pos m1 ?= Z.pos m2)%Z with (Pos.compare_cont Eq m1 m2).
  destruct (e1 ?= e2)%Z; cbn [orb andb]; reflexivity.
Qed.

Lemma SFltb_negative (m1 m2 : positive) (e1 e2 : Z) :
  SFltb (S754_finite true m1 e1) (S754_finite true m2 e2)
  = ((e2 <? e1) || ((e1 =? e2) && (Z.pos m2 <? Z.pos m1)))%Z.
Proof.
  rewrite Z.eqb_compare. unfold SFltb, SFcompare, Z.ltb.
  rewrite (Z.compare_antisym e1 e2).
  change (Z.pos m2 ?= Z.pos m1)%Z with (m2 ?= m1)%positive.
  rewrite (Pos.compare_antisym m1 m2).
  change (Pos.compare_cont Eq m1 m2) with (m1 ?= m2)%positive.
  destruct (e1 ?= e2)%Z; cbn [orb andb CompOpp]; reflexivity.
Qed.

Lemma SFleb_positive (m1 m2 : positive) (e1 e2 : Z) :
  SFleb (S754_finite false m1 e1) (S754_finite false m2 e2)
  = ((e1 <? e2) || ((e1 =? e2) && (Z.pos m1 <=? Z.pos m2)))%Z.
Proof.
  rewrite Z.eqb_compare. unfold SFleb, SFcompare, Z.ltb, Z.leb.
  change (Z.pos m1 ?= Z.pos m2)%Z with (Pos.compare_cont Eq m1 m2).
  destruct (e1 ?= e2)%Z; cbn [orb andb]; reflexivity.
Qed.

Lemma SFleb_negative (m1 m2 : positive) (e1 e2 : Z) :
  SFleb (S754_finite true m1 e1) (S754_finite true m2 e2)
  = ((e2 <? e1) || ((e1 =? e2) && (Z.pos m2 <=? Z.pos m1)))%Z.
Proof.
  rewrite Z.eqb_compare. unfold SFleb, SFcompare, Z.ltb, Z.leb.
  rewrite (Z.compare_antisym e1 e2).
  change (Z.pos m2 ?= Z.pos m1)%Z with (m2 ?= m1)%positive.
  rewrite (Pos.compare_antisym m1 m2).
  change (Pos.compare_cont Eq m1 m2) with (m1 ?= m2)%positive.
  destruct (e1 ?= e2)%Z; cbn [orb andb CompOpp]; reflexivity.
Qed.

Ltac by_exponent_and_mantissa :=
  let H1 := fresh in
  let H2 := fresh in
  intros H1 H2; apply orb_true_iff in H1, H2; apply orb_true_iff;
  rewrite andb_true_iff, Z.eqb_eq, ?Z.ltb_lt, ?Z.leb_le in *; lia.

Lemma SFltb_trans (x y z : spec_float) :
  SFltb x y = true -> SFltb y z = true -> SFltb x z = true.
Proof.
  destruct x as [sx|sx| |sx mx ex], y as [sy|sy| |sy my ey],
    z as [sz|sz| |sz mz ez];
    try (destruct sx); try (destruct sy); try (destruct sz);
    try (intros; reflexivity); try (intros; discriminate);
    try (cbn; intros; discriminate).
  - rewrite !SFltb_negative. by_exponent_and_mantissa.
  - rewrite !SFltb_positive. by_exponent_and_mantissa.
Qed.

Lemma SFltb_leb_trans (x y z : spec_float) :
  SFltb x y = true -> SFleb y z = true -> SFltb x z = true.
Proof.
  destruct x as [sx|sx| |sx mx ex], y as [sy|sy| |sy my ey],
    z as [sz|sz| |sz mz ez];
    try (destruct sx); try (destruct sy); try (destruct sz);
    try (intros; reflexivity); try (intros; discriminate);
    try (cbn; intros; discriminate).
  - rewrite !SFltb_negative, SFleb_negative. by_exponent_and_mantissa.
  - rewrite !SFltb_positive, SFleb_positive. by_exponent_and_mantissa.
Qed.

Lemma ltb_trans (x y z : float) :
  (x <? y) = true -> (y <? z) = true -> (x <? z) = true.
Proof. rewrite !ltb_spec. apply SFltb_trans. Qed.

Lemma ltb_leb_trans (x y z : float) :
  (x <? y) = true -> (y <=? z) = true -> (x <? z) = true.
Proof. rewrite !ltb_spec, leb_spec. apply SFltb_leb_trans. Qed.

Lemma ltb_irrefl (x : float) : (x <? x) = false.
Proof.
  rewrite ltb_spec. unfold SFltb. rewrite SFcompare_refl.
  destruct (Prim2SF x); reflexivity.
Qed.

(** What is not below a bound is not below a smaller one. *)
Lemma not_ltb_smaller (x c d : float) :
  (c <? d) = true -> (x <? d) = false -> (x <? c) = false.
Proof.
  intros Hcd Hx. destruct (x <? c) eqn:E; [|reflexivity].
  rewrite (ltb_trans x c d E Hcd) in Hx. discriminate.
Qed.

(** What is not above a bound is not above a larger one. *)
Lemma not_gtb_larger (x c d : float) :
  (c <? d) = true -> (c <? x) = false -> (d <? x) = false.
Proof.
  intros Hcd Hx. destruct (d <? x) eqn:E; [|reflexivity].
  rewrite (ltb_trans c d x Hcd E) in Hx. discriminate.
Qed.

(** What is above a bound is not below a smaller one. *)
Lemma gtb_not_ltb (x c d : float) :
  (d <? x) = true -> (c <? d) = true -> (x <? c) = false.
Proof.
  intros Hd Hc. destruct (x <? c) eqn:E; [|reflexivity].
  pose proof (ltb_trans x c d E Hc) as H1.
  pose proof (ltb_trans x d x H1 Hd) as H2.
  rewrite ltb_irrefl in H2. discriminate.
Qed.

(** [x >= y] closes [x < y]. *)
Lemma leb_not_ltb (x y : float) : (y <=? x) = true -> (x <? y) = false.
Proof.
  intros H. pose proof (not_geb_ltb x y) as E. unfold geb in E.
  rewrite H in E. cbn [negb] in E. symmetry in E.
  apply orb_false_iff in E. destruct E as [E _].
  apply orb_false_iff in E. destruct E as [E _]. exact E.
Qed.

Lemma opp_involutive (x : float) : - (- x) = x.
Proof.
  apply Prim2SF_inj. rewrite !opp_spec.
  destruct (Prim2SF x) as [s|s| |s m e]; cbn [SFopp]; rewrite ?negb_involutive;
    reflexivity.
Qed.

Lemma SFltb_opp (x y : spec_float) : SFltb (SFopp x) (SFopp y) = SFltb y x.
Proof.
  destruct x as [sx|sx| |sx mx ex], y as [sy|sy| |sy my ey]; cbn [SFopp];
    try (destruct sx); try (destruct sy); try reflexivity; cbn [negb].
  - rewrite SFltb_positive, SFltb_negative, (Z.eqb_sym ex ey). reflexivity.
  - rewrite SFltb_positive, SFltb_negative, (Z.eqb_sym ex ey). reflexivity.
Qed.

(** Negation reverses the order. *)
Lemma ltb_opp (x y : float) : (- x <? - y) = (y <? x).
Proof. rewrite !ltb_spec, !opp_spec. apply SFltb_opp. Qed.

(** The square of [-z] is the square of [z], bit for bit. *)
Lemma mul_opp_opp (z : float) : (- z) * (- z) = z * z.
Proof.
  apply Prim2SF_inj. rewrite !mul_spec, !opp_spec.
  destruct (Prim2SF z) as [s|s| |s m e]; try reflexivity;
    destruct s; reflexivity.
Qed.

(** A product with zero is a zero or NaN: neither below nor above 0. *)
Lemma mul_zero_sign (w : float) :
  (w * 0 <? 0) = false /\ (0 <? w * 0) = false
  /\ (w * 0 <=? 0) = negb (is_nan (w * 0)).
Proof.
  unfold is_nan. rewrite !ltb_spec, leb_spec, eqb_spec, mul_spec.
  change (Prim2SF 0) with (S754_zero false).
  destruct (Prim2SF w) as [s|s| |s m e]; try (destruct s); repeat split;
    reflexivity.
Qed.

(** [c * 0 * c] is [+0] unless [c] is infinite or NaN. *)
Lemma mul_zero_mul (c : float) : is_nan (c * 0) = false -> c * 0 * c = 0.
Proof.
  unfold is_nan. rewrite eqb_spec, !mul_spec. intros H.
  apply Prim2SF_inj. rewrite !mul_spec.
  change (Prim2SF 0) with (S754_zero false) in *.
  destruct (Prim2SF c) as [s|s| |s m e]; try discriminate H;
    destruct s; reflexivity.
Qed.

(** [sqrt(p / 0) * (0 / mu)] is NaN: the first factor is [+inf] or NaN, the
    second a zero or NaN. *)
Lemma sqrt_div_zero_mul (p mu : float) :
  PrimFloat.sqrt (p / 0) * (0 / mu) = nan.
Proof.
  apply Prim2SF_nan. rewrite mul_spec, sqrt_spec, !div_spec.
  change (Prim2SF 0) with (S754_zero false).
  destruct (Prim2SF p) as [s|s| |s m e], (Prim2SF mu) as [s'|s'| |s' m' e'];
    try (destruct s); try (destruct s'); reflexivity.
Qed.

Lemma sub_nan_r (a : float) : a - nan = nan.
Proof.
  apply Prim2SF_nan. rewrite sub_spec.
  change (Prim2SF nan) with S754_nan.
  destruct (Prim2SF a) as [s|s| |s m e]; reflexivity.
Qed.

Lemma add_nan_l (a : float) : nan + a = nan.
Proof.
  apply Prim2SF_nan. rewrite add_spec.
  change (Prim2SF nan) with S754_nan. reflexivity.
Qed.

Lemma eqb_zero_of_finite (z : float) s m e :
  Prim2SF z = S754_finite s m e -> (z =? 0) = false.
Proof.
  intros Hz. rewrite eqb_spec, Hz. destruct s; reflexivity.
Qed.

End FloatOrder.

Import FloatOrder.

(** ** The cast [(size_t)z] on the mantissa and exponent of [z] *)

Module CastFacts.
Local Open Scope Z_scope.

Lemma shiftl_below_2_64 (m : positive) (e : Z) :
  Z.pos m < 2 ^ 53 -> (-1074 < e -> 2 ^ 52 <= Z.pos m) ->
  (Z.shiftl (Z.pos m) e <? SIZE_MAX_plus_1)
  = (e <? 12) || ((e =? 12) && (Z.pos m <? 4503599627370496)).
Proof.
  intros Hhi Hlo. unfold SIZE_MAX_plus_1.
  change (2 ^ 53) with 9007199254740992 in Hhi.
  change (2 ^ 52) with 4503599627370496 in Hlo.
  destruct (Z.ltb_spec e 12) as [He|He]; cbn [orb].
  - apply Z.ltb_lt.
    destruct (Z.le_gt_cases 0 e) as [H0|H0].
    + rewrite Z.shiftl_mul_pow2 by exact H0.
      assert (Hp : 2 ^ e <= 2 ^ 11) by (apply Z.pow_le_mono_r; lia).
      assert (Hq : 0 < 2 ^ e) by (apply Z.pow_pos_nonneg; lia).
      change (2 ^ 11) with 2048 in Hp. change (2 ^ 64) with 18446744073709551616.
      nia.
    + rewrite Z.shiftl_div_pow2 by lia.
      assert (Hq : 0 < 2 ^ (- e)) by (apply Z.pow_pos_nonneg; lia).
      assert (Hd : Z.pos m / 2 ^ (- e) <= Z.pos m).
      { apply Z.div_le_upper_bound; [exact Hq|]. nia. }
      change (2 ^ 64) with 18446744073709551616. lia.
  - assert (Hm : 4503599627370496 <= Z.pos m) by (apply Hlo; lia).
    replace (Z.pos m <? 4503599627370496) with false
      by (symmetry; apply Z.ltb_ge; exact Hm).
    rewrite andb_false_r. apply Z.ltb_ge.
    rewrite Z.shiftl_mul_pow2 by lia.
    assert (Hp : 2 ^ 12 <= 2 ^ e) by (apply Z.pow_le_mono_r; lia).
    change (2 ^ 12) with 4096 in Hp. change (2 ^ 64) with 18446744073709551616.
    nia.
Qed.

Lemma shiftl_is_zero (m : positive) (e : Z) :
  Z.pos m < 2 ^ 53 -> (-1074 < e -> 2 ^ 52 <= Z.pos m) ->
  (Z.shiftl (Z.pos m) e =? 0)
  = (e <? -52) || ((-52 =? e) && (Z.pos m <? 4503599627370496)).
Proof.
  intros Hhi Hlo.
  change (2 ^ 53) with 9007199254740992 in Hhi.
  change (2 ^ 52) with 4503599627370496 in Hlo.
  destruct (Z.ltb_spec e (-52)) as [He|He]; cbn [orb].
  - apply Z.eqb_eq. rewrite Z.shiftl_div_pow2 by lia.
    apply Z.div_small. split; [lia|].
    assert (Hp : 2 ^ 53 <= 2 ^ (- e)) by (apply Z.pow_le_mono_r; lia).
    change (2 ^ 53) with 9007199254740992 in Hp. lia.
  - assert (Hm : 4503599627370496 <= Z.pos m) by (apply Hlo; lia).
    replace (Z.pos m <? 4503599627370496) with false
      by (symmetry; apply Z.ltb_ge; exact Hm).
    rewrite andb_false_r. apply Z.eqb_neq.
    destruct (Z.le_gt_cases 0 e) as [H0|H0].
    + rewrite Z.shiftl_mul_pow2 by exact H0.
      assert (Hq : 0 < 2 ^ e) by (apply Z.pow_pos_nonneg; lia). nia.
    + rewrite Z.shiftl_div_pow2 by lia.
      assert (Hp : 2 ^ (- e) <= 2 ^ 52) by (apply Z.pow_le_mono_r; lia).
      assert (Hq : 0 < 2 ^ (- e)) by (apply Z.pow_pos_nonneg; lia).
      change (2 ^ 52) with 4503599627370496 in Hp.
      assert (1 <= Z.pos m / 2 ^ (- e)); [|lia].
      apply Z.div_le_lower_bound; lia.
Qed.

Lemma shiftl_below_127 (m : positive) (e : Z) :
  Z.pos m < 2 ^ 53 ->
  (e <? -46) || ((e =? -46) && (Z.pos m <? 8936830510563328)) = true ->
  Z.shiftl (Z.pos m) e < 127.
Proof.
  intros Hhi H. change (2 ^ 53) with 9007199254740992 in Hhi.
  apply orb_true_iff in H. rewrite andb_true_iff, Z.eqb_eq, !Z.ltb_lt in H.
  assert (He : e <= -46) by lia.
  rewrite Z.shiftl_div_pow2 by lia.
  assert (Hq : 0 < 2 ^ (- e)) by (apply Z.pow_pos_nonneg; lia).
  apply Z.div_lt_upper_bound; [exact Hq|].
  destruct H as [H|[H1 H2]].
  - assert (Hp : 2 ^ 47 <= 2 ^ (- e)) by (apply Z.pow_le_mono_r; lia).
    change (2 ^ 47) with 140737488355328 in Hp. lia.
  - subst e. change (2 ^ (- -46)) with 70368744177664. lia.
Qed.

End CastFacts.

(** ** The special functions at the edges of their domains *)

Section SpecialFunctionEdges.

Local Open Scope float_scope.

Variables exp log : float -> float.
Variable kf_gammaq : float -> float -> float.

(** The cast [(size_t)z] is defined exactly for [-1 < z < 2^64]. *)
Lemma size_t_of_double_defined (z : float) :
  is_defined (size_t_of_double z) = (-1 <? z) && (z <? 18446744073709551616).
Proof.
  assert (H1 : Prim2SF (-1) = S754_finite true 4503599627370496 (-52))
    by (vm_compute; reflexivity).
  assert (H2 : Prim2SF 18446744073709551616 = S754_finite false 4503599627370496 12)
    by (vm_compute; reflexivity).
  rewrite !ltb_spec, H1, H2. unfold size_t_of_double.
  destruct (Prim2SF z) as [s|s| |s m e] eqn:Hz.
  - reflexivity.
  - destruct s; reflexivity.
  - reflexivity.
  - destruct (finite_shape z s m e Hz) as (Hhi & _ & Hlo).
    destruct s.
    + rewrite SFltb_negative. cbv zeta.
      rewrite (CastFacts.shiftl_is_zero m e Hhi Hlo).
      change (SFltb (S754_finite true m e) (S754_finite false 4503599627370496 12))
        with true.
      rewrite andb_true_r.
      destruct ((e <? -52)%Z || ((-52 =? e)%Z && (Z.pos m <? 4503599627370496)%Z));
        reflexivity.
    + rewrite SFltb_positive. cbv zeta.
      rewrite (CastFacts.shiftl_below_2_64 m e Hhi Hlo).
      change (SFltb (S754_finite true 4503599627370496 (-52)) (S754_finite false m e))
        with true.
      rewrite andb_true_l.
      destruct ((e <? 12)%Z || ((e =? 12)%Z && (Z.pos m <? 4503599627370496)%Z));
        reflexivity.
Qed.

(** The first test of [pgm_lgamma], by the value of the cast: at a zero it
    holds with [zz = 0]; elsewhere it holds only with [zz] in 1..126. *)
Lemma lookup_test (z : float) (zz : Z) :
  size_t_of_double z = Some zz ->
  ((z =? 0) = true /\ zz = 0%Z
   /\ (z <? 127) && (z =? double_of_size_t 0) = true)
  \/ ((z =? 0) = false
      /\ ((z <? 127) && (z =? double_of_size_t zz) = true -> (1 <= zz <= 126)%Z)).
Proof.
  assert (H0 : Prim2SF (double_of_size_t 0) = S754_zero false)
    by (vm_compute; reflexivity).
  assert (H127 : Prim2SF 127 = S754_finite false 8936830510563328 (-46))
    by (vm_compute; reflexivity).
  unfold size_t_of_double.
  destruct (Prim2SF z) as [s|s| |s m e] eqn:Hz; try discriminate.
  - intros H. inversion H; subst zz. left.
    rewrite ltb_spec, !eqb_spec, Hz, H0, H127.
    destruct s; repeat split; reflexivity.
  - intros H. right. split; [exact (eqb_zero_of_finite z s m e Hz)|].
    intros Hb. apply andb_prop in Hb. destruct Hb as [Hlt Heq].
    destruct (finite_shape z s m e Hz) as (Hhi & _ & _).
    destruct s.
    + cbv zeta in H. destruct (Z.shiftl (Z.pos m) e =? 0)%Z; [|discriminate].
      inversion H; subst zz. rewrite eqb_spec, Hz, H0 in Heq. discriminate.
    + cbv zeta in H.
      destruct (Z.shiftl (Z.pos m) e <? SIZE_MAX_plus_1)%Z; [|discriminate].
      inversion H as [Hzz]. rewrite Hzz.
      rewrite ltb_spec, Hz, H127, SFltb_positive in Hlt.
      pose proof (CastFacts.shiftl_below_127 m e Hhi Hlt) as Hup.
      rewrite Hzz in Hup.
      assert (Hnn : (0 <= zz)%Z)
        by (rewrite <- Hzz; apply Z.shiftl_nonneg; apply Pos2Z.is_nonneg).
      assert (Hne : zz <> 0%Z).
      { intros E. rewrite E in Heq. rewrite eqb_spec, Hz, H0 in Heq. discriminate. }
      clear - Hup Hnn Hne. lia.
Qed.

Lemma logfactorial_read (zz : Z) :
  (1 <= zz <= 126)%Z ->
  is_defined (array_read logfactorial (wrap64 (zz - 1))) = true.
Proof.
  intros Hzz. unfold wrap64, SIZE_MAX_plus_1.
  rewrite Z.mod_small by lia. unfold array_read.
  change (length logfactorial) with 126%nat.
  replace (zz - 1 <? Z.of_nat 126)%Z with true by (symmetry; apply Z.ltb_lt; lia).
  destruct (nth_error logfactorial (Z.to_nat (zz - 1))) eqn:E; [reflexivity|].
  apply nth_error_None in E. change (length logfactorial) with 126%nat in E. lia.
Qed.

(** X6. [pgm_lgamma z] has defined behaviour exactly for [-1 < z < 2^64]
    with [z != 0].  Outside that interval, and for an infinite or NaN [z], the
    cast [(size_t)z] that opens the function is undefined; at [z == 0] (either
    zero) the first test holds with [zz = 0] and the function reads
    [logfactorial[zz - 1]], the index wrapped to 2^64 - 1, past the end of
    the table.  Everywhere else a value is returned. *)
Theorem pgm_lgamma_defined_domain (z : float) :
  is_defined (pgm_lgamma log z)
  = (-1 <? z) && (z <? 18446744073709551616) && negb (z =? 0).
Proof.
  rewrite <- size_t_of_double_defined. unfold pgm_lgamma.
  destruct (size_t_of_double z) as [zz|] eqn:Hc; [|reflexivity].
  cbn [is_defined andb].
  destruct (lookup_test z zz Hc) as [(Hz & Hzz & Hb)|(Hz & Hb)]; rewrite Hz.
  - subst zz. rewrite Hb. reflexivity.
  - destruct ((z <? 127) && (z =? double_of_size_t zz)).
    + apply logfactorial_read. apply Hb. reflexivity.
    + cbv zeta.
      destruct (gtb z 12); [reflexivity|].
      destruct (geb z 4); [reflexivity|].
      destruct (gtb z 1.5); [reflexivity|].
      destruct (geb z 0.5); [reflexivity|].
      destruct (gtb z DBL_EPSILON); [reflexivity|].
      destruct (gtb z DBL_MIN); reflexivity.
Qed.

(** X7. For every [z] with [-1 < z < 0], [pgm_lgamma z] returns the literal
    708.3964202663686 of its last band: the cast gives 0, no test [z > c] or
    [z >= c] holds, and a negative argument is answered like one at or below
    [DBL_MIN]. *)
Theorem pgm_lgamma_negative (z : float) :
  (-1 <? z) = true -> (z <? 0) = true ->
  pgm_lgamma log z = Some 708.3964202663686.
Proof.
  intros Hlo Hneg.
  assert (Hhi : (z <? 18446744073709551616) = true)
    by (apply (ltb_trans z 0 _ Hneg); reflexivity).
  pose proof (size_t_of_double_defined z) as Hd. rewrite Hlo, Hhi in Hd.
  assert (H0 : Prim2SF (double_of_size_t 0) = S754_zero false)
    by (vm_compute; reflexivity).
  rewrite ltb_spec in Hneg. change (Prim2SF 0) with (S754_zero false) in Hneg.
  unfold pgm_lgamma. unfold size_t_of_double in *.
  destruct (Prim2SF z) as [s|s| |s m e] eqn:Hz.
  - destruct s; discriminate Hneg.
  - discriminate Hd.
  - discriminate Hd.
  - destruct s; [|discriminate Hneg]. cbv zeta in *.
    destruct (Z.shiftl (Z.pos m) e =? 0)%Z; [|discriminate].
    assert (Hcmp : forall c mc ec, Prim2SF c = S754_finite false mc ec ->
              (c <? z) = false /\ (c <=? z) = false).
    { intros c mc ec Hc. rewrite ltb_spec, leb_spec, Hc, Hz. split; reflexivity. }
    assert (Heq : (z =? double_of_size_t 0) = false)
      by (rewrite eqb_spec, Hz, H0; reflexivity).
    assert (H12 : Prim2SF 12 = S754_finite false 6755399441055744 (-49))
      by (vm_compute; reflexivity).
    assert (H4 : Prim2SF 4 = S754_finite false 4503599627370496 (-50))
      by (vm_compute; reflexivity).
    assert (H15 : Prim2SF 1.5 = S754_finite false 6755399441055744 (-52))
      by (vm_compute; reflexivity).
    assert (H05 : Prim2SF 0.5 = S754_finite false 4503599627370496 (-53))
      by (vm_compute; reflexivity).
    assert (Heps : Prim2SF DBL_EPSILON = S754_finite false 4503599627370496 (-104))
      by (vm_compute; reflexivity).
    assert (Hmin : Prim2SF DBL_MIN = S754_finite false 4503599627370496 (-1074))
      by (vm_compute; reflexivity).
    rewrite Heq, andb_false_r. unfold gtb, geb.
    rewrite (proj1 (Hcmp 12 _ _ H12)), (proj2 (Hcmp 4 _ _ H4)).
    rewrite (proj1 (Hcmp 1.5 _ _ H15)), (proj2 (Hcmp 0.5 _ _ H05)).
    rewrite (proj1 (Hcmp DBL_EPSILON _ _ Heps)), (proj1 (Hcmp DBL_MIN _ _ Hmin)).
    reflexivity.
Qed.

(** X8. [pgm_gammaq s x] has defined behaviour exactly for [-1 < s < 2^64],
    whatever [x] is: the cast [(size_t)s] comes before every test on [s], so
    a larger, infinite or NaN [s] is undefined also where [kf_gammaq] would
    have taken it. *)
Theorem pgm_gammaq_defined_domain (s x : float) :
  is_defined (pgm_gammaq exp kf_gammaq s x)
  = (-1 <? s) && (s <? 18446744073709551616).
Proof.
  rewrite <- size_t_of_double_defined. unfold pgm_gammaq.
  destruct (size_t_of_double s) as [ss|]; [|reflexivity].
  cbv zeta.
  destruct ((s =? double_of_size_t ss) && (s <? 30)); [reflexivity|].
  destruct ((s =? double_of_size_t ss + 0.5) && (s <? 30)); reflexivity.
Qed.

(** X9. For every [s] with [30 <= s < 2^64], integer and half-integer
    included, and every [x], [pgm_gammaq s x] is [kf_gammaq s x]: the closed
    forms are taken only below 30. *)
Theorem pgm_gammaq_delegates (s x : float) :
  (30 <=? s) = true -> (s <? 18446744073709551616) = true ->
  pgm_gammaq exp kf_gammaq s x = Some (kf_gammaq s x).
Proof.
  intros Hlo Hhi.
  pose proof (size_t_of_double_defined s) as Hd.
  rewrite Hhi, (ltb_leb_trans (-1) 30 s eq_refl Hlo) in Hd.
  unfold pgm_gammaq.
  destruct (size_t_of_double s) as [ss|]; [|discriminate].
  cbv zeta. rewrite (leb_not_ltb s 30 Hlo), !andb_false_r. reflexivity.
Qed.

(** X10. [pgm_erfc x] is 0 for every [x] that is not below
    26.615717509251258: the numbers from there on, [+inf], and NaN, which
    fails every test [x < c] and falls to the last [else]. *)
Theorem pgm_erfc_zero_above (x : float) :
  (x <? 26.615717509251258) = false -> pgm_erfc exp x = 0.
Proof.
  intros H. unfold pgm_erfc. cbn [pgm_erfc_rec].
  rewrite (not_ltb_smaller x (-6.003636680306125) 26.615717509251258 eq_refl H).
  rewrite (not_ltb_smaller x (- DBL_EPSILON) 26.615717509251258 eq_refl H).
  rewrite (not_ltb_smaller x DBL_EPSILON 26.615717509251258 eq_refl H).
  rewrite (not_ltb_smaller x 0.5 26.615717509251258 eq_refl H).
  rewrite (not_ltb_smaller x 4 26.615717509251258 eq_refl H).
  rewrite H. reflexivity.
Qed.

(** X11. [pgm_erfc x] is exactly 1 for every [x] with
    [-DBL_EPSILON <= x < DBL_EPSILON]: both zeros and every subnormal
    number among them. *)
Theorem pgm_erfc_one_near_zero (x : float) :
  (x <? - DBL_EPSILON) = false -> (x <? DBL_EPSILON) = true ->
  pgm_erfc exp x = 1.
Proof.
  intros Hlo Hhi. unfold pgm_erfc. cbn [pgm_erfc_rec].
  rewrite (not_ltb_smaller x (-6.003636680306125) (- DBL_EPSILON) eq_refl Hlo).
  rewrite Hlo, Hhi. reflexivity.
Qed.

(** X12. For every [x] with [DBL_EPSILON < x <= 6.003636680306125],
    [pgm_erfc (-x)] is [2 - pgm_erfc x], bit for bit: on the negative side
    the function is the reflection of its value on the positive side,
    rounded once. *)
Theorem pgm_erfc_reflection (x : float) :
  (DBL_EPSILON <? x) = true -> (x <=? 6.003636680306125) = true ->
  pgm_erfc exp (- x) = 2 - pgm_erfc exp x.
Proof.
  intros Hlo Hhi.
  assert (H1 : (- x <? -6.003636680306125) = false).
  { change (-6.003636680306125) with (PrimFloat.opp 6.003636680306125).
    rewrite ltb_opp. apply leb_not_ltb. exact Hhi. }
  assert (H2 : (- x <? - DBL_EPSILON) = true) by (rewrite ltb_opp; exact Hlo).
  assert (H3 : (x <? -6.003636680306125) = false)
    by (apply (gtb_not_ltb x _ DBL_EPSILON Hlo); reflexivity).
  assert (H4 : (x <? - DBL_EPSILON) = false)
    by (apply (gtb_not_ltb x _ DBL_EPSILON Hlo); reflexivity).
  unfold pgm_erfc. cbn [pgm_erfc_rec].
  rewrite H1, H2, opp_involutive, H3, H4. reflexivity.
Qed.

(** X13. [inverse_gaussian_cdf 0 mu lambda] is 0 for all [mu] and [lambda]
    with [exp (lambda / mu)] finite: at [x = 0] the arguments [a - b] and
    [b + a] of [pgm_erfc] are NaN ([a] is [sqrt (.. / 0)], [b] is
    [a * (0 / mu)]), [pgm_erfc] answers 0 to NaN, and the sum is
    [0.5 * (0 + c * 0 * c)]. *)
Theorem inverse_gaussian_cdf_at_zero (mu lambda : float) :
  is_nan (exp (lambda / mu) * 0) = false ->
  inverse_gaussian_cdf exp 0 mu lambda = 0.
Proof.
  intros Hc. unfold inverse_gaussian_cdf. cbv zeta.
  rewrite sqrt_div_zero_mul, sub_nan_r, add_nan_l.
  replace (pgm_erfc exp nan) with 0 by reflexivity.
  rewrite (mul_zero_mul _ Hc). reflexivity.
Qed.

End SpecialFunctionEdges.

(** ** The samplers and the [struct config] *)

Lemma same_outcome_weaken {A S : Type} (R R' : config -> config -> Prop)
    (r1 r2 : option ((A * config) * S)) :
  (forall a b, R a b -> R' a b) -> same_outcome R r1 r2 -> same_outcome R' r1 r2.
Proof.
  intros HR. destruct r1 as [[[x1 a] s1]|], r2 as [[[x2 b] s2]|]; cbn;
    try (intros H; exact H).
  intros (Hx & Hs & H). split; [exact Hx|]. split; [exact Hs|].
  apply HR. exact H.
Qed.

Section ConfigFacts.

Local Open Scope float_scope.

Variables exp log : float -> float.
Variable bitgen_t : Type.
Variable next_double : bitgen_t -> float * bitgen_t.
Variable random_standard_uniform : bitgen_t -> float * bitgen_t.
Variable random_standard_exponential : bitgen_t -> float * bitgen_t.
Variable random_standard_gamma : bitgen_t -> float -> float * bitgen_t.
Variable random_wald : bitgen_t -> float -> float -> float * bitgen_t.

Notation "x <- m ;; k" := (bind bitgen_t m (fun x => k))
  (at level 61, m at next level, right associativity).

Local Abbreviation coef := (piecewise_coef exp).
Local Abbreviation series := (alternating_series exp).
Local Abbreviation test := (series_test exp log bitgen_t next_double).
Local Abbreviation jacobi_0_loop :=
  (random_jacobi_0_loop exp log bitgen_t next_double random_standard_exponential).
Local Abbreviation jacobi_loop :=
  (random_jacobi_loop exp log bitgen_t next_double random_standard_uniform
     random_standard_exponential random_wald).
Local Abbreviation draws := (component_draws bitgen_t).
Local Abbreviation devroye :=
  (random_polyagamma_devroye exp log bitgen_t next_double
     random_standard_uniform random_standard_exponential random_wald).
Local Abbreviation component_of :=
  (devroye_component exp log bitgen_t next_double
     random_standard_uniform random_standard_exponential random_wald).
Local Abbreviation start := (devroye_start_config exp).

(** X14. [random_polyagamma_gamma_conv] is even in [z], bit for bit: [z]
    enters through [z * z] alone, and the square of [-z] is that of [z]. *)
Theorem random_polyagamma_gamma_conv_even (st : bitgen_t) (h z : float) :
  random_polyagamma_gamma_conv bitgen_t random_standard_gamma st h (- z)
  = random_polyagamma_gamma_conv bitgen_t random_standard_gamma st h z.
Proof.
  unfold random_polyagamma_gamma_conv. rewrite mul_opp_opp. reflexivity.
Qed.

(** The coefficients read [x] and [logx] only. *)
Lemma piecewise_coef_reads (n : Z) (c1 c2 : config) :
  same_sample c1 c2 -> coef n c1 = coef n c2.
Proof.
  intros [Hx Hl]. unfold piecewise_coef. rewrite Hx, Hl. reflexivity.
Qed.

Lemma alternating_series_reads (fuel : nat) (strict : bool) (c1 c2 : config) :
  same_sample c1 c2 ->
  forall i s u, series fuel strict c1 i s u = series fuel strict c2 i s u.
Proof.
  intros H. induction fuel as [|fuel IH]; intros i s u; [reflexivity|].
  cbn [alternating_series]. rewrite (piecewise_coef_reads i c1 c2 H).
  rewrite !IH. reflexivity.
Qed.

(** The shared body, written out: one uniform is drawn, [logx] is set. *)
Lemma series_test_eq (n : nat) (strict : bool) (cfg : config) (st : bitgen_t) :
  test n strict cfg st
  = let cfg' := set_logx cfg (log (cfg_x cfg)) in
    let s := coef 0 cfg' in
    Some ((series n strict cfg' 1 s (fst (next_double st) * s), cfg'),
          snd (next_double st)).
Proof.
  unfold series_test, bind, draw, ret. destruct (next_double st). reflexivity.
Qed.

Lemma series_test_reads (n : nat) (strict : bool) (c1 c2 : config)
    (st : bitgen_t) :
  cfg_x c1 = cfg_x c2 ->
  exists r st',
    test n strict c1 st = Some ((r, set_logx c1 (log (cfg_x c1))), st')
    /\ test n strict c2 st = Some ((r, set_logx c2 (log (cfg_x c1))), st').
Proof.
  intros Hx. rewrite !series_test_eq. cbv zeta. rewrite <- Hx.
  assert (Hs : same_sample (set_logx c1 (log (cfg_x c1)))
                           (set_logx c2 (log (cfg_x c1)))).
  { split; [exact Hx | reflexivity]. }
  rewrite (piecewise_coef_reads 0 _ _ Hs).
  rewrite (alternating_series_reads n strict _ _ Hs).
  eexists. eexists. split; reflexivity.
Qed.

Ltac same_series_test n strict :=
  match goal with
  | |- same_outcome _ (match test n strict ?a ?st with _ => _ end)
                      (match test n strict ?b ?st with _ => _ end) =>
      let r := fresh "r" in
      let st' := fresh "st" in
      let E1 := fresh "E" in
      let E2 := fresh "E" in
      destruct (series_test_reads n strict a b st eq_refl) as (r & st' & E1 & E2);
      rewrite E1, E2; destruct r as [[|]|]
  end.

(** [random_jacobi_0] writes [x] before it reads any field. *)
Lemma random_jacobi_0_loop_reads (n fuel : nat) :
  forall (c1 c2 : config) (st : bitgen_t),
  same_outcome same_sample (jacobi_0_loop n fuel c1 st) (jacobi_0_loop n fuel c2 st).
Proof.
  induction fuel as [|fuel IH]; intros c1 c2 st; [exact I|].
  cbn [random_jacobi_0_loop]. unfold bind, draw, ret, out_of_fuel.
  destruct (next_double st) as [v st1].
  destruct (v <? jacobi_0_ratio).
  - destruct (normal_tail_pair bitgen_t random_standard_exponential n _ st1)
      as [[e1 st2]|]; [|exact I].
    cbn [set_x cfg_x]. same_series_test n true.
    + cbn. repeat split.
    + apply IH.
    + exact I.
  - destruct (random_standard_exponential st1) as [e st2].
    same_series_test n true.
    + cbn. repeat split.
    + apply IH.
    + exact I.
Qed.

(** [random_jacobi] reads [ratio], [mu] and [k]; it writes [x] and [logx]. *)
Lemma random_jacobi_loop_reads (n fuel : nat) :
  forall (c1 c2 : config) (st : bitgen_t),
  same_parameters c1 c2 ->
  same_outcome (fun a b => same_parameters a b /\ same_sample a b)
    (jacobi_loop n fuel c1 st) (jacobi_loop n fuel c2 st).
Proof.
  induction fuel as [|fuel IH]; intros c1 c2 st (Hmu & Hk & Hr); [exact I|].
  cbn [random_jacobi_loop]. unfold bind, draw, ret, out_of_fuel.
  destruct (next_double st) as [v st1]. rewrite <- Hr, <- Hmu, <- Hk.
  destruct (v <? cfg_ratio c1).
  - destruct (random_right_bounded_inverse_gaussian _ _ _ _ _ n (cfg_mu c1) 1 T st1)
      as [[x st2]|]; [|exact I].
    same_series_test n false.
    + cbn. repeat split; assumption.
    + apply IH. repeat split; assumption.
    + exact I.
  - destruct (random_standard_exponential st1) as [e st2].
    same_series_test n false.
    + cbn. repeat split; assumption.
    + apply IH. repeat split; assumption.
    + exact I.
Qed.

Ltac after_series_test H IH :=
  rewrite series_test_eq in H; cbv zeta in H;
  destruct (alternating_series _ _ _ _ _ _ _) as [[|]|]; [| |discriminate];
  [ inversion H; subst; cbn; repeat split
  | apply IH in H; cbn in H; exact H ].

(** A component run leaves its value in [x], [log x] in [logx], and the
    other four fields as they were. *)
Lemma random_jacobi_0_loop_writes (n fuel : nat) :
  forall (cfg : config) (st : bitgen_t) x cfg' st',
  jacobi_0_loop n fuel cfg st = Some ((x, cfg'), st') ->
  x = cfg_x cfg' /\ cfg_logx cfg' = log x
  /\ cfg_mu cfg' = cfg_mu cfg /\ cfg_k cfg' = cfg_k cfg
  /\ cfg_half_mu2 cfg' = cfg_half_mu2 cfg /\ cfg_ratio cfg' = cfg_ratio cfg.
Proof.
  induction fuel as [|fuel IH]; intros cfg st x cfg' st' H; [discriminate|].
  cbn [random_jacobi_0_loop] in H. unfold bind, draw, ret, out_of_fuel in H.
  destruct (next_double st) as [v st1].
  destruct (v <? jacobi_0_ratio).
  - destruct (normal_tail_pair bitgen_t random_standard_exponential n _ st1)
      as [[e1 st2]|]; [|discriminate].
    after_series_test H IH.
  - destruct (random_standard_exponential st1) as [e st2].
    after_series_test H IH.
Qed.

Lemma random_jacobi_loop_writes (n fuel : nat) :
  forall (cfg : config) (st : bitgen_t) x cfg' st',
  jacobi_loop n fuel cfg st = Some ((x, cfg'), st') ->
  x = cfg_x cfg' /\ cfg_logx cfg' = log x
  /\ cfg_mu cfg' = cfg_mu cfg /\ cfg_k cfg' = cfg_k cfg
  /\ cfg_half_mu2 cfg' = cfg_half_mu2 cfg /\ cfg_ratio cfg' = cfg_ratio cfg.
Proof.
  induction fuel as [|fuel IH]; intros cfg st x cfg' st' H; [discriminate|].
  cbn [random_jacobi_loop] in H. unfold bind, draw, ret, out_of_fuel in H.
  destruct (next_double st) as [v st1].
  destruct (v <? cfg_ratio cfg).
  - destruct (random_right_bounded_inverse_gaussian _ _ _ _ _ n (cfg_mu cfg) 1 T st1)
      as [[y st2]|]; [|discriminate].
    after_series_test H IH.
  - destruct (random_standard_exponential st1) as [e st2].
    after_series_test H IH.
Qed.

Lemma component_writes (fuel : nat) (z : float) (cfg : config)
    (st : bitgen_t) x cfg' st' :
  component_of fuel z cfg st = Some ((x, cfg'), st') ->
  x = cfg_x cfg' /\ cfg_logx cfg' = log x
  /\ cfg_mu cfg' = cfg_mu cfg /\ cfg_k cfg' = cfg_k cfg
  /\ cfg_half_mu2 cfg' = cfg_half_mu2 cfg /\ cfg_ratio cfg' = cfg_ratio cfg.
Proof.
  unfold devroye_component. destruct (z =? 0).
  - apply random_jacobi_0_loop_writes.
  - apply random_jacobi_loop_writes.
Qed.

Lemma component_reads (fuel : nat) (z : float) (c1 c2 : config)
    (st : bitgen_t) :
  alike z c1 c2 ->
  same_outcome (alike z) (component_of fuel z c1 st) (component_of fuel z c2 st).
Proof.
  unfold alike, devroye_component. destruct (z =? 0) eqn:Hz; intros H.
  - apply (same_outcome_weaken same_sample); [intros; left; reflexivity|].
    apply random_jacobi_0_loop_reads.
  - destruct H as [H|H]; [discriminate|].
    apply (same_outcome_weaken (fun a b => same_parameters a b /\ same_sample a b));
      [intros a b [Hab _]; right; exact Hab|].
    apply random_jacobi_loop_reads. exact H.
Qed.

Lemma start_alike (z : float) (c1 c2 : config) : alike z (start c1 z) (start c2 z).
Proof.
  unfold alike, devroye_start_config. destruct (z =? 0); [left; reflexivity|].
  right. repeat split.
Qed.

(** The loop gives the same sum from two structs that its component sampler
    cannot tell apart. *)
Lemma devroye_do_while_reads (fuel : nat) (z : float) (steps : nat) :
  forall (c1 c2 : config) (n : Z) (out : float) (st : bitgen_t),
  alike z c1 c2 ->
  devroye_do_while bitgen_t steps (component_of fuel z) c1 n out st
  = devroye_do_while bitgen_t steps (component_of fuel z) c2 n out st.
Proof.
  induction steps as [|steps IH]; intros c1 c2 n out st H; [reflexivity|].
  cbn [devroye_do_while]. unfold bind, ret.
  pose proof (component_reads fuel z c1 c2 st H) as Hc.
  destruct (component_of fuel z c1 st) as [[[x1 a] s1]|],
           (component_of fuel z c2 st) as [[[x2 b] s2]|];
    cbn in Hc; try contradiction; [|reflexivity].
  destruct Hc as (-> & -> & Hab). cbn [fst snd].
  destruct (negb (wrap64 (n - 1) =? 0)%Z); [|reflexivity].
  apply IH. exact Hab.
Qed.

(** X15. The result of [random_polyagamma_devroye] does not depend on what
    the [struct config] of its stack frame holds when the function starts:
    for all [n] and [z], two calls that differ in that content alone return
    the same value and leave the engine in the same state (or are both still
    running).  With [z == 0] no field is read before it is written; otherwise
    [mu], [k], [half_mu2] and [ratio] are set first. *)
Theorem random_polyagamma_devroye_ignores_uninitialised (fuel steps : nat)
    (c1 c2 : config) (n : Z) (z : float) (st : bitgen_t) :
  devroye fuel steps c1 n z st = devroye fuel steps c2 n z st.
Proof.
  rewrite !random_polyagamma_devroye_loop. unfold bind.
  rewrite (devroye_do_while_reads fuel z steps (start c1 z) (start c2 z) n 0 st
             (start_alike z c1 c2)).
  reflexivity.
Qed.

(** X16. [random_jacobi] reads three fields of the struct, [mu], [k] and
    [ratio]: from two structs that agree on these it draws the same value,
    leaves the engine in the same state, and leaves the same [x] and [logx].
    The field [half_mu2], which [initialize_config] computes, is never
    read. *)
Theorem random_jacobi_reads_parameters (fuel : nat) (c1 c2 : config)
    (st : bitgen_t) :
  same_parameters c1 c2 ->
  same_outcome (fun a b => same_parameters a b /\ same_sample a b)
    (random_jacobi exp log bitgen_t next_double random_standard_uniform
       random_standard_exponential random_wald fuel c1 st)
    (random_jacobi exp log bitgen_t next_double random_standard_uniform
       random_standard_exponential random_wald fuel c2 st).
Proof.
  intros H. unfold random_jacobi. apply random_jacobi_loop_reads. exact H.
Qed.

(** X17. What a component sampler leaves behind: when a run of
    [random_jacobi_0] ([z == 0]) or [random_jacobi] returns [x], the struct
    holds [x] in its field [x] and [log x] in [logx], and its fields [mu],
    [k], [half_mu2] and [ratio] are as they were; the next run of the loop
    starts from the same parameters. *)
Theorem devroye_component_leaves (fuel : nat) (z : float) (cfg : config)
    (st : bitgen_t) (x : float) (cfg' : config) (st' : bitgen_t) :
  component_of fuel z cfg st = Some ((x, cfg'), st') ->
  x = cfg_x cfg' /\ cfg_logx cfg' = log x
  /\ cfg_mu cfg' = cfg_mu cfg /\ cfg_k cfg' = cfg_k cfg
  /\ cfg_half_mu2 cfg' = cfg_half_mu2 cfg /\ cfg_ratio cfg' = cfg_ratio cfg.
Proof.
  apply component_writes.
Qed.

Lemma component_draws_reads (fuel : nat) (z : float) (k : nat) :
  forall (c1 c2 : config) (st : bitgen_t),
  alike z c1 c2 ->
  same_outcome (alike z) (draws k (component_of fuel z) c1 st)
                         (draws k (component_of fuel z) c2 st).
Proof.
  induction k as [|k IH]; intros c1 c2 st H.
  - cbn. repeat split. exact H.
  - cbn [component_draws]. unfold bind, ret.
    pose proof (component_reads fuel z c1 c2 st H) as Hc.
    destruct (component_of fuel z c1 st) as [[[x1 a] s1]|],
             (component_of fuel z c2 st) as [[[x2 b] s2]|];
      cbn in Hc; try contradiction; [|exact I].
    destruct Hc as (-> & -> & Hab). cbn [fst snd].
    specialize (IH a b s2 Hab).
    destruct (draws k (component_of fuel z) a s2) as [[[xs1 a'] t1]|],
             (draws k (component_of fuel z) b s2) as [[[xs2 b'] t2]|];
      cbn in IH; try contradiction; [|exact I].
    destruct IH as (-> & -> & Hab'). cbn. repeat split. exact Hab'.
Qed.

Lemma component_draws_writes (fuel : nat) (z : float) (k : nat) :
  forall (cfg : config) (st : bitgen_t) xs cfg' st',
  draws k (component_of fuel z) cfg st = Some ((xs, cfg'), st') ->
  same_parameters cfg cfg'.
Proof.
  induction k as [|k IH]; intros cfg st xs cfg' st' H.
  - inversion H; subst. repeat split.
  - cbn [component_draws] in H. unfold bind, ret in H.
    destruct (component_of fuel z cfg st) as [[[x a] s1]|] eqn:E; [|discriminate].
    cbn [fst snd] in H.
    destruct (draws k (component_of fuel z) a s1) as [[[ys b] s2]|] eqn:E2;
      [|discriminate].
    inversion H; subst.
    apply component_writes in E. apply IH in E2.
    destruct E as (_ & _ & Hm & Hk & _ & Hr), E2 as (Hm' & Hk' & Hr').
    repeat split; congruence.
Qed.

(** [k1 + k2] runs are [k1] runs, then [k2] runs on the struct they leave. *)
Lemma component_draws_app (component : config -> Gen bitgen_t (float * config))
    (k1 k2 : nat) :
  forall (cfg : config) (st : bitgen_t),
  draws (k1 + k2) component cfg st
  = (r1 <- draws k1 component cfg ;;
     r2 <- draws k2 component (snd r1) ;;
     ret bitgen_t (fst r1 ++ fst r2, snd r2)) st.
Proof.
  induction k1 as [|k1 IH]; intros cfg st.
  - cbn. unfold bind, ret. cbn.
    destruct (draws k2 component cfg st) as [[[xs c] s]|]; reflexivity.
  - cbn [component_draws Nat.add]. unfold bind, ret.
    destruct (component cfg st) as [[r s1]|]; [|reflexivity].
    rewrite IH. unfold bind, ret.
    destruct (draws k1 component (snd r) s1) as [[r1 s2]|]; [|reflexivity].
    cbn [fst snd].
    destruct (draws k2 component (snd r1) s2) as [[r2 s3]|]; reflexivity.
Qed.

(** A call with [1 <= n < 2^64] and steps for [n] rounds, as [n] component
    runs. *)
Lemma random_polyagamma_devroye_draws (fuel steps : nat) (cfg : config)
    (n : Z) (z : float) (st : bitgen_t) :
  (1 <= n < SIZE_MAX_plus_1)%Z -> (n <= Z.of_nat steps)%Z ->
  devroye fuel steps cfg n z st
  = (r <- draws (Z.to_nat n) (component_of fuel z) (start cfg z) ;;
     ret bitgen_t (0.25 * sum_from 0 (fst r))) st.
Proof.
  intros Hn Hs. rewrite random_polyagamma_devroye_loop. unfold bind at 1.
  rewrite devroye_do_while_enough by (unfold devroye_rounds;
    destruct (Z.eqb_spec n 0); lia).
  unfold devroye_rounds.
  replace (n =? 0)%Z with false by (symmetry; apply Z.eqb_neq; lia).
  unfold bind, ret.
  destruct (draws (Z.to_nat n) _ _ st) as [[r st']|]; reflexivity.
Qed.

(** X18. A call with [n1 + n2] is a call with [n1] followed by a call with
    [n2] on the engine the first one leaves, whatever struct each call finds
    on its stack: if the two calls return, with component values [xs1] and
    [xs2], the results [0.25 * sum xs1] and [0.25 * sum xs2] and the engine
    in [st2], then the single call draws the same components, returns
    [0.25 * sum (xs1 ++ xs2)] (added from the left) and leaves the engine in
    [st2] too. *)
Theorem random_polyagamma_devroye_split (fuel steps1 steps2 steps : nat)
    (cfg cfg' : config) (n1 n2 : Z) (z : float) (st st1 st2 : bitgen_t)
    (v1 v2 : float) :
  (1 <= n1)%Z -> (1 <= n2)%Z -> (n1 + n2 < SIZE_MAX_plus_1)%Z ->
  (n1 <= Z.of_nat steps1)%Z -> (n2 <= Z.of_nat steps2)%Z ->
  (n1 + n2 <= Z.of_nat steps)%Z ->
  devroye fuel steps1 cfg n1 z st = Some (v1, st1) ->
  devroye fuel steps2 cfg' n2 z st1 = Some (v2, st2) ->
  exists xs1 xs2 c1 c2,
    draws (Z.to_nat n1) (component_of fuel z) (start cfg z) st
    = Some ((xs1, c1), st1)
    /\ draws (Z.to_nat n2) (component_of fuel z) (start cfg' z) st1
       = Some ((xs2, c2), st2)
    /\ v1 = 0.25 * sum_from 0 xs1 /\ v2 = 0.25 * sum_from 0 xs2
    /\ devroye fuel steps cfg (n1 + n2) z st
       = Some (0.25 * sum_from 0 (xs1 ++ xs2), st2).
Proof.
  intros H1 H2 H12 Hs1 Hs2 Hs Hr1 Hr2.
  rewrite random_polyagamma_devroye_draws in Hr1 by lia.
  rewrite random_polyagamma_devroye_draws in Hr2 by lia.
  rewrite random_polyagamma_devroye_draws by lia.
  replace (Z.to_nat (n1 + n2)) with (Z.to_nat n1 + Z.to_nat n2)%nat by lia.
  unfold bind at 1. rewrite component_draws_app.
  unfold bind, ret in *.
  destruct (draws (Z.to_nat n1) _ (start cfg z) st) as [[[xs1 c1] s1]|] eqn:E1;
    [|discriminate].
  cbn [fst snd] in *. inversion Hr1; subst v1 s1. clear Hr1.
  assert (Hal : alike z c1 (start cfg' z)).
  { destruct (start_alike z cfg cfg') as [Hz|Hp]; [left; exact Hz|].
    pose proof (component_draws_writes _ _ _ _ _ _ _ _ E1) as Hw. right.
    destruct Hw as (Hm & Hk & Hr), Hp as (Hm' & Hk' & Hr').
    repeat split; congruence. }
  pose proof (component_draws_reads fuel z (Z.to_nat n2) c1 (start cfg' z) st1 Hal)
    as Hd.
  destruct (draws (Z.to_nat n2) _ (start cfg' z) st1) as [[[xs2 c2] s2]|] eqn:E2;
    [|discriminate].
  destruct (draws (Z.to_nat n2) _ c1 st1) as [[[xs2' c2'] s2']|];
    cbn in Hd; [|contradiction].
  destruct Hd as (-> & -> & _). cbn [fst snd] in *.
  inversion Hr2; subst v2 s2.
  exists xs1, xs2, c1, c2. repeat split.
Qed.

(** A proposal [x] that is not above 0 (a zero, a negative number or NaN)
    has every coefficient zero. *)
Lemma piecewise_coef_zero (n : Z) (cfg : config) :
  gtb (cfg_x cfg) 0 = false -> coef n cfg = 0.
Proof.
  intros H. unfold piecewise_coef. cbv zeta. unfold gtb in *.
  rewrite (not_gtb_larger (cfg_x cfg) 0 T eq_refl H), H. reflexivity.
Qed.

(** Then the partial sums stay at 0, and a [u] that is neither below nor
    above 0 passes neither test of the strict series. *)
Lemma alternating_series_stuck (fuel : nat) (cfg : config) :
  gtb (cfg_x cfg) 0 = false ->
  forall (i : Z) (u : float), (u <? 0) = false -> (0 <? u) = false ->
  series fuel true cfg i 0 u = None.
Proof.
  intros Hx. induction fuel as [|fuel IH]; intros i u H1 H2; [reflexivity|].
  cbn [alternating_series]. rewrite (piecewise_coef_zero i cfg Hx).
  replace (0 - 0) with 0 by reflexivity. replace (0 + 0) with 0 by reflexivity.
  unfold gtb. rewrite H1, H2.
  destruct (negb (Z.land i 1 =? 0)%Z); apply IH; assumption.
Qed.

(** With every coefficient zero the strict series takes no exit, and the
    other one returns at its first term. *)
Lemma series_at_zero_coefficients (n : nat) (cfg : config) (st : bitgen_t) :
  gtb (cfg_x cfg) 0 = false ->
  test n true cfg st
  = Some ((None, set_logx cfg (log (cfg_x cfg))), snd (next_double st))
  /\ (is_nan (fst (next_double st) * 0) = false ->
      test (S n) false cfg st
      = Some ((Some true, set_logx cfg (log (cfg_x cfg))), snd (next_double st))).
Proof.
  intros Hx.
  assert (Hx' : gtb (cfg_x (set_logx cfg (log (cfg_x cfg)))) 0 = false) by exact Hx.
  rewrite !series_test_eq. cbv zeta.
  rewrite (piecewise_coef_zero 0 _ Hx').
  destruct (mul_zero_sign (fst (next_double st))) as (H1 & H2 & H3).
  split.
  - rewrite (alternating_series_stuck n _ Hx' 1 _ H1 H2). reflexivity.
  - intros Hn. cbn [alternating_series].
    rewrite (piecewise_coef_zero 1 _ Hx').
    replace (0 - 0) with 0 by reflexivity.
    change (negb (Z.land 1 1 =? 0)%Z) with true. cbv iota.
    rewrite H3, Hn. reflexivity.
Qed.

(** X19. When the proposal [x] is not above 0 (a zero, a negative number or
    NaN) every coefficient [piecewise_coef] is 0, the partial sums stay at 0
    and [u] is a zero or NaN.  The series of [random_jacobi_0], which returns
    on [u < s] and breaks on [u > s], then takes neither exit: whatever the
    number of terms allowed, it is still running.  The series of
    [random_jacobi], which returns on [u <= s], accepts [x] at its first
    term, unless the uniform draw is infinite or NaN. *)
Theorem series_test_zero_coefficients (n : nat) (cfg : config) (st : bitgen_t) :
  gtb (cfg_x cfg) 0 = false ->
  test n true cfg st
  = Some ((None, set_logx cfg (log (cfg_x cfg))), snd (next_double st))
  /\ (is_nan (fst (next_double st) * 0) = false ->
      test (S n) false cfg st
      = Some ((Some true, set_logx cfg (log (cfg_x cfg))), snd (next_double st))).
Proof.
  apply series_at_zero_coefficients.
Qed.

(** The strict series accepts only a proposal above 0. *)
Lemma series_test_accepts_positive (n : nat) (cfg : config) (st : bitgen_t)
    (cfg' : config) (st' : bitgen_t) :
  test n true cfg st = Some ((Some true, cfg'), st') ->
  cfg_x cfg' = cfg_x cfg /\ (0 <? cfg_x cfg) = true.
Proof.
  intros H. destruct (gtb (cfg_x cfg) 0) eqn:Hx.
  - rewrite series_test_eq in H. cbv zeta in H. inversion H.
    split; [reflexivity | exact Hx].
  - destruct (series_at_zero_coefficients n cfg st Hx) as [E _].
    rewrite E in H. discriminate.
Qed.

(** Every value that the loop of [random_jacobi_0] returns is above 0. *)
Lemma random_jacobi_0_loop_positive (n fuel : nat) :
  forall (cfg : config) (st : bitgen_t) (x : float) (cfg' : config)
         (st' : bitgen_t),
  jacobi_0_loop n fuel cfg st = Some ((x, cfg'), st') -> (0 <? x) = true.
Proof.
  induction fuel as [|fuel IH]; intros cfg st x cfg' st' H; [discriminate|].
  cbn [random_jacobi_0_loop] in H. unfold bind, draw, ret, out_of_fuel in H.
  destruct (next_double st) as [v st1].
  destruct (v <? jacobi_0_ratio).
  - destruct (normal_tail_pair bitgen_t random_standard_exponential n _ st1)
      as [[e1 st2]|]; [|discriminate].
    destruct (test n true _ st2) as [[[[[|]|] c] st3]|] eqn:E; try discriminate.
    + apply series_test_accepts_positive in E. destruct E as [E1 E2].
      inversion H; subst. rewrite E1. exact E2.
    + apply IH in H. exact H.
  - destruct (random_standard_exponential st1) as [e st2].
    destruct (test n true _ st2) as [[[[[|]|] c] st3]|] eqn:E; try discriminate.
    + apply series_test_accepts_positive in E. destruct E as [E1 E2].
      inversion H; subst. rewrite E1. exact E2.
    + apply IH in H. exact H.
Qed.

(** X20. Every value that [random_jacobi_0] returns is above 0, and so is
    not NaN: a proposal that is not above 0 has all its coefficients zero
    and is never accepted by the test [u < s]. *)
Theorem random_jacobi_0_positive (fuel : nat) (cfg : config) (st : bitgen_t)
    (x : float) (cfg' : config) (st' : bitgen_t) :
  random_jacobi_0 exp log bitgen_t next_double random_standard_exponential
    fuel cfg st = Some ((x, cfg'), st') ->
  (0 <? x) = true.
Proof.
  unfold random_jacobi_0. apply random_jacobi_0_loop_positive.
Qed.

End ConfigFacts.

(** ** Instances of the statements above *)

Section EdgeInstances.

Local Open Scope float_scope.

(** [pgm_lgamma (-0.5)] is the literal of the last band. *)
Lemma pgm_lgamma_negative_at_minus_half :
  (-1 <? -0.5) = true /\ (-0.5 <? 0) = true
  /\ pgm_lgamma Libm.log_at (-0.5) = Some 708.3964202663686.
Proof.
  assert (H1 : (-1 <? -0.5) = true) by reflexivity.
  assert (H2 : (-0.5 <? 0) = true) by reflexivity.
  split; [exact H1|]. split; [exact H2|].
  exact (pgm_lgamma_negative Libm.log_at (-0.5) H1 H2).
Defined.

(** [pgm_gammaq 30 1] is [kf_gammaq 30 1]. *)
Lemma pgm_gammaq_delegates_at_30 :
  (30 <=? 30) = true /\ (30 <? 18446744073709551616) = true
  /\ pgm_gammaq Libm.exp_at (fun s x => s + x) 30 1 = Some 31.
Proof.
  assert (H1 : (30 <=? 30) = true) by reflexivity.
  assert (H2 : (30 <? 18446744073709551616) = true) by reflexivity.
  split; [exact H1|]. split; [exact H2|].
  exact (pgm_gammaq_delegates Libm.exp_at (fun s x => s + x) 30 1 H1 H2).
Defined.

(** [pgm_erfc] answers 0 to NaN. *)
Lemma pgm_erfc_zero_above_at_nan :
  (nan <? 26.615717509251258) = false /\ pgm_erfc Libm.exp_at nan = 0.
Proof.
  assert (H : (nan <? 26.615717509251258) = false) by reflexivity.
  split; [exact H|].
  exact (pgm_erfc_zero_above Libm.exp_at nan H).
Defined.

(** [pgm_erfc] is 1 at the negative zero. *)
Lemma pgm_erfc_one_at_neg_zero :
  (neg_zero <? - DBL_EPSILON) = false /\ (neg_zero <? DBL_EPSILON) = true
  /\ pgm_erfc Libm.exp_at neg_zero = 1.
Proof.
  assert (H1 : (neg_zero <? - DBL_EPSILON) = false) by reflexivity.
  assert (H2 : (neg_zero <? DBL_EPSILON) = true) by reflexivity.
  split; [exact H1|]. split; [exact H2|].
  exact (pgm_erfc_one_near_zero Libm.exp_at neg_zero H1 H2).
Defined.

(** The reflection at [x = 0.25], in the band of the first rational
    function. *)
Lemma pgm_erfc_reflection_at_quarter :
  (DBL_EPSILON <? 0.25) = true /\ (0.25 <=? 6.003636680306125) = true
  /\ pgm_erfc Libm.exp_at (- 0.25) = 2 - pgm_erfc Libm.exp_at 0.25.
Proof.
  assert (H1 : (DBL_EPSILON <? 0.25) = true) by reflexivity.
  assert (H2 : (0.25 <=? 6.003636680306125) = true) by reflexivity.
  split; [exact H1|]. split; [exact H2|].
  exact (pgm_erfc_reflection Libm.exp_at 0.25 H1 H2).
Defined.

(** The distribution function at [x = 0], with [mu = 1], [lambda = 0.02]. *)
Lemma inverse_gaussian_cdf_at_zero_run :
  is_nan (Libm.exp_at (0.02 / 1) * 0) = false
  /\ inverse_gaussian_cdf Libm.exp_at 0 1 0.02 = 0.
Proof.
  assert (H : is_nan (Libm.exp_at (0.02 / 1) * 0) = false) by reflexivity.
  split; [exact H|].
  exact (inverse_gaussian_cdf_at_zero Libm.exp_at 1 0.02 H).
Defined.

(** Two structs that differ in [half_mu2], [x] and [logx]. *)
Lemma random_jacobi_reads_parameters_run :
  same_parameters (Config 1 1 0 0.5 0 0) (Config 1 1 7 0.5 3 4)
  /\ same_outcome (fun a b => same_parameters a b /\ same_sample a b)
       (random_jacobi LibmAtT.exp_at LibmAtT.log_at Replay.tape Replay.next
          Replay.next Replay.next Replay.next_wald 4 (Config 1 1 0 0.5 0 0)
          [0.75; 0; 0])
       (random_jacobi LibmAtT.exp_at LibmAtT.log_at Replay.tape Replay.next
          Replay.next Replay.next Replay.next_wald 4 (Config 1 1 7 0.5 3 4)
          [0.75; 0; 0]).
Proof.
  assert (H : same_parameters (Config 1 1 0 0.5 0 0) (Config 1 1 7 0.5 3 4))
    by (repeat split).
  split; [exact H|].
  exact (random_jacobi_reads_parameters LibmAtT.exp_at LibmAtT.log_at
           Replay.tape Replay.next Replay.next Replay.next Replay.next_wald 4
           (Config 1 1 0 0.5 0 0) (Config 1 1 7 0.5 3 4) [0.75; 0; 0] H).
Defined.

(** A run of [random_jacobi_0] on a struct with arbitrary content: the draw
    0.75 selects the exponential tail, the exponential 0 proposes [x = 2/pi],
    the uniform 0 accepts it. *)
Lemma devroye_component_leaves_run :
  devroye_component LibmAtT.exp_at LibmAtT.log_at Replay.tape Replay.next
    Replay.next Replay.next Replay.next_wald 4 0 (Config 1 2 3 4 5 6)
    [0.75; 0; 0; 0.125]
  = Some ((T, Config 1 2 3 4 T (-0.4515827052894548)), [0.125])
  /\ T = cfg_x (Config 1 2 3 4 T (-0.4515827052894548))
  /\ cfg_logx (Config 1 2 3 4 T (-0.4515827052894548)) = LibmAtT.log_at T
  /\ cfg_mu (Config 1 2 3 4 T (-0.4515827052894548)) = cfg_mu (Config 1 2 3 4 5 6)
  /\ cfg_k (Config 1 2 3 4 T (-0.4515827052894548)) = cfg_k (Config 1 2 3 4 5 6)
  /\ cfg_half_mu2 (Config 1 2 3 4 T (-0.4515827052894548))
     = cfg_half_mu2 (Config 1 2 3 4 5 6)
  /\ cfg_ratio (Config 1 2 3 4 T (-0.4515827052894548))
     = cfg_ratio (Config 1 2 3 4 5 6).
Proof.
  assert (H : devroye_component LibmAtT.exp_at LibmAtT.log_at Replay.tape
                Replay.next Replay.next Replay.next Replay.next_wald 4 0
                (Config 1 2 3 4 5 6) [0.75; 0; 0; 0.125]
              = Some ((T, Config 1 2 3 4 T (-0.4515827052894548)), [0.125]))
    by (vm_compute; reflexivity).
  split; [exact H|].
  exact (devroye_component_leaves LibmAtT.exp_at LibmAtT.log_at Replay.tape
           Replay.next Replay.next Replay.next Replay.next_wald 4 0
           (Config 1 2 3 4 5 6) [0.75; 0; 0; 0.125] T
           (Config 1 2 3 4 T (-0.4515827052894548)) [0.125] H).
Defined.

(** Two calls with [n = 1] and [z = 0], on structs with different content,
    and the call with [n = 2] on the same recording. *)
Lemma random_polyagamma_devroye_split_run :
  (1 <= 1)%Z /\ (1 + 1 < SIZE_MAX_plus_1)%Z /\ (1 <= Z.of_nat 1)%Z
  /\ (1 + 1 <= Z.of_nat 2)%Z
  /\ replay_polyagamma_devroye LibmAtT.exp_at LibmAtT.log_at 4 1 zero_config 1 0
       [0.75; 0; 0; 0.25; 0; 0; 0; 0.125]
     = Some (0.15915494309189535, [0.25; 0; 0; 0; 0.125])
  /\ replay_polyagamma_devroye LibmAtT.exp_at LibmAtT.log_at 4 1
       (Config 1 2 3 4 5 6) 1 0 [0.25; 0; 0; 0; 0.125]
     = Some (0.15915494309189535, [0.125])
  /\ exists xs1 xs2 c1 c2,
       component_draws Replay.tape (Z.to_nat 1)
         (devroye_component LibmAtT.exp_at LibmAtT.log_at Replay.tape
            Replay.next Replay.next Replay.next Replay.next_wald 4 0)
         (devroye_start_config LibmAtT.exp_at zero_config 0)
         [0.75; 0; 0; 0.25; 0; 0; 0; 0.125]
       = Some ((xs1, c1), [0.25; 0; 0; 0; 0.125])
       /\ component_draws Replay.tape (Z.to_nat 1)
            (devroye_component LibmAtT.exp_at LibmAtT.log_at Replay.tape
               Replay.next Replay.next Replay.next Replay.next_wald 4 0)
            (devroye_start_config LibmAtT.exp_at (Config 1 2 3 4 5 6) 0)
            [0.25; 0; 0; 0; 0.125]
          = Some ((xs2, c2), [0.125])
       /\ 0.15915494309189535 = 0.25 * sum_from 0 xs1
       /\ 0.15915494309189535 = 0.25 * sum_from 0 xs2
       /\ random_polyagamma_devroye LibmAtT.exp_at LibmAtT.log_at Replay.tape
            Replay.next Replay.next Replay.next Replay.next_wald 4 2
            zero_config (1 + 1) 0 [0.75; 0; 0; 0.25; 0; 0; 0; 0.125]
          = Some (0.25 * sum_from 0 (xs1 ++ xs2), [0.125]).
Proof.
  assert (H1 : (1 <= 1)%Z) by lia.
  assert (H2 : (1 + 1 < SIZE_MAX_plus_1)%Z) by (unfold SIZE_MAX_plus_1; lia).
  assert (H3 : (1 <= Z.of_nat 1)%Z) by lia.
  assert (H4 : (1 + 1 <= Z.of_nat 2)%Z) by lia.
  assert (R1 : replay_polyagamma_devroye LibmAtT.exp_at LibmAtT.log_at 4 1
                 zero_config 1 0 [0.75; 0; 0; 0.25; 0; 0; 0; 0.125]
               = Some (0.15915494309189535, [0.25; 0; 0; 0; 0.125]))
    by (vm_compute; reflexivity).
  assert (R2 : replay_polyagamma_devroye LibmAtT.exp_at LibmAtT.log_at 4 1
                 (Config 1 2 3 4 5 6) 1 0 [0.25; 0; 0; 0; 0.125]
               = Some (0.15915494309189535, [0.125]))
    by (vm_compute; reflexivity).
  split; [exact H1|]. split; [exact H2|]. split; [exact H3|].
  split; [exact H4|]. split; [exact R1|]. split; [exact R2|].
  exact (random_polyagamma_devroye_split LibmAtT.exp_at LibmAtT.log_at
           Replay.tape Replay.next Replay.next Replay.next Replay.next_wald
           4 1 1 2 zero_config (Config 1 2 3 4 5 6) 1 1 0
           [0.75; 0; 0; 0.25; 0; 0; 0; 0.125] [0.25; 0; 0; 0; 0.125] [0.125]
           0.15915494309189535 0.15915494309189535
           H1 H1 H2 H3 H3 H4 R1 R2).
Defined.

(** The series on a proposal [x = 0]: the strict one is still running after
    seven terms, the other one returns at the first. *)
Lemma series_test_zero_coefficients_run :
  gtb (cfg_x zero_config) 0 = false
  /\ series_test LibmAtT.exp_at LibmAtT.log_at Replay.tape Replay.next 7 true
       zero_config [0.5; 0.125]
     = Some ((None, set_logx zero_config (LibmAtT.log_at (cfg_x zero_config))),
             snd (Replay.next [0.5; 0.125]))
  /\ (is_nan (fst (Replay.next [0.5; 0.125]) * 0) = false ->
      series_test LibmAtT.exp_at LibmAtT.log_at Replay.tape Replay.next 8 false
        zero_config [0.5; 0.125]
      = Some ((Some true,
               set_logx zero_config (LibmAtT.log_at (cfg_x zero_config))),
              snd (Replay.next [0.5; 0.125]))).
Proof.
  assert (H : gtb (cfg_x zero_config) 0 = false) by reflexivity.
  split; [exact H|].
  exact (series_test_zero_coefficients LibmAtT.exp_at LibmAtT.log_at
           Replay.tape Replay.next 7 zero_config [0.5; 0.125] H).
Defined.

(** The value that the run of [random_jacobi_0] above returns is above 0. *)
Lemma random_jacobi_0_positive_run :
  random_jacobi_0 LibmAtT.exp_at LibmAtT.log_at Replay.tape Replay.next
    Replay.next 4 zero_config [0.75; 0; 0; 0.125]
  = Some ((T, Config 0 0 0 0 T (-0.4515827052894548)), [0.125])
  /\ (0 <? T) = true.
Proof.
  assert (H : random_jacobi_0 LibmAtT.exp_at LibmAtT.log_at Replay.tape
                Replay.next Replay.next 4 zero_config [0.75; 0; 0; 0.125]
              = Some ((T, Config 0 0 0 0 T (-0.4515827052894548)), [0.125]))
    by (vm_compute; reflexivity).
  split; [exact H|].
  exact (random_jacobi_0_positive LibmAtT.exp_at LibmAtT.log_at Replay.tape
           Replay.next Replay.next 4 zero_config [0.75; 0; 0; 0.125] T
           (Config 0 0 0 0 T (-0.4515827052894548)) [0.125] H).
Defined.

End EdgeInstances.

(** ** Rounding and the sign of a result *)

Module SignFacts.

Lemma shr_1_nonneg (r : shr_record) : (0 <= shr_m r)%Z -> (0 <= shr_m (shr_1 r))%Z.
Proof.
  destruct r as [m r s]. cbn [shr_m]. intros H.
  destruct m as [|p|p]; [cbn; lia| |lia].
  destruct p; cbn; lia.
Qed.

Lemma iter_pos_invariant {A : Type} (P : A -> Prop) (f : A -> A) :
  (forall x, P x -> P (f x)) ->
  forall p x, P x -> P (SpecFloat.iter_pos f p x).
Proof.
  intros Hf. induction p as [p IH|p IH|]; intros x Hx; cbn [SpecFloat.iter_pos].
  - apply IH, IH, Hf, Hx.
  - apply IH, IH, Hx.
  - apply Hf, Hx.
Qed.

Lemma shr_fexp_nonneg (m e : Z) (l : location) :
  (0 <= m)%Z -> (0 <= shr_m (fst (shr_fexp prec emax m e l)))%Z.
Proof.
  intros H. unfold shr_fexp, shr.
  assert (H0 : (0 <= shr_m (shr_record_of_loc m l))%Z).
  { destruct l as [|[| |]]; exact H. }
  destruct (fexp prec emax (Zdigits2 m + e) - e)%Z as [|p|p]; cbn [fst];
    try exact H0.
  apply (iter_pos_invariant (fun r => (0 <= shr_m r)%Z)); [|exact H0].
  exact shr_1_nonneg.
Qed.

Lemma round_nearest_even_nonneg (m : Z) (l : location) :
  (0 <= m)%Z -> (0 <= round_nearest_even m l)%Z.
Proof.
  intros H. unfold round_nearest_even.
  destruct l as [|[| |]]; try exact H; try lia.
  destruct (Z.even m); lia.
Qed.

(** Rounding a non-negative mantissa keeps the sign and gives no NaN. *)
Lemma binary_round_aux_signed (s : bool) (m e : Z) (l : location) :
  (0 <= m)%Z -> signed s (binary_round_aux prec emax s m e l).
Proof.
  intros H. unfold binary_round_aux.
  pose proof (shr_fexp_nonneg m e l H) as H1.
  destruct (shr_fexp prec emax m e l) as [mrs' e']. cbn [fst] in H1.
  pose proof (shr_fexp_nonneg _ e' loc_Exact
                (round_nearest_even_nonneg _ (loc_of_shr_record mrs') H1)) as H2.
  destruct (shr_fexp prec emax _ e' loc_Exact) as [mrs'' e'']. cbn [fst] in H2.
  destruct (shr_m mrs'') as [|p|p]; [reflexivity| |lia].
  destruct (e'' <=? emax - prec)%Z; reflexivity.
Qed.

Lemma binary_normalize_signed (m e : Z) :
  (0 <= m)%Z -> signed false (binary_normalize prec emax m e false).
Proof.
  intros H. destruct m as [|p|p]; [reflexivity| |lia].
  unfold binary_normalize, binary_round.
  destruct (shl_align p e _) as [mz ez].
  apply binary_round_aux_signed. lia.
Qed.

Lemma SFadd_signed (x y : spec_float) :
  signed false x -> signed false y -> signed false (SFadd prec emax x y).
Proof.
  destruct x as [sx|sx| |sx mx ex], y as [sy|sy| |sy my ey]; cbn [signed];
    try contradiction; intros -> ->; try reflexivity.
  cbn [SFadd cond_Zopp]. apply binary_normalize_signed. lia.
Qed.

Lemma SFadd_zero_or_signed (x y : spec_float) :
  signed false x -> zero_or_signed y -> signed false (SFadd prec emax x y).
Proof.
  intros Hx Hy. destruct y as [sy|sy| |sy my ey];
    try (apply SFadd_signed; [exact Hx | exact Hy]).
  destruct x as [sx|sx| |sx mx ex]; cbn [signed] in Hx; try contradiction;
    subst sx; cbn; try reflexivity.
  destruct sy; reflexivity.
Qed.

(** A product of a finite number above 0 and a signed one. *)
Lemma SFmul_finite_signed (m : positive) (e : Z) (y : spec_float) :
  signed false y -> signed false (SFmul prec emax (S754_finite false m e) y).
Proof.
  destruct y as [sy|sy| |sy my ey]; cbn [signed]; try contradiction;
    intros ->; try reflexivity.
  cbn [SFmul xorb]. apply binary_round_aux_signed. lia.
Qed.

Lemma SFmul_square_signed (x : spec_float) :
  x <> S754_nan -> signed false (SFmul prec emax x x).
Proof.
  intros Hx. destruct x as [s|s| |s m e]; try (destruct s; reflexivity).
  - contradiction.
  - cbn [SFmul]. replace (xorb s s) with false by (destruct s; reflexivity).
    apply binary_round_aux_signed. lia.
Qed.

Lemma SFmul_above_zero_signed (x y : spec_float) :
  above_zero x -> above_zero y -> signed false (SFmul prec emax x y).
Proof.
  destruct x as [sx|sx| |sx mx ex], y as [sy|sy| |sy my ey]; cbn [above_zero];
    try contradiction; destruct sx; try contradiction;
    destruct sy; try contradiction; intros _ _; try reflexivity.
  cbn [SFmul xorb]. apply binary_round_aux_signed. lia.
Qed.

(** A finite number above 0 times a finite non-negative one. *)
Lemma SFmul_finite_nonneg (m : positive) (e : Z) (g : spec_float) :
  SFleb (S754_zero false) g = true -> SFltb g (S754_infinity false) = true ->
  zero_or_signed (SFmul prec emax (S754_finite false m e) g).
Proof.
  intros H0 Hfin.
  destruct g as [sg|sg| |sg mg eg]; try discriminate H0;
    try (destruct sg; (discriminate H0 || discriminate Hfin)); try exact I.
  destruct sg; [discriminate H0|].
  cbn [SFmul xorb].
  pose proof (binary_round_aux_signed false (Z.pos (m * mg)) (e + eg) loc_Exact
                ltac:(lia)) as Hs.
  destruct (binary_round_aux _ _ _ _ _ _); try exact I; exact Hs.
Qed.

Lemma div_eucl_nonneg (a b : Z) :
  (0 <= a)%Z -> (0 < b)%Z -> (0 <= fst (Z.div_eucl a b))%Z.
Proof.
  intros Ha Hb. change (fst (Z.div_eucl a b)) with (a / b)%Z.
  apply Z.div_pos; assumption.
Qed.

Lemma SFdiv_finite_finite_signed (mg md : positive) (eg ed : Z) :
  signed false (SFdiv prec emax (S754_finite false mg eg) (S754_finite false md ed)).
Proof.
  cbn [SFdiv xorb]. unfold SFdiv_core_binary.
  set (m' := match (eg - ed - _)%Z with 0%Z => _ | Z.pos _ => _ | Z.neg _ => _ end).
  assert (Hm : (0 <= m')%Z).
  { subst m'. destruct (eg - ed - _)%Z; try lia. apply Z.shiftl_nonneg. lia. }
  pose proof (div_eucl_nonneg m' (Z.pos md) Hm eq_refl) as Hq.
  change Z.div_eucl with IntDef.Z.div_eucl in Hq.
  destruct (IntDef.Z.div_eucl m' (Z.pos md)) as [q r]. cbn [fst] in Hq.
  apply binary_round_aux_signed. exact Hq.
Qed.

(** A finite number above 0 divided by one that is not negative. *)
Lemma SFdiv_finite_by_signed (m : positive) (e : Z) (d : spec_float) :
  signed false d -> signed false (SFdiv prec emax (S754_finite false m e) d).
Proof.
  intros Hd.
  destruct d as [sd|sd| |sd md ed]; cbn [signed] in Hd; try contradiction;
    subst sd; try reflexivity.
  apply SFdiv_finite_finite_signed.
Qed.

(** A finite non-negative number divided by a number above 0. *)
Lemma SFdiv_zero_or_signed (g d : spec_float) :
  SFleb (S754_zero false) g = true -> SFltb g (S754_infinity false) = true ->
  above_zero d -> zero_or_signed (SFdiv prec emax g d).
Proof.
  intros H0 Hfin Hd.
  destruct d as [sd|sd| |sd md ed]; cbn [above_zero] in Hd; try contradiction;
    destruct sd; try contradiction;
    destruct g as [sg|sg| |sg mg eg]; try discriminate H0;
    try (destruct sg; (discriminate H0 || discriminate Hfin));
    try exact I.
  destruct sg; [discriminate H0|].
  pose proof (SFdiv_finite_finite_signed mg md eg ed) as Hs.
  destruct (SFdiv _ _ _ _); try exact I; exact Hs.
Qed.

Lemma shr_1_lower (r : shr_record) (k : Z) :
  (0 <= k)%Z -> (2 ^ (k + 1) <= shr_m r)%Z -> (2 ^ k <= shr_m (shr_1 r))%Z.
Proof.
  intros Hk. rewrite Z.pow_add_r by lia. change (2 ^ 1)%Z with 2%Z.
  assert (Hp : (0 < 2 ^ k)%Z) by (apply Z.pow_pos_nonneg; lia).
  destruct r as [m r s]. cbn [shr_m]. intros H.
  destruct m as [|p|p]; [lia| |lia].
  destruct p as [q|q|]; cbn [shr_1 shr_m]; lia.
Qed.

Lemma iter_shr_1_lower (p : positive) :
  forall (r : shr_record) (k : Z),
  (0 <= k)%Z -> (2 ^ (k + Z.pos p) <= shr_m r)%Z ->
  (2 ^ k <= shr_m (SpecFloat.iter_pos shr_1 p r))%Z.
Proof.
  induction p as [p IH|p IH|]; intros r k Hk H; cbn [SpecFloat.iter_pos].
  - apply IH; [exact Hk|]. apply IH; [lia|]. apply shr_1_lower; [lia|].
    replace (k + Z.pos p + Z.pos p + 1)%Z with (k + Z.pos p~1)%Z by lia. exact H.
  - apply IH; [exact Hk|]. apply IH; [lia|].
    replace (k + Z.pos p + Z.pos p)%Z with (k + Z.pos p~0)%Z by lia. exact H.
  - apply shr_1_lower; assumption.
Qed.

(** The shift that brings a positive mantissa to its format keeps it
    positive, when the exponent is not below the least one. *)
Lemma shr_fexp_positive (m e : Z) (l : location) :
  (0 < m)%Z -> (-1074 <= e)%Z ->
  (0 < shr_m (fst (shr_fexp prec emax m e l))
   /\ -1074 <= snd (shr_fexp prec emax m e l))%Z.
Proof.
  intros Hm He. unfold shr_fexp, shr.
  assert (H0 : shr_m (shr_record_of_loc m l) = m).
  { destruct l as [|[| |]]; reflexivity. }
  destruct m as [|p|p]; try lia. cbn [Zdigits2].
  pose proof (digits2_pos_bounds p) as [Hlo _].
  unfold fexp, SpecFloat.emin, prec, emax.
  remember (Z.pos (digits2_pos p)) as d eqn:Hd.
  assert (Hd1 : (1 <= d)%Z) by lia.
  destruct (Z.max (d + e - 53) (3 - 1024 - 53) - e)%Z as [|q|q] eqn:En;
    cbn [fst snd]; rewrite ?H0; try lia.
  split; [|lia].
  assert (Hq : (Z.pos q <= d - 1)%Z) by lia.
  assert (H1 : (2 ^ 0 <= shr_m (SpecFloat.iter_pos shr_1 q
                                  (shr_record_of_loc (Z.pos p) l)))%Z).
  { apply iter_shr_1_lower; [lia|]. rewrite H0.
    eapply Z.le_trans; [|exact Hlo]. apply Z.pow_le_mono_r; lia. }
  change (2 ^ 0)%Z with 1%Z in H1. lia.
Qed.

Lemma round_nearest_even_positive (m : Z) (l : location) :
  (0 < m)%Z -> (0 < round_nearest_even m l)%Z.
Proof.
  intros H. unfold round_nearest_even.
  destruct l as [|[| |]]; try exact H; try lia.
  destruct (Z.even m); lia.
Qed.

(** Rounding a positive mantissa gives no zero either. *)
Lemma binary_round_aux_positive (m e : Z) (l : location) :
  (0 < m)%Z -> (-1074 <= e)%Z ->
  above_zero (binary_round_aux prec emax false m e l).
Proof.
  intros Hm He. unfold binary_round_aux.
  pose proof (shr_fexp_positive m e l Hm He) as [H1 H1'].
  destruct (shr_fexp prec emax m e l) as [mrs' e']. cbn [fst snd] in H1, H1'.
  pose proof (shr_fexp_positive _ e' loc_Exact
                (round_nearest_even_positive _ (loc_of_shr_record mrs') H1) H1')
    as [H2 _].
  destruct (shr_fexp prec emax _ e' loc_Exact) as [mrs'' e'']. cbn [fst] in H2.
  destruct (shr_m mrs'') as [|p|p]; try lia.
  destruct (e'' <=? emax - prec)%Z; exact I.
Qed.

Lemma binary_normalize_positive (m e : Z) :
  (0 < m)%Z -> (-1074 <= e)%Z ->
  above_zero (binary_normalize prec emax m e false).
Proof.
  intros Hm He. destruct m as [|p|p]; try lia.
  unfold binary_normalize, binary_round, shl_align.
  destruct (fexp prec emax (Z.pos (digits2_pos p) + e) - e)%Z as [|q|q] eqn:E;
    apply binary_round_aux_positive; try lia.
  unfold fexp, SpecFloat.emin, prec, emax. lia.
Qed.

Lemma above_zero_signed (f : spec_float) : above_zero f -> signed false f.
Proof.
  destruct f as [s|s| |s m e]; cbn; try contradiction;
    destruct s; try contradiction; reflexivity.
Qed.

Lemma signed_zero_or_signed (f : spec_float) : signed false f -> zero_or_signed f.
Proof.
  destruct f as [s|s| |s m e]; cbn; intros H; try exact H. exact I.
Qed.

(** The sum of a number above 0 and one that is not negative is above 0:
    no rounding takes it to zero. *)
Lemma SFadd_positive (x y : spec_float) :
  valid_binary x = true -> valid_binary y = true ->
  above_zero x -> signed false y -> above_zero (SFadd prec emax x y).
Proof.
  intros Vx Vy.
  destruct x as [sx|sx| |sx mx ex], y as [sy|sy| |sy my ey]; cbn [above_zero signed];
    try contradiction; try (destruct sx; try contradiction);
    intros _ Hy; try (subst sy); try exact I.
  cbn [SFadd cond_Zopp].
  destruct (bounded_shape mx ex Vx) as (_ & Hex & _).
  destruct (bounded_shape my ey Vy) as (_ & Hey & _).
  apply binary_normalize_positive; lia.
Qed.

Lemma SFadd_above_zero (x y : spec_float) :
  valid_binary x = true -> valid_binary y = true ->
  above_zero x -> zero_or_signed y -> above_zero (SFadd prec emax x y).
Proof.
  intros Vx Vy Hx Hy. destruct y as [sy|sy| |sy my ey];
    try (apply SFadd_positive; assumption).
  destruct x as [sx|sx| |sx mx ex]; cbn [above_zero] in Hx; try contradiction;
    destruct sx; try contradiction; exact I.
Qed.

Local Open Scope float_scope.

Lemma above_zero_ltb (x : float) : above_zero (Prim2SF x) <-> (0 <? x) = true.
Proof.
  rewrite ltb_spec. change (Prim2SF 0) with (S754_zero false).
  destruct (Prim2SF x) as [s|s| |s m e]; cbn; try (destruct s); cbn;
    split; intros H; try exact I; try reflexivity; try contradiction;
    try discriminate.
Qed.

Lemma signed_nonneg (x : float) : signed false (Prim2SF x) -> (0 <=? x) = true.
Proof.
  rewrite leb_spec. change (Prim2SF 0) with (S754_zero false).
  destruct (Prim2SF x) as [s|s| |s m e]; cbn; try contradiction;
    intros ->; reflexivity.
Qed.

Lemma zero_or_signed_of_nonneg (x : float) :
  (0 <=? x) = true -> zero_or_signed (Prim2SF x).
Proof.
  rewrite leb_spec. change (Prim2SF 0) with (S754_zero false).
  destruct (Prim2SF x) as [s|s| |s m e]; cbn; try discriminate;
    try exact (fun _ => I); destruct s; try discriminate; reflexivity.
Qed.

Lemma add_positive (x y : float) :
  (0 <? x) = true -> signed false (Prim2SF y) -> (0 <? x + y) = true.
Proof.
  intros Hx Hy. apply above_zero_ltb. rewrite add_spec.
  apply SFadd_positive; try apply Prim2SF_valid; [|exact Hy].
  apply above_zero_ltb. exact Hx.
Qed.

(** [0.25 * y] and [0.5 * y] keep the sign of [y]. *)
Lemma scale_signed (c y : float) (m : positive) (e : Z) :
  Prim2SF c = S754_finite false m e ->
  signed false (Prim2SF y) -> signed false (Prim2SF (c * y)).
Proof.
  intros Hc. rewrite mul_spec, Hc. apply SFmul_finite_signed.
Qed.

Lemma div_nonneg_by_positive (e d : float) :
  finite_nonneg e = true -> (0 <? d) = true -> zero_or_signed (Prim2SF (e / d)).
Proof.
  intros He Hd. unfold finite_nonneg in He. apply andb_prop in He.
  destruct He as [H0 Hf]. rewrite leb_spec in H0. rewrite ltb_spec in Hf.
  rewrite div_spec. apply SFdiv_zero_or_signed; try assumption.
  apply above_zero_ltb. exact Hd.
Qed.

Lemma Forall_combine {A B : Type} (P : A -> Prop) (Q : B -> Prop)
    (l1 : list A) : forall (l2 : list B),
  Forall P l1 -> Forall Q l2 ->
  Forall (fun p => P (fst p) /\ Q (snd p)) (combine l1 l2).
Proof.
  induction l1 as [|a l1 IH]; intros l2 H1 H2; [constructor|].
  destruct l2 as [|b l2]; [constructor|].
  inversion H1; inversion H2; subst. cbn. constructor; [split; assumption|].
  apply IH; assumption.
Qed.

End SignFacts.

Import SignFacts.

(** ** The sign of the samples *)

Section ZeroBranchSign.

Local Open Scope float_scope.

Variables exp log : float -> float.
Variable bitgen_t : Type.
Variable next_double : bitgen_t -> float * bitgen_t.
Variable random_standard_uniform : bitgen_t -> float * bitgen_t.
Variable random_standard_exponential : bitgen_t -> float * bitgen_t.
Variable random_wald : bitgen_t -> float -> float -> float * bitgen_t.

Local Abbreviation jacobi_0 :=
  (random_jacobi_0 exp log bitgen_t next_double random_standard_exponential).

(** The sum that the loop over [random_jacobi_0] returns is above 0. *)
Lemma devroye_do_while_positive (fuel steps : nat) :
  forall (cfg : config) (n : Z) (out : float) (st : bitgen_t) v st',
  signed false (Prim2SF out) ->
  devroye_do_while bitgen_t steps (jacobi_0 fuel) cfg n out st = Some (v, st') ->
  above_zero (Prim2SF v).
Proof.
  induction steps as [|steps IH]; intros cfg n out st v st' Ho H; [discriminate|].
  cbn [devroye_do_while] in H. unfold bind, ret in H.
  destruct (jacobi_0 fuel cfg st) as [[[x c] s1]|] eqn:E; [|discriminate].
  cbn [fst snd] in H.
  apply random_jacobi_0_loop_positive in E. apply above_zero_ltb in E.
  assert (Ho' : above_zero (Prim2SF (out + x))).
  { rewrite add_comm, add_spec.
    apply SFadd_positive; try apply Prim2SF_valid; assumption. }
  destruct (negb (wrap64 (n - 1) =? 0)%Z).
  - exact (IH _ _ _ _ _ _ (above_zero_signed _ Ho') H).
  - inversion H; subst. exact Ho'.
Qed.

(** X21. With [z == 0], every value that [random_polyagamma_devroye] returns
    is [0.25 * out] for a sum [out] above 0, and is itself not negative and
    not NaN, whatever the engine hands out, for every [n] (the wrapped
    [n = 0] included). *)
Theorem random_polyagamma_devroye_zero_nonneg (fuel steps : nat) (cfg : config)
    (n : Z) (z : float) (st : bitgen_t) (v : float) (st' : bitgen_t) :
  (z =? 0) = true ->
  random_polyagamma_devroye exp log bitgen_t next_double random_standard_uniform
    random_standard_exponential random_wald fuel steps cfg n z st = Some (v, st') ->
  (0 <=? v) = true /\ exists out, v = 0.25 * out /\ (0 <? out) = true.
Proof.
  intros Hz H. unfold random_polyagamma_devroye in H. rewrite Hz in H.
  unfold bind, ret in H.
  destruct (devroye_do_while _ _ _ _ _ _ _) as [[out s1]|] eqn:E; [|discriminate].
  inversion H; subst.
  assert (Ho : above_zero (Prim2SF out)).
  { eapply devroye_do_while_positive; [|exact E]. reflexivity. }
  assert (Hq : Prim2SF 0.25 = S754_finite false 4503599627370496 (-54))
    by (vm_compute; reflexivity).
  split.
  - apply signed_nonneg, (scale_signed _ _ _ _ Hq), above_zero_signed, Ho.
  - exists out. split; [reflexivity|]. apply above_zero_ltb, Ho.
Qed.

End ZeroBranchSign.

Section GammaConvSign.

Local Open Scope float_scope.

Variable bitgen_t : Type.
Variable random_standard_gamma : bitgen_t -> float -> float * bitgen_t.

(** [pi^2 (n + 0.5)^2] as the code computes it is above 0 for n = 0..199. *)
Lemma gamma_conv_scale_positive (n : Z) :
  (0 <= n < 200)%Z ->
  (0 <? PGM_PI2 * (double_of_size_t n + 0.5) * (double_of_size_t n + 0.5)) = true.
Proof.
  intros Hn.
  assert (H : forallb (fun k => 0 <? PGM_PI2 * (double_of_size_t k + 0.5)
                                      * (double_of_size_t k + 0.5))
                (map Z.of_nat (seq 0 200)) = true)
    by (vm_compute; reflexivity).
  rewrite forallb_forall in H. apply H.
  apply in_map_iff. exists (Z.to_nat n). split; [lia | apply in_seq; lia].
Qed.

Lemma countdown_below (k : nat) :
  Forall (fun n => (0 <= n < Z.of_nat k)%Z) (countdown k).
Proof.
  induction k as [|k IH]; [constructor|].
  cbn [countdown]. constructor; [lia|].
  eapply Forall_impl; [|exact IH]. cbn. intros a Ha. lia.
Qed.

(** A term [g / (pi^2 (n + 0.5)^2 + z^2)] is a zero or has the sign bit
    clear: the denominator is above 0. *)
Lemma gamma_conv_term_sign (z g : float) (n : Z) :
  is_nan z = false -> (0 <= n < 200)%Z -> finite_nonneg g = true ->
  zero_or_signed (Prim2SF (gamma_conv_term z n g)).
Proof.
  intros Hz Hn Hg. unfold gamma_conv_term.
  apply div_nonneg_by_positive; [exact Hg|].
  apply add_positive.
  - apply gamma_conv_scale_positive. exact Hn.
  - rewrite mul_spec. apply SFmul_square_signed.
    intros E. unfold is_nan in Hz. rewrite eqb_spec, E in Hz. discriminate.
Qed.

Lemma gamma_conv_fold_signed (z : float) (terms : list (Z * float)) :
  is_nan z = false ->
  Forall (fun ng => (0 <= fst ng < 200)%Z /\ finite_nonneg (snd ng) = true) terms ->
  forall out, signed false (Prim2SF out) ->
  signed false (Prim2SF (fold_left
    (fun acc ng => acc + gamma_conv_term z (fst ng) (snd ng)) terms out)).
Proof.
  intros Hz HF. induction HF as [|[n g] terms [Hn Hg] _ IH]; intros out Ho.
  - exact Ho.
  - cbn [fold_left fst snd]. apply IH. rewrite add_spec.
    apply SFadd_zero_or_signed; [exact Ho|].
    apply gamma_conv_term_sign; assumption.
Qed.

(** X22. When [z] is not NaN and the 200 gamma variates that the engine
    hands out are finite and not negative, the value that
    [random_polyagamma_gamma_conv] returns is not negative and not NaN: every
    denominator [pi^2 (n + 0.5)^2 + z^2] is above 0, so no term is [0/0] or
    negative. *)
Theorem random_polyagamma_gamma_conv_nonneg (st : bitgen_t) (h z : float) :
  is_nan z = false ->
  Forall (fun g => finite_nonneg g = true)
    (fst (gamma_draws bitgen_t random_standard_gamma 200 st h)) ->
  (0 <=? fst (random_polyagamma_gamma_conv bitgen_t random_standard_gamma st h z))
  = true.
Proof.
  intros Hz Hg. unfold random_polyagamma_gamma_conv.
  change PGM_GAMMA_LIMIT with (Z.of_nat 200). rewrite Nat2Z.id.
  rewrite (gamma_conv_loop_sum bitgen_t random_standard_gamma 200 201 h z 0 st)
    by (unfold SIZE_MAX_plus_1; lia).
  cbn [fst]. apply signed_nonneg.
  assert (H : Prim2SF 0.5 = S754_finite false 4503599627370496 (-53))
    by (vm_compute; reflexivity).
  apply (scale_signed _ _ _ _ H).
  apply gamma_conv_fold_signed; [exact Hz| |reflexivity].
  apply (Forall_combine (fun n => (0 <= n < 200)%Z)
           (fun g => finite_nonneg g = true)); [|exact Hg].
  exact (countdown_below 200).
Qed.

End GammaConvSign.

Section EngineSign.

Local Open Scope float_scope.

Variables exp log : float -> float.
Variable bitgen_t : Type.
Variable next_double : bitgen_t -> float * bitgen_t.
Variable random_standard_uniform : bitgen_t -> float * bitgen_t.
Variable random_standard_exponential : bitgen_t -> float * bitgen_t.
Variable random_wald : bitgen_t -> float -> float -> float * bitgen_t.

(** What the engine promises: exponential variates that are finite and not
    negative, Wald variates that are not negative. *)
Hypothesis exponential_finite_nonneg :
  forall st, finite_nonneg (fst (random_standard_exponential st)) = true.
Hypothesis wald_nonneg :
  forall st mu lambda, (0 <=? fst (random_wald st mu lambda)) = true.

(** The inner loop leaves one of the variates it drew. *)
Lemma normal_tail_pair_draw (fuel : nat) (bound : float -> float) :
  forall st e1 st',
  normal_tail_pair bitgen_t random_standard_exponential fuel bound st
  = Some (e1, st') -> finite_nonneg e1 = true.
Proof.
  induction fuel as [|fuel IH]; intros st e1 st' H; [discriminate|].
  cbn [normal_tail_pair] in H. unfold bind, draw, ret in H.
  pose proof (exponential_finite_nonneg st) as He.
  destruct (random_standard_exponential st) as [a st1]. cbn [fst] in He.
  destruct (random_standard_exponential st1) as [b st2].
  destruct (gtb (a * a) (bound b)).
  - exact (IH _ _ _ H).
  - inversion H; subst. exact He.
Qed.

(** The proposal of the branch [t < mu]: [t / (1 + t e1)^2]. *)
Lemma small_t_proposal_signed (t e1 : float) mt et :
  Prim2SF t = S754_finite false mt et -> finite_nonneg e1 = true ->
  signed false (Prim2SF (t / ((1 + t * e1) * (1 + t * e1)))).
Proof.
  intros Ht He. unfold finite_nonneg in He. apply andb_prop in He.
  destruct He as [H0 Hfin]. rewrite leb_spec in H0. rewrite ltb_spec in Hfin.
  assert (Hx : above_zero (Prim2SF (1 + t * e1))).
  { rewrite add_spec. apply SFadd_above_zero; try apply Prim2SF_valid.
    - exact I.
    - rewrite mul_spec, Ht. apply SFmul_finite_nonneg; assumption. }
  rewrite div_spec, mul_spec, Ht. apply SFdiv_finite_by_signed.
  apply SFmul_above_zero_signed; exact Hx.
Qed.

Lemma right_bounded_ig_small_t_signed (n fuel : nat) (a hl t : float) mt et :
  Prim2SF t = S754_finite false mt et ->
  forall st x st',
  right_bounded_ig_small_t log bitgen_t random_standard_uniform
    random_standard_exponential n fuel a hl t st = Some (x, st') ->
  signed false (Prim2SF x).
Proof.
  intros Ht. induction fuel as [|fuel IH]; intros st x st' H; [discriminate|].
  cbn [right_bounded_ig_small_t] in H. unfold bind, draw, ret in H.
  destruct (normal_tail_pair _ _ n _ st) as [[e1 st1]|] eqn:E; [|discriminate].
  apply normal_tail_pair_draw in E.
  pose proof (small_t_proposal_signed t e1 mt et Ht E) as Hx.
  destruct (gtb a 0).
  - destruct (random_standard_uniform st1) as [u st2].
    destruct (geb _ _).
    + exact (IH _ _ _ H).
    + inversion H; subst. exact Hx.
  - inversion H; subst. exact Hx.
Qed.

Lemma right_bounded_ig_wald_nonneg (fuel : nat) (mu lambda t : float) :
  forall st x st',
  right_bounded_ig_wald bitgen_t random_wald fuel mu lambda t st = Some (x, st') ->
  zero_or_signed (Prim2SF x).
Proof.
  induction fuel as [|fuel IH]; intros st x st' H; [discriminate|].
  cbn [right_bounded_ig_wald] in H. unfold bind, draw, ret in H.
  pose proof (wald_nonneg st mu lambda) as Hw.
  destruct (random_wald st mu lambda) as [y st1]. cbn [fst] in Hw.
  destruct (geb y t).
  - exact (IH _ _ _ H).
  - inversion H; subst. apply zero_or_signed_of_nonneg. exact Hw.
Qed.

Lemma right_bounded_inverse_gaussian_sign (fuel : nat)
    (mu lambda t : float) mt et :
  Prim2SF t = S754_finite false mt et ->
  forall st x st',
  random_right_bounded_inverse_gaussian log bitgen_t random_standard_uniform
    random_standard_exponential random_wald fuel mu lambda t st = Some (x, st') ->
  zero_or_signed (Prim2SF x).
Proof.
  intros Ht st x st' H. unfold random_right_bounded_inverse_gaussian in H.
  destruct (t <? mu).
  - apply signed_zero_or_signed.
    exact (right_bounded_ig_small_t_signed _ _ _ _ _ _ _ Ht _ _ _ H).
  - exact (right_bounded_ig_wald_nonneg _ _ _ _ _ _ _ H).
Qed.

Lemma finite_above_zero (t : float) :
  (0 <? t) = true -> (t <? infinity) = true ->
  exists m e, Prim2SF t = S754_finite false m e.
Proof.
  rewrite !ltb_spec. change (Prim2SF 0) with (S754_zero false).
  change (Prim2SF infinity) with (S754_infinity false).
  destruct (Prim2SF t) as [s|s| |s m e]; intros H1 H2;
    try discriminate H1; try (destruct s; discriminate H1);
    try (destruct s; (discriminate H1 || discriminate H2)).
  destruct s; [discriminate H1|]. exists m, e. reflexivity.
Qed.

(** X23. For a finite truncation point [t] above 0, and an engine whose
    exponential variates are finite and not negative and whose Wald variates
    are not negative, every value that
    [random_right_bounded_inverse_gaussian] returns is not negative and not
    NaN, for all [mu] and [lambda]: in the branch [t < mu] the proposal
    [t / (1 + t e1)^2] has a denominator above 0. *)
Theorem random_right_bounded_inverse_gaussian_nonneg (fuel : nat)
    (mu lambda t : float) (st : bitgen_t) (x : float) (st' : bitgen_t) :
  (0 <? t) = true -> (t <? infinity) = true ->
  random_right_bounded_inverse_gaussian log bitgen_t random_standard_uniform
    random_standard_exponential random_wald fuel mu lambda t st = Some (x, st') ->
  (0 <=? x) = true.
Proof.
  intros H0 Hf H. destruct (finite_above_zero t H0 Hf) as (m & e & Ht).
  pose proof (right_bounded_inverse_gaussian_sign _ _ _ _ _ _ Ht _ _ _ H) as Hx.
  rewrite leb_spec. change (Prim2SF 0) with (S754_zero false).
  destruct (Prim2SF x) as [s|s| |s m' e']; cbn in Hx; try contradiction;
    try (subst s); try reflexivity.
Qed.

Lemma left_bounded_gamma_philippe_signed (fuel : nat) (a b t : float) :
  (0 <? t) = true -> (0 <? t * b) = true ->
  forall st x st',
  left_bounded_gamma_philippe log bitgen_t random_standard_uniform
    random_standard_exponential fuel a b t st = Some (x, st') ->
  signed false (Prim2SF x).
Proof.
  intros Ht Htb. induction fuel as [|fuel IH]; intros st x st' H; [discriminate|].
  cbn [left_bounded_gamma_philippe] in H. unfold bind, draw, ret in H.
  pose proof (exponential_finite_nonneg st) as He.
  destruct (random_standard_exponential st) as [e st1]. cbn [fst] in He.
  destruct (random_standard_uniform st1) as [u st2].
  destruct (gtb _ _).
  - exact (IH _ _ _ H).
  - inversion H; subst. rewrite mul_spec.
    apply SFmul_above_zero_signed; [apply above_zero_ltb; exact Ht|].
    rewrite add_spec. apply SFadd_above_zero; try apply Prim2SF_valid.
    + exact I.
    + apply div_nonneg_by_positive; assumption.
Qed.

(** X24. For a shape [a] that is not above 1 (the branches [a == 1] and
    [a < 1]), [t], [b] and the product [t * b] above 0, and an engine whose
    exponential variates are finite and not negative, every value that
    [random_left_bounded_gamma] returns is not negative and not NaN. *)
Theorem random_left_bounded_gamma_nonneg (fuel : nat) (a b t : float)
    (st : bitgen_t) (x : float) (st' : bitgen_t) :
  gtb a 1 = false ->
  (0 <? t) = true -> (0 <? b) = true -> (0 <? t * b) = true ->
  random_left_bounded_gamma log bitgen_t random_standard_uniform
    random_standard_exponential fuel a b t st = Some (x, st') ->
  (0 <=? x) = true.
Proof.
  intros Ha Ht Hb Htb H. unfold random_left_bounded_gamma in H. rewrite Ha in H.
  apply signed_nonneg.
  destruct (a =? 1).
  - unfold bind, draw, ret in H.
    pose proof (exponential_finite_nonneg st) as He.
    destruct (random_standard_exponential st) as [e st1]. cbn [fst] in He.
    inversion H; subst. apply above_zero_signed.
    rewrite add_spec. apply SFadd_above_zero; try apply Prim2SF_valid.
    + apply above_zero_ltb. exact Ht.
    + apply div_nonneg_by_positive; assumption.
  - exact (left_bounded_gamma_philippe_signed fuel a b t Ht Htb _ _ _ H).
Qed.

(** [k = pi^2/8 + z^2/2] is above 0 unless [z] is NaN. *)
Lemma initialize_config_k_positive (cfg : config) (z : float) :
  is_nan z = false -> above_zero (Prim2SF (cfg_k (initialize_config cfg z))).
Proof.
  intros Hz. cbn [initialize_config cfg_k]. rewrite add_spec.
  apply SFadd_positive; try apply Prim2SF_valid; [exact I|].
  rewrite !mul_spec.
  assert (H : Prim2SF 0.5 = S754_finite false 4503599627370496 (-53))
    by (vm_compute; reflexivity).
  rewrite H. unfold SF64mul. unfold is_nan in Hz. rewrite eqb_spec in Hz.
  destruct (Prim2SF z) as [s|s| |s m e]; try (destruct s; reflexivity).
  - discriminate Hz.
  - cbn [SFmul xorb].
    pose proof (binary_round_aux_signed s (Z.pos (4503599627370496 * m))
                  (-53 + e) loc_Exact ltac:(lia)) as Hr.
    destruct (binary_round_aux prec emax s _ _ loc_Exact) as [s'|s'| |s' m' e'];
      cbn [signed] in Hr; try contradiction; subst s'; cbn [SFmul];
      try (destruct s; reflexivity).
    replace (xorb s s) with false by (destruct s; reflexivity).
    apply binary_round_aux_signed. lia.
Qed.

(** A value that the loop of [random_jacobi] returns is a zero or has the
    sign bit clear, when [k] is above 0; the loop leaves [k] as it was. *)
Lemma random_jacobi_loop_nonneg (n fuel : nat) :
  forall (cfg : config) (st : bitgen_t) x cfg' st',
  above_zero (Prim2SF (cfg_k cfg)) ->
  random_jacobi_loop exp log bitgen_t next_double random_standard_uniform
    random_standard_exponential random_wald n fuel cfg st = Some ((x, cfg'), st') ->
  zero_or_signed (Prim2SF x) /\ cfg_k cfg' = cfg_k cfg.
Proof.
  assert (HT : Prim2SF T = S754_finite false 5734161139222659 (-53))
    by (vm_compute; reflexivity).
  induction fuel as [|fuel IH]; intros cfg st x cfg' st' Hk H; [discriminate|].
  cbn [random_jacobi_loop] in H. unfold bind, draw, ret, out_of_fuel in H.
  destruct (next_double st) as [v st1].
  destruct (v <? cfg_ratio cfg).
  - destruct (random_right_bounded_inverse_gaussian _ _ _ _ _ n (cfg_mu cfg) 1 T st1)
      as [[y st2]|] eqn:E; [|discriminate].
    apply (right_bounded_inverse_gaussian_sign _ _ _ _ _ _ HT) in E.
    unfold series_test, bind, draw, ret in H.
    destruct (next_double st2) as [w st3].
    destruct (alternating_series _ _ _ _ _ _ _) as [[|]|]; [| |discriminate].
    + inversion H; subst. cbn [cfg_x cfg_k set_x set_logx].
      split; [exact E | reflexivity].
    + apply IH in H; [|exact Hk]. exact H.
  - pose proof (exponential_finite_nonneg st1) as He.
    destruct (random_standard_exponential st1) as [e st2]. cbn [fst] in He.
    unfold series_test, bind, draw, ret in H.
    destruct (next_double st2) as [w st3].
    destruct (alternating_series _ _ _ _ _ _ _) as [[|]|]; [| |discriminate].
    + inversion H; subst. cbn [cfg_x cfg_k set_x set_logx]. split; [|reflexivity].
      apply signed_zero_or_signed, above_zero_signed.
      rewrite add_spec. apply SFadd_above_zero; try apply Prim2SF_valid.
      * rewrite HT. exact I.
      * apply div_nonneg_by_positive; [exact He|].
        apply above_zero_ltb. exact Hk.
    + apply IH in H; [|exact Hk]. exact H.
Qed.

Lemma devroye_do_while_jacobi_signed (fuel steps : nat) :
  forall (cfg : config) (n : Z) (out : float) (st : bitgen_t) v st',
  above_zero (Prim2SF (cfg_k cfg)) -> signed false (Prim2SF out) ->
  devroye_do_while bitgen_t steps
    (random_jacobi exp log bitgen_t next_double random_standard_uniform
       random_standard_exponential random_wald fuel) cfg n out st = Some (v, st') ->
  signed false (Prim2SF v).
Proof.
  induction steps as [|steps IH]; intros cfg n out st v st' Hk Ho H; [discriminate|].
  cbn [devroye_do_while] in H. unfold bind, ret in H.
  destruct (random_jacobi _ _ _ _ _ _ _ fuel cfg st) as [[[x c] s1]|] eqn:E;
    [|discriminate].
  cbn [fst snd] in H.
  apply random_jacobi_loop_nonneg in E; [|exact Hk]. destruct E as [Hx Hc].
  assert (Ho' : signed false (Prim2SF (out + x)))
    by (rewrite add_spec; apply SFadd_zero_or_signed; assumption).
  destruct (negb (wrap64 (n - 1) =? 0)%Z).
  - apply (IH c _ _ _ _ _) in H; [exact H | rewrite Hc; exact Hk | exact Ho'].
  - inversion H; subst. exact Ho'.
Qed.

(** X25. For every [z] that is not NaN and every [n], with an engine whose
    exponential variates are finite and not negative and whose Wald variates
    are not negative, every value that [random_polyagamma_devroye] returns
    is not negative and not NaN: [k] is above 0, each component value is a
    zero or has the sign bit clear, and the sum and its product with 0.25
    keep the sign. *)
Theorem random_polyagamma_devroye_nonneg (fuel steps : nat) (cfg : config)
    (n : Z) (z : float) (st : bitgen_t) (v : float) (st' : bitgen_t) :
  is_nan z = false ->
  random_polyagamma_devroye exp log bitgen_t next_double random_standard_uniform
    random_standard_exponential random_wald fuel steps cfg n z st = Some (v, st') ->
  (0 <=? v) = true.
Proof.
  intros Hz H. unfold random_polyagamma_devroye in H.
  assert (Hq : Prim2SF 0.25 = S754_finite false 4503599627370496 (-54))
    by (vm_compute; reflexivity).
  destruct (z =? 0).
  - unfold bind, ret in H.
    destruct (devroye_do_while _ _ _ _ _ _ _) as [[out s1]|] eqn:E; [|discriminate].
    inversion H; subst.
    apply signed_nonneg, (scale_signed _ _ _ _ Hq), above_zero_signed.
    eapply devroye_do_while_positive; [|exact E]. reflexivity.
  - unfold bind, ret in H.
    destruct (devroye_do_while _ _ _ _ _ _ _) as [[out s1]|] eqn:E; [|discriminate].
    inversion H; subst. apply signed_nonneg, (scale_signed _ _ _ _ Hq).
    eapply devroye_do_while_jacobi_signed; [| |exact E]; [|reflexivity].
    apply (initialize_config_k_positive cfg z Hz).
Qed.

End EngineSign.

(** ** Instances of the statements on signs *)

Lemma forallb_Forall_true {A : Type} (f : A -> bool) (l : list A) :
  forallb f l = true -> Forall (fun x => f x = true) l.
Proof.
  intros H. apply Forall_forall. intros x Hx.
  rewrite forallb_forall in H. apply H. exact Hx.
Qed.

Section SignInstances.

Local Open Scope float_scope.

(** A call with [n = 2] and [z = 0] on a recording. *)
Lemma random_polyagamma_devroye_zero_nonneg_run :
  (0 =? 0) = true
  /\ replay_polyagamma_devroye LibmAtT.exp_at LibmAtT.log_at 4 2 zero_config 2 0
       [0.75; 0; 0; 0.25; 0; 0; 0; 0.125]
     = Some (0.31830988618379069, [0.125])
  /\ (0 <=? 0.31830988618379069) = true
  /\ exists out, 0.31830988618379069 = 0.25 * out /\ (0 <? out) = true.
Proof.
  assert (H1 : (0 =? 0) = true) by reflexivity.
  assert (H2 : replay_polyagamma_devroye LibmAtT.exp_at LibmAtT.log_at 4 2
                 zero_config 2 0 [0.75; 0; 0; 0.25; 0; 0; 0; 0.125]
               = Some (0.31830988618379069, [0.125]))
    by (vm_compute; reflexivity).
  split; [exact H1|]. split; [exact H2|].
  exact (random_polyagamma_devroye_zero_nonneg LibmAtT.exp_at LibmAtT.log_at
           Replay.tape Replay.next Replay.next Replay.next Replay.next_wald
           4 2 zero_config 2 0 [0.75; 0; 0; 0.25; 0; 0; 0; 0.125]
           0.31830988618379069 [0.125] H1 H2).
Defined.

(** The gamma convolution on a recording of three variates; past its end the
    engine hands out zeros. *)
Lemma random_polyagamma_gamma_conv_nonneg_run :
  is_nan 1 = false
  /\ Forall (fun g => finite_nonneg g = true)
       (fst (gamma_draws Replay.tape Replay.next_gamma 200 [1; 2; 0.5] 1))
  /\ (0 <=? fst (random_polyagamma_gamma_conv Replay.tape Replay.next_gamma
                   [1; 2; 0.5] 1 1)) = true.
Proof.
  assert (H1 : is_nan 1 = false) by reflexivity.
  assert (H2 : Forall (fun g => finite_nonneg g = true)
                 (fst (gamma_draws Replay.tape Replay.next_gamma 200
                         [1; 2; 0.5] 1)))
    by (apply forallb_Forall_true; vm_compute; reflexivity).
  split; [exact H1|]. split; [exact H2|].
  exact (random_polyagamma_gamma_conv_nonneg Replay.tape Replay.next_gamma
           [1; 2; 0.5] 1 1 H1 H2).
Defined.

(** The branch [t < mu] on a constant engine: [mu = 2], [t = 1]. *)
Lemma random_right_bounded_inverse_gaussian_nonneg_run :
  (forall st, finite_nonneg (fst (Constant.draw 0 st)) = true)
  /\ (forall st mu lambda, (0 <=? fst (Constant.wald 0.25 st mu lambda)) = true)
  /\ (0 <? 1) = true /\ (1 <? infinity) = true
  /\ random_right_bounded_inverse_gaussian Libm.log_at Constant.state
       (Constant.draw 0.5) (Constant.draw 0) (Constant.wald 0.25) 4 2 1 1 tt
     = Some (1, tt)
  /\ (0 <=? 1) = true.
Proof.
  assert (He : forall st, finite_nonneg (fst (Constant.draw 0 st)) = true)
    by (intros st; reflexivity).
  assert (Hw : forall st mu lambda,
             (0 <=? fst (Constant.wald 0.25 st mu lambda)) = true)
    by (intros st mu lambda; reflexivity).
  assert (H1 : (0 <? 1) = true) by reflexivity.
  assert (H2 : (1 <? infinity) = true) by reflexivity.
  assert (H3 : random_right_bounded_inverse_gaussian Libm.log_at Constant.state
                 (Constant.draw 0.5) (Constant.draw 0) (Constant.wald 0.25)
                 4 2 1 1 tt = Some (1, tt))
    by (vm_compute; reflexivity).
  split; [exact He|]. split; [exact Hw|]. split; [exact H1|].
  split; [exact H2|]. split; [exact H3|].
  exact (random_right_bounded_inverse_gaussian_nonneg Libm.log_at Constant.state
           (Constant.draw 0.5) (Constant.draw 0) (Constant.wald 0.25) He Hw
           4 2 1 1 tt 1 tt H1 H2 H3).
Defined.

(** The branch [a < 1] on a constant engine: [a = 0.5], [b = t = 1]. *)
Lemma random_left_bounded_gamma_nonneg_run :
  (forall st, finite_nonneg (fst (Constant.draw 0 st)) = true)
  /\ gtb 0.5 1 = false /\ (0 <? 1) = true /\ (0 <? 1 * 1) = true
  /\ random_left_bounded_gamma Libm.log_at Constant.state (Constant.draw 0.5)
       (Constant.draw 0) 4 0.5 1 1 tt = Some (1, tt)
  /\ (0 <=? 1) = true.
Proof.
  assert (He : forall st, finite_nonneg (fst (Constant.draw 0 st)) = true)
    by (intros st; reflexivity).
  assert (H1 : gtb 0.5 1 = false) by reflexivity.
  assert (H2 : (0 <? 1) = true) by reflexivity.
  assert (H3 : (0 <? 1 * 1) = true) by reflexivity.
  assert (H4 : random_left_bounded_gamma Libm.log_at Constant.state
                 (Constant.draw 0.5) (Constant.draw 0) 4 0.5 1 1 tt
               = Some (1, tt))
    by (vm_compute; reflexivity).
  split; [exact He|]. split; [exact H1|]. split; [exact H2|].
  split; [exact H3|]. split; [exact H4|].
  exact (random_left_bounded_gamma_nonneg Libm.log_at Constant.state
           (Constant.draw 0.5) (Constant.draw 0) He 4 0.5 1 1 tt 1 tt
           H1 H2 H2 H3 H4).
Defined.

(** A call with [n = 2] and [z = 1] on a constant engine. *)
Lemma random_polyagamma_devroye_nonneg_run :
  (forall st, finite_nonneg (fst (Constant.draw 0 st)) = true)
  /\ (forall st mu lambda, (0 <=? fst (Constant.wald 0.25 st mu lambda)) = true)
  /\ is_nan 1 = false
  /\ random_polyagamma_devroye LibmAtOne.exp_at LibmAtT.log_at Constant.state
       (Constant.draw 0.75) (Constant.draw 0.5) (Constant.draw 0)
       (Constant.wald 0.25) 4 2 zero_config 2 1 tt
     = Some (0.31830988618379069, tt)
  /\ (0 <=? 0.31830988618379069) = true.
Proof.
  assert (He : forall st, finite_nonneg (fst (Constant.draw 0 st)) = true)
    by (intros st; reflexivity).
  assert (Hw : forall st mu lambda,
             (0 <=? fst (Constant.wald 0.25 st mu lambda)) = true)
    by (intros st mu lambda; reflexivity).
  assert (H1 : is_nan 1 = false) by reflexivity.
  assert (H2 : random_polyagamma_devroye LibmAtOne.exp_at LibmAtT.log_at
                 Constant.state (Constant.draw 0.75) (Constant.draw 0.5)
                 (Constant.draw 0) (Constant.wald 0.25) 4 2 zero_config 2 1 tt
               = Some (0.31830988618379069, tt))
    by (vm_compute; reflexivity).
  split; [exact He|]. split; [exact Hw|]. split; [exact H1|].
  split; [exact H2|].
  exact (random_polyagamma_devroye_nonneg LibmAtOne.exp_at LibmAtT.log_at
           Constant.state (Constant.draw 0.75) (Constant.draw 0.5)
           (Constant.draw 0) (Constant.wald 0.25) He Hw 4 2 zero_config 2 1 tt
           0.31830988618379069 tt H1 H2).
Defined.

End SignInstances.

(** ** The branch [a > 1] when [c0] is computed as zero *)

Module SubFacts.

Lemma shl_align_value (m : positive) (e e' : Z) :
  (e' <= e)%Z -> Z.pos (fst (shl_align m e e')) = (Z.pos m * 2 ^ (e - e'))%Z.
Proof.
  intros H. unfold shl_align.
  destruct (e' - e)%Z as [|d|d] eqn:E; try lia.
  - replace (e - e')%Z with 0%Z by lia. cbn [fst]. lia.
  - cbn [fst]. change (Pos.iter xO m d) with (shift_pos d m).
    rewrite shift_pos_correct, Z.pow_pos_fold.
    replace (e - e')%Z with (Z.pos d) by lia. lia.
Qed.

(** The difference of two finite numbers above 0, the greater first, is not
    negative. *)
Lemma SFsub_signed (ma mc : positive) (ea ec : Z) :
  SpecFloat.bounded prec emax ma ea = true ->
  SpecFloat.bounded prec emax mc ec = true ->
  SFltb (S754_finite false mc ec) (S754_finite false ma ea) = true ->
  signed false (SFsub prec emax (S754_finite false ma ea) (S754_finite false mc ec)).
Proof.
  intros Va Vc Hlt. rewrite SFltb_positive in Hlt.
  destruct (bounded_shape ma ea Va) as (Ha & Hea & Hla).
  destruct (bounded_shape mc ec Vc) as (Hc & Hec & Hlc).
  cbn [SFsub cond_Zopp]. apply binary_normalize_signed.
  apply orb_true_iff in Hlt. rewrite andb_true_iff, Z.eqb_eq, !Z.ltb_lt in Hlt.
  rewrite !shl_align_value by lia.
  change (2 ^ 53)%Z with 9007199254740992%Z in *.
  change (2 ^ 52)%Z with 4503599627370496%Z in *.
  destruct Hlt as [Hlt|[He Hm]].
  - rewrite Z.min_r by lia. rewrite Z.sub_diag, Z.mul_1_r.
    assert (Hp : (2 ^ 1 <= 2 ^ (ea - ec))%Z) by (apply Z.pow_le_mono_r; lia).
    change (2 ^ 1)%Z with 2%Z in Hp.
    assert (Hm : (4503599627370496 <= Z.pos ma)%Z) by (apply Hla; lia).
    nia.
  - subst ec. rewrite Z.min_id, Z.sub_diag, !Z.mul_1_r. lia.
Qed.

Local Open Scope float_scope.

Lemma sub_signed (a c : float) mc ec :
  Prim2SF c = S754_finite false mc ec -> (c <? a) = true ->
  signed false (Prim2SF (a - c)).
Proof.
  intros Hc Hlt. rewrite ltb_spec, Hc in Hlt. rewrite sub_spec, Hc.
  pose proof (Prim2SF_valid a) as Va. pose proof (Prim2SF_valid c) as Vc.
  rewrite Hc in Vc.
  destruct (Prim2SF a) as [s|s| |s m e]; try discriminate Hlt;
    try (destruct s; discriminate Hlt).
  - destruct s; [discriminate Hlt | reflexivity].
  - destruct s; [discriminate Hlt|]. apply SFsub_signed; assumption.
Qed.

End SubFacts.

Import SubFacts.

Module InfinityFacts.
Local Open Scope float_scope.

Lemma div_by_zero (e : float) : (0 <? e) = true -> e / 0 = infinity.
Proof.
  intros H. apply above_zero_ltb in H. apply Prim2SF_inj. rewrite div_spec.
  change (Prim2SF 0) with (S754_zero false).
  change (Prim2SF infinity) with (S754_infinity false).
  destruct (Prim2SF e) as [s|s| |s m x]; cbn in H; try contradiction;
    destruct s; try contradiction; reflexivity.
Qed.

Lemma add_infinity (x : float) : (0 <? x) = true -> x + infinity = infinity.
Proof.
  intros H. apply above_zero_ltb in H. apply Prim2SF_inj. rewrite add_spec.
  change (Prim2SF infinity) with (S754_infinity false).
  destruct (Prim2SF x) as [s|s| |s m e]; cbn in H; try contradiction;
    destruct s; try contradiction; reflexivity.
Qed.

(** [c * inf - inf] is NaN for every [c] that is not negative. *)
Lemma mul_infinity_sub_infinity (c : float) :
  signed false (Prim2SF c) -> c * infinity - infinity = nan.
Proof.
  intros H. apply Prim2SF_nan. rewrite sub_spec, mul_spec.
  change (Prim2SF infinity) with (S754_infinity false).
  destruct (Prim2SF c) as [s|s| |s m e]; cbn in H; try contradiction;
    subst s; reflexivity.
Qed.

Lemma sub_nan_l (y : float) : nan - y = nan.
Proof.
  apply Prim2SF_nan. rewrite sub_spec.
  change (Prim2SF nan) with S754_nan. reflexivity.
Qed.

Lemma gtb_nan_r (w : float) : gtb w nan = false.
Proof.
  unfold gtb. rewrite ltb_spec. change (Prim2SF nan) with S754_nan. reflexivity.
Qed.

(** [t * (inf / b)] is [+inf] for [t] above 0 and a finite [b] above 0. *)
Lemma mul_infinity_div (t b : float) :
  (0 <? t) = true -> (0 <? b) = true -> (b <? infinity) = true ->
  t * (infinity / b) = infinity.
Proof.
  intros Ht Hb Hf. apply above_zero_ltb in Ht, Hb. rewrite ltb_spec in Hf.
  apply Prim2SF_inj. rewrite mul_spec, div_spec.
  change (Prim2SF infinity) with (S754_infinity false) in *.
  destruct (Prim2SF b) as [sb|sb| |sb mb eb]; cbn in Hb; try contradiction;
    destruct sb; try contradiction; try discriminate Hf.
  destruct (Prim2SF t) as [s|s| |s m e]; cbn in Ht; try contradiction;
    destruct s; try contradiction; reflexivity.
Qed.

Lemma zero_div_zero (e : float) : (e =? 0) = true -> e / 0 = nan.
Proof.
  rewrite eqb_spec. intros H. apply Prim2SF_nan. rewrite div_spec.
  change (Prim2SF 0) with (S754_zero false) in *.
  destruct (Prim2SF e) as [s|s| |s m x]; try discriminate H;
    try (destruct s; discriminate H); reflexivity.
Qed.

Lemma nonneg_not_zero (e : float) :
  (0 <=? e) = true -> (e =? 0) = false -> (0 <? e) = true.
Proof.
  rewrite leb_spec, eqb_spec, ltb_spec.
  change (Prim2SF 0) with (S754_zero false).
  destruct (Prim2SF e) as [s|s| |s m x]; try discriminate;
    destruct s; try discriminate; reflexivity.
Qed.

Lemma add_nan_r (x : float) : x + nan = nan.
Proof. rewrite add_comm. apply add_nan_l. Qed.

Lemma mul_nan_r (x : float) : x * nan = nan.
Proof.
  apply Prim2SF_nan. rewrite mul_spec. change (Prim2SF nan) with S754_nan.
  destruct (Prim2SF x) as [s|s| |s m e]; reflexivity.
Qed.

Lemma div_nan_l (x : float) : nan / x = nan.
Proof.
  apply Prim2SF_nan. rewrite div_spec. change (Prim2SF nan) with S754_nan.
  reflexivity.
Qed.

End InfinityFacts.

Import InfinityFacts.

Section Cancellation.

Local Open Scope float_scope.

Variable log : float -> float.
Variable bitgen_t : Type.
Variable random_standard_uniform : bitgen_t -> float * bitgen_t.
Variable random_standard_exponential : bitgen_t -> float * bitgen_t.

(** X26. The rate [c0] of the branch [a > 1] is the sum of [b' - a] and a
    square root, which cancel when [a] is large against [b' = t * b]; the
    sum is then computed as 0 (at [a = 10^9], [b' = 1], where the root of
    the quadratic is about [10^-9]).  Whenever [c0] is computed as 0, with
    [t] above 0, [t * b] finite and above 0 and [log(+inf) = +inf], the
    first round accepts whatever the uniform variate is, and the function
    returns [+inf] when the exponential variate is above 0 and NaN when it
    is 0: [x = b' + e / 0] is [+inf] or NaN and the bound of the acceptance
    test is NaN. *)
Theorem random_left_bounded_gamma_cancellation (fuel : nat) (a b t : float)
    (st : bitgen_t) :
  gtb a 1 = true ->
  c0_dagpunar a (t * b) = 0 ->
  (0 <? t) = true -> (0 <? t * b) = true -> (t * b <? infinity) = true ->
  log infinity = infinity ->
  (0 <=? fst (random_standard_exponential st)) = true ->
  random_left_bounded_gamma log bitgen_t random_standard_uniform
    random_standard_exponential (S fuel) a b t st
  = Some (if fst (random_standard_exponential st) =? 0 then nan else infinity,
          snd (random_standard_uniform (snd (random_standard_exponential st)))).
Proof.
  intros Ha Hc Ht Hb Hbf Hlog He.
  unfold random_left_bounded_gamma. rewrite Ha. cbv zeta.
  unfold c0_dagpunar in Hc. rewrite Hc.
  cbn [left_bounded_gamma_dagpunar]. unfold bind, draw, ret.
  destruct (random_standard_exponential st) as [e st1]. cbn [fst snd] in *.
  destruct (random_standard_uniform st1) as [u st2]. cbn [snd].
  replace (1 - 0) with 1 by reflexivity.
  destruct (e =? 0) eqn:E0.
  - rewrite (zero_div_zero e E0), add_nan_r.
    replace (nan * 1) with nan by reflexivity.
    rewrite sub_nan_r, sub_nan_l, gtb_nan_r, div_nan_l, mul_nan_r. reflexivity.
  - pose proof (nonneg_not_zero e He E0) as Hpos.
    rewrite (div_by_zero e Hpos), (add_infinity (t * b) Hb), Hlog.
    replace (infinity * 1) with infinity by reflexivity.
    assert (H1 : Prim2SF 1 = S754_finite false 4503599627370496 (-52))
      by (vm_compute; reflexivity).
    rewrite (mul_infinity_sub_infinity (a - 1) (sub_signed a 1 _ _ H1 Ha)).
    rewrite sub_nan_l, gtb_nan_r.
    rewrite (mul_infinity_div t (t * b) Ht Hb Hbf). reflexivity.
Qed.

End Cancellation.

Section CancellationInstance.

Local Open Scope float_scope.

(** The run at [a = 10^9], [b = t = 1] with the variates 1 and 0.5. *)
Lemma random_left_bounded_gamma_cancellation_run :
  gtb 1000000000 1 = true /\ c0_dagpunar 1000000000 (1 * 1) = 0
  /\ (0 <? 1) = true /\ (0 <? 1 * 1) = true /\ (1 * 1 <? infinity) = true
  /\ LibmLarge.log_at infinity = infinity
  /\ (0 <=? fst (Replay.next [1; 0.5; 7])) = true
  /\ replay_left_bounded_gamma LibmLarge.log_at 3 1000000000 1 1 [1; 0.5; 7]
     = Some (infinity, [7]).
Proof.
  assert (H1 : gtb 1000000000 1 = true) by reflexivity.
  assert (H2 : c0_dagpunar 1000000000 (1 * 1) = 0) by reflexivity.
  assert (H3 : (0 <? 1) = true) by reflexivity.
  assert (H4 : (0 <? 1 * 1) = true) by reflexivity.
  assert (H5 : (1 * 1 <? infinity) = true) by reflexivity.
  assert (H6 : LibmLarge.log_at infinity = infinity) by reflexivity.
  assert (H7 : (0 <=? fst (Replay.next [1; 0.5; 7])) = true) by reflexivity.
  split; [exact H1|]. split; [exact H2|]. split; [exact H3|].
  split; [exact H4|]. split; [exact H5|]. split; [exact H6|].
  split; [exact H7|].
  exact (random_left_bounded_gamma_cancellation LibmLarge.log_at Replay.tape
           Replay.next Replay.next 2 1000000000 1 1 [1; 0.5; 7]
           H1 H2 H3 H4 H5 H6 H7).
Defined.

End CancellationInstance.

(** ** A negative [z], and an infinite [x] *)

Module NegativeFacts.
Local Open Scope float_scope.

Lemma SFdiv_finite_finite_sign (sg sd : bool) (mg md : positive) (eg ed : Z) :
  signed (xorb sg sd)
    (SFdiv prec emax (S754_finite sg mg eg) (S754_finite sd md ed)).
Proof.
  cbn [SFdiv]. unfold SFdiv_core_binary.
  set (m' := match (eg - ed - _)%Z with 0%Z => _ | Z.pos _ => _ | Z.neg _ => _ end).
  assert (Hm : (0 <= m')%Z).
  { subst m'. destruct (eg - ed - _)%Z; try lia. apply Z.shiftl_nonneg. lia. }
  pose proof (div_eucl_nonneg m' (Z.pos md) Hm eq_refl) as Hq.
  change Z.div_eucl with IntDef.Z.div_eucl in Hq.
  destruct (IntDef.Z.div_eucl m' (Z.pos md)) as [q r]. cbn [fst] in Hq.
  apply binary_round_aux_signed. exact Hq.
Qed.

(** [1 / z] has the sign bit set when [z] is below 0. *)
Lemma inverse_of_negative (z : float) :
  (z <? 0) = true -> signed true (Prim2SF (1 / z)).
Proof.
  rewrite ltb_spec, div_spec. change (Prim2SF 0) with (S754_zero false).
  assert (H1 : Prim2SF 1 = S754_finite false 4503599627370496 (-52))
    by (vm_compute; reflexivity).
  rewrite H1.
  destruct (Prim2SF z) as [s|s| |s m e]; intros H; try discriminate H;
    try (destruct s; discriminate H); destruct s; try discriminate H;
    try reflexivity.
  exact (SFdiv_finite_finite_sign false true 4503599627370496 m (-52) e).
Qed.

Lemma not_above_of_signed (c mu : float) mc ec :
  Prim2SF c = S754_finite false mc ec -> signed true (Prim2SF mu) ->
  (c <? mu) = false /\ (mu <=? 0) = true.
Proof.
  intros Hc Hmu. rewrite ltb_spec, leb_spec, Hc.
  change (Prim2SF 0) with (S754_zero false).
  destruct (Prim2SF mu) as [s|s| |s m e]; cbn in Hmu; try contradiction;
    subst s; split; reflexivity.
Qed.

End NegativeFacts.

Import NegativeFacts.

Section NegativeZ.

Local Open Scope float_scope.

Variables exp log : float -> float.
Variable kf_gammaq : float -> float -> float.
Variable bitgen_t : Type.
Variable random_standard_uniform : bitgen_t -> float * bitgen_t.
Variable random_standard_exponential : bitgen_t -> float * bitgen_t.
Variable random_wald : bitgen_t -> float -> float -> float * bitgen_t.

(** X27. For every [z] below 0, [initialize_config] sets [mu = 1 / z], which
    is not above 0, and the proposal
    [random_right_bounded_inverse_gaussian (mu, 1, T)] of [random_jacobi]
    never takes its branch [t < mu]: it is the loop over [random_wald], called
    with a mean that is not positive.  The Devroye sampler does not take the
    absolute value of [z]. *)
Theorem random_jacobi_negative_z (fuel : nat) (cfg : config) (z : float)
    (st : bitgen_t) :
  (z <? 0) = true ->
  (cfg_mu (initialize_config cfg z) <=? 0) = true
  /\ random_right_bounded_inverse_gaussian log bitgen_t random_standard_uniform
       random_standard_exponential random_wald fuel
       (cfg_mu (initialize_config cfg z)) 1 T st
     = right_bounded_ig_wald bitgen_t random_wald fuel
         (cfg_mu (initialize_config cfg z)) 1 T st.
Proof.
  intros Hz. cbn [initialize_config cfg_mu].
  assert (HT : Prim2SF T = S754_finite false 5734161139222659 (-53))
    by (vm_compute; reflexivity).
  destruct (not_above_of_signed T (1 / z) _ _ HT (inverse_of_negative z Hz))
    as [H1 H2].
  split; [exact H2|].
  unfold random_right_bounded_inverse_gaussian. rewrite H1. reflexivity.
Qed.


(** X28. At [x = +inf] the closed forms of [pgm_gammaq] give NaN, for an
    [exp] with [exp(-inf) = 0]: for every integer [s] from 2 to 29 the sum is
    [+inf] and the result [0 * inf], and for every half-integer [s] from 1.5
    to 29.5 likewise. *)
Theorem pgm_gammaq_at_infinity (k : Z) :
  (0 <= k < 30)%Z -> exp (- infinity) = 0 ->
  ((2 <= k)%Z ->
   pgm_gammaq exp kf_gammaq (double_of_size_t k) infinity = Some nan)
  /\ ((1 <= k)%Z ->
      pgm_gammaq exp kf_gammaq (double_of_size_t k + 0.5) infinity = Some nan).
Proof.
  intros Hk He. vm_compute in He. revert k Hk.
  apply (Z_below_cases 30). simpl.
  repeat (constructor;
          [split; intros H2; try (exfalso; apply H2; reflexivity);
           vm_compute; rewrite ?He; reflexivity|]).
  constructor.
Qed.
End NegativeZ.

Section NegativeZInstances.

Local Open Scope float_scope.

(** [z = -1]: the mean is -1. *)
Lemma random_jacobi_negative_z_at_minus_one :
  (-1 <? 0) = true
  /\ (cfg_mu (initialize_config zero_config (-1)) <=? 0) = true
  /\ random_right_bounded_inverse_gaussian Libm.log_at Replay.tape Replay.next
       Replay.next Replay.next_wald 3 (cfg_mu (initialize_config zero_config (-1)))
       1 T [0.25]
     = right_bounded_ig_wald Replay.tape Replay.next_wald 3
         (cfg_mu (initialize_config zero_config (-1))) 1 T [0.25].
Proof.
  assert (H : (-1 <? 0) = true) by reflexivity.
  split; [exact H|].
  exact (random_jacobi_negative_z Libm.log_at Replay.tape Replay.next
           Replay.next Replay.next_wald 3 zero_config (-1) [0.25] H).
Defined.

(** [pgm_gammaq(5, +inf)] and [pgm_gammaq(5.5, +inf)]. *)
Lemma pgm_gammaq_at_infinity_at_5 :
  (0 <= 5 < 30)%Z /\ LibmLarge.exp_at (- infinity) = 0
  /\ ((2 <= 5)%Z ->
      pgm_gammaq LibmLarge.exp_at (fun _ _ => nan) (double_of_size_t 5) infinity
      = Some nan)
  /\ ((1 <= 5)%Z ->
      pgm_gammaq LibmLarge.exp_at (fun _ _ => nan) (double_of_size_t 5 + 0.5)
        infinity = Some nan).
Proof.
  assert (H1 : (0 <= 5 < 30)%Z) by lia.
  assert (H2 : LibmLarge.exp_at (- infinity) = 0) by reflexivity.
  split; [exact H1|]. split; [exact H2|].
  exact (pgm_gammaq_at_infinity LibmLarge.exp_at (fun _ _ => nan) 5 H1 H2).
Defined.

End NegativeZInstances.
